(** * untar: a shallow embedding of [untar.c] and its specification

    The development follows the source file top to bottom:
    [parseoct], [is_end_of_archive], [create_dir], [create_file],
    [verify_checksum] and [untar].  The C library ([mkdir], [fopen],
    [fwrite], [fclose]) is an interface, [Libc]; the archive stream, the
    state of the library and a log of every call and diagnostic are
    threaded through a small state monad. *)

From Stdlib Require Import ZArith Lia.
From Stdlib Require Strings.Byte Strings.String.
From stdpp Require Import base numbers list.
Import Stdlib.Init.Byte.

Local Open Scope Z_scope.

(** ** Machine integers and characters *)

(** [int] is 32 bits wide, two's complement; [int_wrap] brings a
    mathematical result back into range. *)
Definition int_wrap (z : Z) : Z := (z + 2 ^ 31) mod 2 ^ 32 - 2 ^ 31.

(** Conversion to [unsigned]. *)
Definition uint_wrap (z : Z) : Z := z mod 2 ^ 32.

(** A byte of memory, as a number in 0..255. *)
Definition byte_val (b : byte) : Z := Z.of_N (Byte.to_N b).

(** Reading memory: [p[n]], NUL beyond the end of the modelled buffer
    ([untar] only passes pointers into its 514-byte buffer, and never reads
    past it). *)
Definition idx (p : list byte) (n : nat) : byte := nth n p x00.

Section Platform.

(** Whether plain [char] is signed is the compiler's choice: it is on x86
    (gcc, M2-Planet), it is not on ARM Linux. *)
Variable char_signed : bool.

(** The value of a [char] object holding byte [b], promoted to [int]. *)
Definition char_val (b : byte) : Z :=
  if char_signed && (128 <=? byte_val b) then byte_val b - 256 else byte_val b.

(** ** parseoct *)

(** First loop: [while(((p[0] < '0') || (p[0] > '7')) && (n > 0))]. *)
Fixpoint parseoct_skip (p : list byte) (n : nat) : list byte * nat :=
  match n with
  | S n' =>
      if (char_val (idx p 0) <? 48) || (55 <? char_val (idx p 0))
      then parseoct_skip (drop 1 p) n'
      else (p, n)
  | O => (p, n)
  end.

(** Second loop: [while((p[0] >= '0') && (p[0] <= '7') && (n > 0))]. *)
Fixpoint parseoct_digits (i : Z) (p : list byte) (n : nat) : Z :=
  match n with
  | S n' =>
      if (48 <=? char_val (idx p 0)) && (char_val (idx p 0) <=? 55)
      then
        let i := int_wrap (Z.shiftl i 3) in
        let h := char_val (idx p 0) in
        let i := int_wrap (int_wrap (i + h) - 48) in
        parseoct_digits i (drop 1 p) n'
      else i
  | O => i
  end.

Definition parseoct (p : list byte) (n : nat) : Z :=
  let '(p, n) := parseoct_skip p n in
  parseoct_digits 0 p n.

(** ** is_end_of_archive *)

(** [for(n = 511; n >= 0; n = n - 1) if(p[n] != 0) return FALSE;], from
    offset [n] down. *)
Fixpoint is_end_of_archive_from (p : list byte) (n : nat) : bool :=
  if negb (char_val (idx p n) =? 0) then false
  else match n with
       | O => true
       | S n' => is_end_of_archive_from p n'
       end.

Definition is_end_of_archive (p : list byte) : bool :=
  is_end_of_archive_from p 511.

(** ** verify_checksum *)

(** The loop [for(n = 0; n < 512; n = n + 1)] at offset [n], with [todo]
    iterations left.  [h = p[n]] converts the [char] to [unsigned]; [u + h] is computed
    in [unsigned] and stored back into the [int]. *)
Fixpoint checksum_loop (p : list byte) (n : nat) (todo : nat) (u : Z) : Z :=
  match todo with
  | O => u
  | S todo' =>
      let u :=
        if (n <? 148)%nat || (155 <? n)%nat
        then let h := uint_wrap (char_val (idx p n)) in
             int_wrap (uint_wrap (uint_wrap u + h))
        else int_wrap (u + 32) in
      checksum_loop p (n + 1) todo' u
  end.

Definition verify_checksum (p : list byte) : bool :=
  let u := checksum_loop p 0 512 0 in
  let r := parseoct (drop 148 p) 8 in
  u =? r.

End Platform.

(** ** C strings held in a buffer *)

Definition str := list byte.

(** [strlen]: the number of bytes before the first NUL. *)
Fixpoint strlen (s : list byte) : nat :=
  match s with
  | [] => O
  | c :: s' => if Byte.eqb c x00 then O else S (strlen s')
  end.

(** The string a [char*] to the start of [buff] denotes. *)
Definition cstr (buff : list byte) : str := take (strlen buff) buff.

(** The buffer holds a terminating NUL. *)
Definition terminated (buff : list byte) : bool :=
  (strlen buff <? length buff)%nat.

(** [strrchr(s, c)] for [c] other than NUL: the offset of the last [c]
    before the terminator, [None] for [NULL]. *)
Fixpoint strrchr (s : list byte) (c : byte) : option nat :=
  match s with
  | [] => None
  | b :: s' =>
      if Byte.eqb b x00 then None
      else match strrchr s' c with
           | Some i => Some (S i)
           | None => if Byte.eqb b c then Some O else None
           end
  end.

(** ** The C library, the machine and its log *)

(** An open output [FILE*]. *)
Definition handle := nat.

(** The library's side of [mkdir], [fopen(.., "w")], [fwrite] and [fclose]
    over its own state [W]: what each call returns and the state it leaves.
    [fopen] returns [None] for [NULL]. *)
Class Libc (W : Type) := {
  libc_mkdir : str -> Z -> W -> Z * W;
  libc_fopen : str -> W -> option handle * W;
  libc_fwrite : handle -> list byte -> W -> Z * W;
  libc_fclose : handle -> W -> W
}.

Inductive ignored := Hardlink | Symlink | Chardev | Blockdev | Fifo.

(** The diagnostics the program prints, one constructor per message. *)
Inductive diag :=
| Extracting_from (path : str)
| Short_read_header (path : str) (got : nat)
| End_of (path : str)
| Checksum_failure
| Ignoring (k : ignored) (name : str)
| Extracting_dir (name : str)
| Extracting_file (name : str)
| Short_read_payload (path : str) (got : nat)
| Failed_write
| Could_not_create_directory (pathname : str).

(** What the program does to the outside world, in order. *)
Inductive event :=
| Fread (got : nat)
| Mkdir (pathname : str) (mode : Z) (r : Z)
| Fopen (pathname : str) (f : option handle)
| Fwrite (f : handle) (data : list byte) (ret : Z)
| Fclose (f : handle)
| Say (d : diag).

(** The four [return] statements of [untar]. *)
Inductive outcome :=
| Ret_short_header
| Ret_end_of_archive
| Ret_checksum_failure
| Ret_short_payload.

(** Leaving a loop body: on to the next statement, or out of the function. *)
Inductive flow (A : Type) :=
| Continue (a : A)
| Return (o : outcome).
Arguments Continue {A} a.
Arguments Return {A} o.

(** A run stops early on undefined behaviour (a read outside the buffer)
    or, in the model only, when a loop is given too little fuel. *)
Inductive fault := Undefined | Out_of_fuel.

Section Machine.

Context {W : Type} `{Libc W}.

Record machine := Machine {
  input : list byte;     (* what is left of the archive stream [a] *)
  world : W;             (* the state of the C library *)
  log : list event       (* the calls made so far, oldest first *)
}.

Inductive result (A : Type) :=
| Ok (a : A) (m : machine)
| Fault (e : fault).
Arguments Ok {A} a m.
Arguments Fault {A} e.

Definition M (A : Type) := machine -> result A.

Definition ret {A} (a : A) : M A := fun m => Ok a m.

Definition bind {A B} (c : M A) (k : A -> M B) : M B :=
  fun m => match c m with
           | Ok a m' => k a m'
           | Fault e => Fault e
           end.

Definition undefined {A} : M A := fun _ => Fault Undefined.
Definition out_of_fuel {A} : M A := fun _ => Fault Out_of_fuel.

Definition emit (e : event) : M unit :=
  fun m => Ok tt (Machine (input m) (world m) (log m ++ [e])).

Definition say (d : diag) : M unit := emit (Say d).

(** [fread(buff, 1, n, a)]: up to [n] bytes off the stream. *)
Definition fread (n : nat) : M (list byte) :=
  fun m => let got := take n (input m) in
           Ok got (Machine (drop n (input m)) (world m)
                           (log m ++ [Fread (length got)])).

Definition mkdir (pathname : str) (mode : Z) : M Z :=
  fun m => let rw := libc_mkdir pathname mode (world m) in
           Ok (fst rw) (Machine (input m) (snd rw)
                                (log m ++ [Mkdir pathname mode (fst rw)])).

Definition fopen (pathname : str) : M (option handle) :=
  fun m => let fw := libc_fopen pathname (world m) in
           Ok (fst fw) (Machine (input m) (snd fw)
                                (log m ++ [Fopen pathname (fst fw)])).

Definition fwrite (f : handle) (data : list byte) : M Z :=
  fun m => let nw := libc_fwrite f data (world m) in
           Ok (fst nw) (Machine (input m) (snd nw)
                                (log m ++ [Fwrite f data (fst nw)])).

Definition fclose (f : handle) : M unit :=
  fun m => Ok tt (Machine (input m) (libc_fclose f (world m))
                          (log m ++ [Fclose f])).

(** Reading a buffer as a C string is defined only when it holds a NUL. *)
Definition c_str (buff : list byte) : M str :=
  if terminated buff then ret (cstr buff) else undefined.

End Machine.

Arguments machine W : clear implicits.
Arguments result W A : clear implicits.
Arguments M W A : clear implicits.
Arguments Ok {W A} a m.
Arguments Fault {W A} e.

Notation "x <- c ;; k" := (bind c (fun x => k))
  (at level 100, c at next level, right associativity).
Notation "c ;;; k" := (bind c (fun _ => k))
  (at level 100, right associativity).

Section Untar.

Context {W : Type} `{Libc W}.
Variable char_signed : bool.

(** ** create_dir *)

(** [fuel] bounds the depth of the recursion; [create_dir] below supplies
    enough of it.  [pathname] is the caller's buffer: the result is the
    buffer as the call leaves it.  [0755] is 493. *)
Fixpoint create_dir_rec (fuel : nat) (pathname : list byte) (mode : Z)
  : M W (list byte) :=
  match fuel with
  | O => out_of_fuel
  | S fuel' =>
      if negb (terminated pathname) then undefined
      else
        match strlen pathname with
        | O => undefined                     (* reads [pathname[-1]] *)
        | S last =>
            (* Strip trailing '/' *)
            let pathname :=
              if Byte.eqb (idx pathname last) x2f
              then <[last := x00]> pathname else pathname in
            (* Try creating the directory. *)
            r <- mkdir (cstr pathname) mode ;;
            rp <- (if negb (r =? 0) then
                     (* On failure, try creating parent directory. *)
                     match strrchr pathname x2f with
                     | Some p =>
                         let pathname := <[p := x00]> pathname in
                         pathname <- create_dir_rec fuel' pathname 493 ;;
                         let pathname := <[p := x2f]> pathname in
                         r <- mkdir (cstr pathname) mode ;;
                         ret (r, pathname)
                     | None => ret (r, pathname)
                     end
                   else ret (r, pathname)) ;;
            (if negb (fst rp =? 0)
             then say (Could_not_create_directory (cstr (snd rp)))
             else ret tt) ;;;
            ret (snd rp)
        end
  end.

Definition create_dir (pathname : list byte) (mode : Z) : M W (list byte) :=
  create_dir_rec (S (length pathname)) pathname mode.

(** ** create_file *)

(** Returns the [FILE*] and the buffer as the call leaves it. *)
Definition create_file (pathname : list byte) (mode : Z)
  : M W (option handle * list byte) :=
  name <- c_str pathname ;;
  f <- fopen name ;;
  match f with
  | None =>
      (* Try creating parent dir and then creating file. *)
      match strrchr pathname x2f with
      | Some p =>
          let pathname := <[p := x00]> pathname in
          pathname <- create_dir pathname 493 ;;
          let pathname := <[p := x2f]> pathname in
          f <- fopen (cstr pathname) ;;
          ret (f, pathname)
      | None => ret (f, pathname)
      end
  | Some _ => ret (f, pathname)
  end.

(** ** untar *)

(** Lines 205-245: the declared size, then the dispatch on the type flag.
    Returns [filesize], the buffer and [f]. *)
Definition dispatch (buff : list byte) (f : option handle)
  : M W (Z * list byte * option handle) :=
  let filesize := parseoct char_signed (drop 124 buff) 12 in
  let op := char_val char_signed (idx buff 156) in
  name <- c_str buff ;;
  if 49 =? op then
    say (Ignoring Hardlink name) ;;; ret (filesize, buff, f)
  else if 50 =? op then
    say (Ignoring Symlink name) ;;; ret (filesize, buff, f)
  else if 51 =? op then
    say (Ignoring Chardev name) ;;; ret (filesize, buff, f)
  else if 52 =? op then
    say (Ignoring Blockdev name) ;;; ret (filesize, buff, f)
  else if 53 =? op then
    say (Extracting_dir name) ;;;
    buff <- create_dir buff (parseoct char_signed (drop 100 buff) 8) ;;
    ret (0, buff, f)
  else if 54 =? op then
    say (Ignoring Fifo name) ;;; ret (filesize, buff, f)
  else
    say (Extracting_file name) ;;;
    fb <- create_file buff (parseoct char_signed (drop 100 buff) 8) ;;
    ret (filesize, snd fb, fst fb).

(** Lines 249-276: one turn of the payload loop, entered with
    [filesize > 0].  Returns the new [filesize], the buffer and [f]. *)
Definition payload_block (path : str) (filesize : Z) (buff : list byte)
    (f : option handle) : M W (flow (Z * list byte * option handle)) :=
  got <- fread 512 ;;
  let buff := got ++ drop (length got) buff in
  let bytes_read := Z.of_nat (length got) in
  if bytes_read <? 512 then
    say (Short_read_payload path (length got)) ;;; ret (Return Ret_short_payload)
  else
    let bytes_read := if filesize <? 512 then filesize else bytes_read in
    f <- match f with
         | Some h =>
             op <- fwrite h (take (Z.to_nat bytes_read) buff) ;;
             if negb (op =? bytes_read)
             then say Failed_write ;;; fclose h ;;; ret None
             else ret (Some h)
         | None => ret None
         end ;;
    let filesize := int_wrap (filesize - bytes_read) in
    ret (Continue (filesize, buff, f)).

(** [while(filesize > 0)]. *)
Fixpoint drain (fuel : nat) (path : str) (filesize : Z) (buff : list byte)
    (f : option handle) : M W (flow (option handle)) :=
  if 0 <? filesize then
    match fuel with
    | O => out_of_fuel
    | S fuel' =>
        r <- payload_block path filesize buff f ;;
        match r with
        | Return o => ret (Return o)
        | Continue (filesize, buff, f) => drain fuel' path filesize buff f
        end
    end
  else ret (Continue f).

(** Lines 279-283: [if(f != NULL) { fclose(f); f = NULL; }]. *)
Definition close_output (f : option handle) : M W (option handle) :=
  match f with
  | Some h => fclose h ;;; ret None
  | None => ret None
  end.

(** Lines 247-284: the payload loop, the closing of the output, and back
    to the head of the outer loop, [loop]. *)
Definition payload_then (loop : option handle -> M W outcome) (fuel : nat)
    (path : str) (filesize : Z) (buff : list byte) (f : option handle)
  : M W outcome :=
  r <- drain fuel path filesize buff f ;;
  match r with
  | Return o => ret o
  | Continue f => f <- close_output f ;; loop f
  end.

(** [while(TRUE)]: one header and its payload per turn. *)
Fixpoint untar_loop (fuel : nat) (path : str) (f : option handle)
  : M W outcome :=
  match fuel with
  | O => out_of_fuel
  | S fuel' =>
      (* memset(buff, 0, 514); fread(buff, sizeof(char), 512, a) *)
      got <- fread 512 ;;
      let buff := got ++ replicate (514 - length got) x00 in
      if (length got <? 512)%nat then
        say (Short_read_header path (length got)) ;;; ret Ret_short_header
      else if is_end_of_archive char_signed buff then
        say (End_of path) ;;; ret Ret_end_of_archive
      else if negb (verify_checksum char_signed buff) then
        say Checksum_failure ;;; ret Ret_checksum_failure
      else
        d <- dispatch buff f ;;
        payload_then (untar_loop fuel' path) fuel' path
                     (fst (fst d)) (snd (fst d)) (snd d)
  end.

(** [untar(a, path)] on the stream [a], with the library in state [w]. *)
Definition untar (a : list byte) (path : str) (w : W) : result W outcome :=
  (say (Extracting_from path) ;;; untar_loop (S (length a)) path None)
    (Machine a w []).

End Untar.

(** ** A producer of ustar headers, for concrete archives

    The layout of spec section 3: name (0, 100), mode (100, 8), uid, gid,
    size (124, 12), mtime, checksum (148, 8), type flag (156), then link
    name, magic, version, owner names, device numbers, prefix and padding.
    Numeric fields are zero-padded octal digits followed by NUL. *)
Module Ustar.

(** The [n] low octal digits of [v], most significant first. *)
Fixpoint octal (n : nat) (v : Z) : list byte :=
  match n with
  | O => []
  | S n' =>
      octal n' (v / 8)
        ++ [default x30 (Byte.of_N (Z.to_N (48 + v mod 8)))]
  end.

Definition pad_to (n : nat) (s : list byte) : list byte :=
  take n (s ++ replicate n x00).

Definition sum_bytes (l : list byte) : Z :=
  foldr (fun b acc => byte_val b + acc) 0 l.

Definition before_checksum (name : str) (mode size : Z) : list byte :=
  pad_to 100 name ++ (octal 7 mode ++ [x00])
    ++ (octal 7 0 ++ [x00]) ++ (octal 7 0 ++ [x00])
    ++ (octal 11 size ++ [x00]) ++ (octal 11 0 ++ [x00]).

Definition after_checksum (flag : byte) : list byte :=
  [flag] ++ replicate 100 x00
    ++ [x75; x73; x74; x61; x72; x00; x30; x30]      (* "ustar", NUL, "00" *)
    ++ replicate 247 x00.

Definition header (name : str) (mode size : Z) (flag : byte) : list byte :=
  let pre := before_checksum name mode size in
  let post := after_checksum flag in
  let sum := sum_bytes pre + 8 * 32 + sum_bytes post in
  pre ++ (octal 6 sum ++ [x00; x20]) ++ post.

(** A payload followed by the zero bytes that fill its last block. *)
Definition padded (payload : list byte) : list byte :=
  payload ++ replicate ((512 - length payload mod 512) mod 512) x00.

Definition zero_block : list byte := replicate 512 x00.

(** One regular file and the end-of-archive block. *)
Definition single_file (name : str) (mode : Z) (payload : list byte)
  : list byte :=
  header name mode (Z.of_nat (length payload)) x30
    ++ padded payload ++ zero_block.

End Ustar.

(** ** A file system in memory, as one instance of the C library

    Directories and files are kept by path; a path's parent is what precedes
    its last '/'.  [mkdir] fails on an empty or existing path and when the
    parent is missing; [fopen] creates or truncates a file whose parent
    exists; a file grows up to [limit] bytes, beyond which [fwrite] writes
    short. *)
Module RamFS.

Record fs := Fs {
  dirs : list str;
  files : list (str * list byte);
  opened : list (handle * str);
  next : handle
}.

Definition empty : fs := Fs [] [] [] 3%nat.

Definition str_eqb (a b : str) : bool :=
  bool_decide (map Byte.to_N a = map Byte.to_N b).

Definition is_dir (w : fs) (p : str) : bool := existsb (str_eqb p) (dirs w).

Definition parent_ok (w : fs) (p : str) : bool :=
  match strrchr (p ++ [x00]) x2f with
  | Some i => is_dir w (take i p)
  | None => true
  end.

Fixpoint lookup_file (l : list (str * list byte)) (p : str)
  : option (list byte) :=
  match l with
  | [] => None
  | (q, c) :: l' => if str_eqb p q then Some c else lookup_file l' p
  end.

Fixpoint store_file (l : list (str * list byte)) (p : str) (c : list byte)
  : list (str * list byte) :=
  match l with
  | [] => [(p, c)]
  | (q, d) :: l' =>
      if str_eqb p q then (q, c) :: l' else (q, d) :: store_file l' p c
  end.

Fixpoint path_of (o : list (handle * str)) (h : handle) : option str :=
  match o with
  | [] => None
  | (h', p) :: o' => if (h =? h')%nat then Some p else path_of o' h
  end.

Definition contents (w : fs) (p : str) : option (list byte) :=
  lookup_file (files w) p.

Definition do_mkdir (p : str) (mode : Z) (w : fs) : Z * fs :=
  if str_eqb p [] || is_dir w p || bool_decide (is_Some (contents w p))
     || negb (parent_ok w p)
  then (-1, w)
  else (0, Fs (dirs w ++ [p]) (files w) (opened w) (next w)).

Definition do_fopen (p : str) (w : fs) : option handle * fs :=
  if str_eqb p [] || is_dir w p || negb (parent_ok w p)
  then (None, w)
  else (Some (next w),
        Fs (dirs w) (store_file (files w) p []) ((next w, p) :: opened w)
           (S (next w))).

Definition do_fwrite (limit : option nat) (h : handle) (data : list byte)
    (w : fs) : Z * fs :=
  match path_of (opened w) h with
  | None => (0, w)
  | Some p =>
      let old := default [] (contents w p) in
      let room := match limit with
                  | Some l => (l - length old)%nat
                  | None => length data
                  end in
      let new := take room data in
      (Z.of_nat (length new),
       Fs (dirs w) (store_file (files w) p (old ++ new)) (opened w) (next w))
  end.

Definition do_fclose (h : handle) (w : fs) : fs :=
  Fs (dirs w) (files w)
     (List.filter (fun hp => negb (fst hp =? h)%nat) (opened w)) (next w).

Definition libc (limit : option nat) : Libc fs :=
  {| libc_mkdir := do_mkdir;
     libc_fopen := do_fopen;
     libc_fwrite := do_fwrite limit;
     libc_fclose := do_fclose |}.

End RamFS.

(** ** Vocabulary of the specification *)

(** An octal digit character, '0'..'7'. *)
Definition octal_digit (b : byte) : Prop := 48 <= byte_val b <= 55.

(** A space or a NUL. *)
Definition blank (b : byte) : Prop := b = x20 \/ b = x00.

(** The standard base-8 value of a string of octal digits, most
    significant first. *)
Definition octal_step (acc : Z) (d : byte) : Z := 8 * acc + (byte_val d - 48).

Definition octal_value (ds : list byte) : Z := fold_left octal_step ds 0.

(** The sum of the bytes of [l], each taken as a number in 0..255. *)
Definition unsigned_sum (l : list byte) : Z :=
  foldr (fun b acc => byte_val b + acc) 0 l.

(** A block with its checksum field (offset 148, 8 bytes) replaced by
    spaces. *)
Definition blank_checksum (p : list byte) : list byte :=
  take 148 p ++ replicate 8 x20 ++ drop 156 p.

(** Every byte is below 0x80. *)
Definition seven_bit (l : list byte) : Prop :=
  Forall (fun b => byte_val b < 128) l.

(** A numeric field of a header as ustar producers write it: bytes that
    are no digits (spaces, as a rule), then octal digits, then either the
    end of the field or a terminator (NUL or space) and whatever follows
    it.  [numeric_field fld ds] says that the digits of [fld] are [ds]. *)
Definition numeric_field (fld ds : list byte) : Prop :=
  exists lead trail,
    fld = lead ++ ds ++ trail
    /\ Forall (fun b => ~ octal_digit b) lead
    /\ Forall octal_digit ds
    /\ (trail = [] \/ (ds <> [] /\ ~ octal_digit (idx trail 0))).

(** What one turn of the checksum loop adds for offset [k]. *)
Definition checksum_term (sgn : bool) (p : list byte) (k : nat) : Z :=
  if (k <? 148)%nat || (155 <? k)%nat then char_val sgn (idx p k) else 32.

(** [f n + f (n + 1) + ...], [todo] terms. *)
Fixpoint sum_terms (f : nat -> Z) (n todo : nat) : Z :=
  match todo with
  | O => 0
  | S todo' => f n + sum_terms f (n + 1) todo'
  end.

(** The number of 512-byte blocks that hold [filesize] bytes:
    ceil(filesize / 512). *)
Definition payload_blocks (filesize : Z) : nat :=
  Z.to_nat ((filesize + 511) / 512).

(** ** Reading a log *)

(** How many blocks were read off the stream. *)
Fixpoint reads (l : list event) : nat :=
  match l with
  | [] => O
  | Fread _ :: l' => S (reads l')
  | _ :: l' => reads l'
  end.

(** The bytes that reached the file behind [h], in order: of each
    [fwrite], as many as it reported written. *)
Fixpoint written (h : handle) (l : list event) : list byte :=
  match l with
  | [] => []
  | Fwrite h' data n :: l' =>
      if (h' =? h)%nat then take (Z.to_nat n) data ++ written h l'
      else written h l'
  | _ :: l' => written h l'
  end.

(** The calls that create something: [fopen]s and [mkdir]s. *)
Fixpoint creations (l : list event) : list event :=
  match l with
  | [] => []
  | Fopen p f :: l' => Fopen p f :: creations l'
  | Mkdir p mode r :: l' => Mkdir p mode r :: creations l'
  | _ :: l' => creations l'
  end.

(** The handles closed. *)
Fixpoint closed (l : list event) : list handle :=
  match l with
  | [] => []
  | Fclose h :: l' => h :: closed l'
  | _ :: l' => closed l'
  end.

(** The handles [fopen] returned. *)
Fixpoint opened (l : list event) : list handle :=
  match l with
  | [] => []
  | Fopen _ (Some h) :: l' => h :: opened l'
  | _ :: l' => opened l'
  end.

(** What a well-behaved run of the payload loop on a live handle logs:
    per block a read and a full write of the bytes that belong to the
    entry. *)
Fixpoint payload_events (h : handle) (blocks : nat) (payload : list byte)
  : list event :=
  match blocks with
  | O => []
  | S blocks' =>
      Fread 512
        :: Fwrite h (take 512 payload) (Z.of_nat (length (take 512 payload)))
        :: payload_events h blocks' (drop 512 payload)
  end.

(** The new [filesize] a turn of the payload loop leaves, if it goes on. *)
Definition remaining_after {W : Type}
    (r : result W (flow (Z * list byte * option handle))) : option Z :=
  match r with
  | Ok (Continue (filesize, _, _)) _ => Some filesize
  | _ => None
  end.

(** A name without its trailing '/', if it has one. *)
Definition strip_slash (s : str) : str :=
  match length s with
  | O => s
  | S last => if Byte.eqb (idx s last) x2f then take last s else s
  end.

(** A type flag other than '1'..'6': the entry is extracted as a regular
    file ('0' and NUL are the flags ustar gives one). *)
Definition regular_flag (b : byte) : Prop := ~ (49 <= byte_val b <= 54).

(** [m'] is [m] some calls later: the stream is where it was and the log
    has grown at its end. *)
Definition extends {W : Type} (m m' : machine W) : Prop :=
  input m' = input m /\ exists tl, log m' = log m ++ tl.

(** The checksum field holds, in octal digits, the unsigned sum of the
    block with that field taken as spaces. *)
Definition checksum_valid (hdr : list byte) : Prop :=
  exists ds,
    numeric_field (take 8 (drop 148 hdr)) ds
    /\ octal_value ds = unsigned_sum (blank_checksum hdr).

(** The size field (offset 124, 12 bytes) holds [size] in octal digits. *)
Definition declares_size (hdr : list byte) (size : Z) : Prop :=
  exists ds,
    numeric_field (take 12 (drop 124 hdr)) ds /\ octal_value ds = size.

(** The header of a well-formed archive member that is a regular file of
    [size] bytes. *)
Definition file_header (hdr : list byte) (size : Z) : Prop :=
  length hdr = 512%nat
  /\ checksum_valid hdr
  /\ regular_flag (idx hdr 156)
  /\ declares_size hdr size.

(** ** Concrete archives and buffers *)

Import Stdlib.Strings.String.StringSyntax.
Delimit Scope string_scope with string.

(** The bytes of a string literal. *)
Definition bytes (s : String.string) : str := String.list_byte_of_string s.
Arguments bytes s%_string.

Module Examples.

(** The display name of the archive. *)
Definition tar : str := bytes "t.tar".

Definition a_txt : str := bytes "a.txt".
Definition hello : list byte := bytes "hello".

(** The archive of spec section 8: "a.txt" holding "hello". *)
Definition hello_header : list byte := Ustar.header a_txt 420 5 x30.
Definition hello_archive : list byte := Ustar.single_file a_txt 420 hello.

(** The same archive cut off two bytes into the payload block. *)
Definition truncated_archive : list byte := hello_header ++ [x68; x65].

(** A directory "sub/" with a stray size of 7, then the end of the
    archive and one more byte. *)
Definition sub_header : list byte := Ustar.header (bytes "sub/") 493 7 x35.
Definition sub_archive : list byte := sub_header ++ Ustar.zero_block ++ [x01].

(** A file whose name fills the 100 bytes of its field. *)
Definition long_name : str := replicate 100 x61.
Definition long_name_header : list byte := Ustar.header long_name 420 0 x30.
Definition long_name_archive : list byte := long_name_header ++ Ustar.zero_block.

(** A file named by the two bytes of a UTF-8 e-acute. *)
Definition e_acute_header : list byte := Ustar.header [xc3; xa9] 420 0 x30.

(** A file of 2^31 zero bytes, 2 GiB. *)
Definition huge_size : Z := 2147483648.
Definition huge_header : list byte := Ustar.header (bytes "big") 420 huge_size x30.
Definition huge_payload : list byte := replicate (Z.to_nat huge_size) x00.
Definition huge_archive : list byte :=
  huge_header ++ Ustar.padded huge_payload ++ Ustar.zero_block.

(** A path buffer holding "a//b". *)
Definition a_slash_slash_b : list byte := bytes "a//b" ++ [x00].

(** The library with an empty file system and no limit on file sizes, and
    one whose files cannot grow past three bytes. *)
Definition roomy : Libc RamFS.fs := RamFS.libc None.
Definition cramped : Libc RamFS.fs := RamFS.libc (Some 3%nat).

(** The file system once "a.txt" has been opened in it. *)
Definition a_txt_open : RamFS.fs := snd (RamFS.do_fopen a_txt RamFS.empty).

End Examples.

(** ** Checkers for concrete headers *)

Definition octal_digitb (b : byte) : bool :=
  (48 <=? byte_val b) && (byte_val b <=? 55).

(** [fld] is [n] digits, [n > 0], followed by a byte that is no digit. *)
Definition digits_then_stop (fld : list byte) (n : nat) : bool :=
  forallb octal_digitb (take n fld)
  && negb (octal_digitb (idx (drop n fld) 0))
  && (0 <? length (take n fld))%nat.

Definition seven_bitb (l : list byte) : bool :=
  forallb (fun b => byte_val b <? 128) l.

(** The log a run ends with. *)
Definition log_of {W A : Type} (r : result W A) : list event :=
  match r with
  | Ok _ m => log m
  | Fault _ => []
  end.

(** The buffer with the trailing '/' of its string, if it has one,
    replaced by NUL. *)
Definition strip_buffer (s : list byte) : list byte :=
  match strlen s with
  | O => s
  | S last => if Byte.eqb (idx s last) x2f then <[last := x00]> s else s
  end.

(** The string in [s] has no two '/' in a row. *)
Definition no_double_slash (s : list byte) : Prop :=
  forall i, (S i < strlen s)%nat -> idx s i = x2f -> idx s (S i) <> x2f.

Module MoreExamples.

(** A path buffer holding "a/b/". *)
Definition a_b_slash : list byte := bytes "a/b/" ++ [x00].

(** The header of "a.txt" with the first byte of the name changed to 'b'
    and the checksum left as it was. *)
Definition hello_header_changed : list byte :=
  <[O := x62]> Examples.hello_header.

End MoreExamples.

(** ** More vocabulary: fields, checksums, calls *)

(** The digits [parseoct] is after in a field: what is left once the bytes
    in front that are no octal digits are dropped, up to the first byte
    that is no octal digit again. *)
Fixpoint skip_nondigits (l : list byte) : list byte :=
  match l with
  | [] => []
  | b :: l' => if octal_digitb b then l else skip_nondigits l'
  end.

Fixpoint leading_digits (l : list byte) : list byte :=
  match l with
  | [] => []
  | b :: l' => if octal_digitb b then b :: leading_digits l' else []
  end.

Definition first_digit_run (fld : list byte) : list byte :=
  leading_digits (skip_nondigits fld).

(** How many bytes of [l] are 0x80 or above. *)
Definition high_bytes (l : list byte) : nat :=
  length (List.filter (fun b => 128 <=? byte_val b) l).

(** The type flags of the entries [untar] passes over. *)
Definition ignored_flag (k : ignored) : byte :=
  match k with
  | Hardlink => x31
  | Symlink => x32
  | Chardev => x33
  | Blockdev => x34
  | Fifo => x36
  end.

(** A call of [mkdir], or the complaint of [create_dir]. *)
Definition mkdir_or_diag (e : event) : bool :=
  match e with
  | Mkdir _ _ _ => true
  | Say (Could_not_create_directory _) => true
  | _ => false
  end.

(** The modes of the [mkdir] calls of a log, in order. *)
Fixpoint mkdir_modes (l : list event) : list Z :=
  match l with
  | [] => []
  | Mkdir _ mode _ :: l' => mode :: mkdir_modes l'
  | _ :: l' => mkdir_modes l'
  end.

(** The path above [p]: what precedes its last '/', if it has one. *)
Definition dirname (p : str) : option str :=
  match strrchr (p ++ [x00]) x2f with
  | Some i => Some (take i p)
  | None => None
  end.

(** The calls of [mkdir] of a log, in order: the path and the mode of
    each. *)
Fixpoint mkdir_calls (l : list event) : list (str * Z) :=
  match l with
  | [] => []
  | Mkdir p mode _ :: l' => (p, mode) :: mkdir_calls l'
  | _ :: l' => mkdir_calls l'
  end.

(** Going up [k] levels from the path [p] and back: [p] with [mode],
    then the same from the path above it with 0755, then [p] with [mode]
    again.  With [k = 0], or once the path has no '/', it is [p] alone. *)
Fixpoint mkdir_attempts (k : nat) (p : str) (mode : Z) : list (str * Z) :=
  match k, dirname p with
  | S k', Some d => (p, mode) :: mkdir_attempts k' d 493 ++ [(p, mode)]
  | _, _ => [(p, mode)]
  end.

(** Reading a log for its use of output files, from a state where [cur]
    is the output open: [fopen] is called only with no output open, and
    leaves open what it returns; [fwrite] and [fclose] are called only on
    the output that is open; [fclose] leaves none open.  The result is the
    output open at the end, or [None] where the log breaks one of these
    rules. *)
Fixpoint follow (cur : option handle) (l : list event)
  : option (option handle) :=
  match l with
  | [] => Some cur
  | Fopen _ r :: l' =>
      match cur with
      | None => follow r l'
      | Some _ => None
      end
  | Fwrite h _ _ :: l' =>
      match cur with
      | Some h' => if (h =? h')%nat then follow cur l' else None
      | None => None
      end
  | Fclose h :: l' =>
      match cur with
      | Some h' => if (h =? h')%nat then follow None l' else None
      | None => None
      end
  | _ :: l' => follow cur l'
  end.

(** The files a log shows made: for each [fopen] that returned a handle,
    the name and the bytes that reached the handle (of each [fwrite], as
    many as it reported written) up to its [fclose], in the order of the
    [fclose] calls.  [cur] is the output open: its handle, its name and
    what it has been sent so far. *)
Fixpoint files_of (cur : option (handle * str * list byte)) (l : list event)
  : list (str * list byte) :=
  match l with
  | [] => []
  | Fopen p (Some h) :: l' => files_of (Some (h, p, [])) l'
  | Fwrite h d n :: l' =>
      match cur with
      | Some (h', p, acc) =>
          if (h =? h')%nat
          then files_of (Some (h', p, acc ++ take (Z.to_nat n) d)) l'
          else files_of cur l'
      | None => files_of cur l'
      end
  | Fclose h :: l' =>
      match cur with
      | Some (h', p, acc) =>
          if (h =? h')%nat then (p, acc) :: files_of None l'
          else files_of cur l'
      | None => files_of cur l'
      end
  | _ :: l' => files_of cur l'
  end.

(** An archive of regular files: for each, its header and its payload
    padded to the block; then the end-of-archive block. *)
Definition archive_of (entries : list (list byte * list byte)) : list byte :=
  flat_map (fun e => fst e ++ Ustar.padded (snd e)) entries
    ++ Ustar.zero_block.

(** A member [(header, payload)] that is a well-formed regular file below
    2 GiB, which the program can verify (its header is 7-bit where [char]
    is signed) and the library can open: [Idle w] holds of the states of
    the library with no output open, [Open h w] of those in which [h] is
    open. *)
Definition extractable {W : Type} `{Libc W} (sgn : bool) (Idle : W -> Prop)
    (Open : handle -> W -> Prop) (e : list byte * list byte) : Prop :=
  file_header (fst e) (Z.of_nat (length (snd e)))
  /\ Z.of_nat (length (snd e)) < 2 ^ 31
  /\ (sgn = false \/ seven_bit (fst e))
  /\ forall w, Idle w ->
       exists h, fst (libc_fopen (cstr (fst e)) w) = Some h
                 /\ Open h (snd (libc_fopen (cstr (fst e)) w)).

(** A checker for [no_double_slash] on concrete buffers. *)
Fixpoint no_double_slashb (s : list byte) : bool :=
  match s with
  | b :: s' =>
      if Byte.eqb b x00 then true
      else if Byte.eqb b x2f && Byte.eqb (idx s' 0) x2f then false
      else no_double_slashb s'
  | [] => true
  end.

Module Samples.

(** A symbolic link "l", a regular file "sub" of five bytes and a
    directory without a name. *)
Definition symlink_header : list byte := Ustar.header (bytes "l") 511 0 x32.
Definition sub_file_header : list byte := Ustar.header (bytes "sub") 420 5 x30.
Definition nameless_dir_header : list byte := Ustar.header [] 493 0 x35.

(** Path buffers holding "/x", "sub/" and "d/a.txt". *)
Definition root_x : list byte := bytes "/x" ++ [x00].
Definition sub_slash : list byte := bytes "sub/" ++ [x00].
Definition d_a_txt : list byte := bytes "d/a.txt" ++ [x00].

(** The empty file system once "sub" has been made a directory in it. *)
Definition sub_made : RamFS.fs :=
  snd (RamFS.do_mkdir (bytes "sub") 493 RamFS.empty).

(** A field of spaces, digits, a space and more digits. *)
Definition spaced_field : list byte := bytes " 12 34".

Definition double_slash_file_archive : list byte :=
  Ustar.single_file (bytes "a//b") 420 Examples.hello.
Definition a_is_a_file : RamFS.fs :=
  RamFS.Fs [] [(bytes "a", bytes "kept")] [] 3%nat.


(** A regular file "d/a.txt" of five bytes; and a directory "a/b/" of
    mode 0700 whose size field holds 7. *)
Definition nested_file_header : list byte :=
  Ustar.header (bytes "d/a.txt") 420 5 x30.
Definition nested_dir_header : list byte :=
  Ustar.header (bytes "a/b/") 448 7 x35.

(** Two regular files, "a.txt" holding "hello" and "b" holding nothing. *)
Definition b_header : list byte := Ustar.header (bytes "b") 420 0 x30.
Definition two_files : list (list byte * list byte) :=
  [(Examples.hello_header, Examples.hello); (b_header, [])].

End Samples.

(** ** main *)

(** The reading side of the library: [fopen(path, "r")] returns the
    stream and, with it, the bytes it is going to deliver, or [None] for
    [NULL].  The bytes of a stream are taken to be settled when it is
    opened: the archive is not written to while it is read. *)
Class Libc_read (W : Type) := {
  libc_fopen_read : str -> W -> option (handle * list byte) * W
}.

(** What [main] does, in order: its own calls and complaints, and between
    them what each call of [untar] does. *)
Inductive main_event :=
| Open_archive (path : str) (a : option handle)
| Unable_to_open (path : str)
| In_untar (e : event)
| Close_archive (a : handle).

(** How [main] ends: [return status], or on a fault of [untar]. *)
Inductive exit (W : Type) :=
| Exit (status : Z) (w : W) (l : list main_event)
| Crash (e : fault).
Arguments Exit {W} status w l.
Arguments Crash {W} e.

Section Main.

Context {W : Type} `{Libc W} `{Libc_read W}.
Variable char_signed : bool.

(** [for(i = 1; argc > i; i = i + 1)] over the arguments left, [args]. *)
Fixpoint main_loop (args : list str) (w : W) (l : list main_event)
  : exit W :=
  match args with
  | [] => Exit 0 w l
  | path :: args' =>
      let aw := libc_fopen_read path w in
      match fst aw with
      | None =>
          main_loop args' (snd aw)
            (l ++ [Open_archive path None; Unable_to_open path])
      | Some (a, stream) =>
          match untar char_signed stream path (snd aw) with
          | Ok _ m =>
              main_loop args' (libc_fclose a (world m))
                (l ++ Open_archive path (Some a)
                   :: map In_untar (log m) ++ [Close_archive a])
          | Fault e => Crash e
          end
      end
  end.

(** [main(argc, argv)], [argv] holding [argc] strings. *)
Definition main (argv : list str) (w : W) : exit W :=
  main_loop (drop 1 argv) w [].

End Main.

(** The archives a run of [main] has tried to open, in order. *)
Fixpoint archives_tried (l : list main_event) : list str :=
  match l with
  | [] => []
  | Open_archive path _ :: l' => path :: archives_tried l'
  | _ :: l' => archives_tried l'
  end.

(** The archives it has complained about. *)
Fixpoint complaints (l : list main_event) : list str :=
  match l with
  | [] => []
  | Unable_to_open path :: l' => path :: complaints l'
  | _ :: l' => complaints l'
  end.

(** What its calls of [untar] have done. *)
Fixpoint untar_events (l : list main_event) : list event :=
  match l with
  | [] => []
  | In_untar e :: l' => e :: untar_events l'
  | _ :: l' => untar_events l'
  end.

(** An argument of [main] and what it stands for: nothing the library can
    open ([None]), or an archive of extractable files and what follows
    its end-of-archive block. *)
Definition argument : Type :=
  str * option (list (list byte * list byte) * list byte).

Definition readable {W : Type} `{Libc W} `{Libc_read W} (sgn : bool)
    (Idle : W -> Prop) (Open : handle -> W -> Prop) (arg : argument)
  : Prop :=
  match snd arg with
  | None =>
      forall w, Idle w ->
        fst (libc_fopen_read (fst arg) w) = None
        /\ Idle (snd (libc_fopen_read (fst arg) w))
  | Some (entries, extra) =>
      Forall (extractable sgn Idle Open) entries
      /\ forall w, Idle w ->
           exists a,
             fst (libc_fopen_read (fst arg) w)
             = Some (a, archive_of entries ++ extra)
             /\ Idle (snd (libc_fopen_read (fst arg) w))
  end.

(** The files of an argument, by name. *)
Definition files_in (arg : argument) : list (str * list byte) :=
  match snd arg with
  | None => []
  | Some (entries, _) => map (fun e => (cstr (fst e), snd e)) entries
  end.

(** Reading from the file system in memory: a stream on a file delivers
    the contents the file has when it is opened. *)
Definition ramfs_fopen_read (p : str) (w : RamFS.fs)
  : option (handle * list byte) * RamFS.fs :=
  match RamFS.contents w p with
  | Some c =>
      (Some (RamFS.next w, c),
       RamFS.Fs (RamFS.dirs w) (RamFS.files w)
                ((RamFS.next w, p) :: RamFS.opened w) (S (RamFS.next w)))
  | None => (None, w)
  end.

Definition ramfs_read : Libc_read RamFS.fs :=
  {| libc_fopen_read := ramfs_fopen_read |}.

Module Disk.

(** A file system holding the archive "t.tar" of the two files above,
    and the command line [untar t.tar missing.tar]. *)
Definition t_tar : list byte := archive_of Samples.two_files ++ [x01].
Definition holding_t_tar : RamFS.fs :=
  RamFS.Fs [] [(Examples.tar, t_tar)] [] 3%nat.
Definition missing : str := bytes "missing.tar".
Definition command_line : list str := [bytes "untar"; Examples.tar; missing].
Definition arguments : list argument :=
  [(Examples.tar, Some (Samples.two_files, [x01])); (missing, None)].

End Disk.

Module DiskStates.

(** The states of that file system while the command runs: no directory
    has been made, "t.tar" holds the archive, "missing.tar" does not
    exist; and those in which [h] is open on one of the two files. *)
Definition idle (w : RamFS.fs) : Prop :=
  RamFS.dirs w = []
  /\ RamFS.contents w Examples.tar = Some Disk.t_tar
  /\ RamFS.contents w Disk.missing = None.

Definition open (h : handle) (w : RamFS.fs) : Prop :=
  idle w
  /\ exists p, RamFS.path_of (RamFS.opened w) h = Some p
               /\ (p = Examples.a_txt \/ p = bytes "b").

End DiskStates.

(** * Properties *)

(** ** Integers and characters *)

Lemma byte_val_range b : 0 <= byte_val b <= 255.
Proof.
  unfold byte_val. pose proof (Byte.to_N_bounded b). lia.
Qed.

Lemma byte_val_inj b c : byte_val b = byte_val c -> b = c.
Proof.
  unfold byte_val. intros E. apply N2Z.inj in E.
  pose proof (Byte.of_to_N b) as Hb. rewrite E, Byte.of_to_N in Hb.
  congruence.
Qed.

Lemma int_wrap_small z : - 2 ^ 31 <= z < 2 ^ 31 -> int_wrap z = z.
Proof.
  intros Hz. unfold int_wrap. rewrite Z.mod_small; lia.
Qed.

Lemma int_wrap_range z : - 2 ^ 31 <= int_wrap z < 2 ^ 31.
Proof.
  unfold int_wrap. pose proof (Z.mod_pos_bound (z + 2 ^ 31) (2 ^ 32)). lia.
Qed.

Lemma int_wrap_add_l a b : int_wrap (int_wrap a + b) = int_wrap (a + b).
Proof.
  unfold int_wrap.
  replace ((a + 2 ^ 31) mod 2 ^ 32 - 2 ^ 31 + b + 2 ^ 31)
    with ((a + 2 ^ 31) mod 2 ^ 32 + b) by lia.
  rewrite Zplus_mod_idemp_l. f_equal. f_equal. lia.
Qed.

Lemma int_wrap_uint_wrap z : int_wrap (uint_wrap z) = int_wrap z.
Proof.
  unfold int_wrap, uint_wrap. rewrite Zplus_mod_idemp_l. reflexivity.
Qed.

Lemma uint_wrap_add a b :
  uint_wrap (uint_wrap a + uint_wrap b) = uint_wrap (a + b).
Proof.
  unfold uint_wrap. rewrite <- Zplus_mod. reflexivity.
Qed.

(** Whether a character is an octal digit does not depend on the
    signedness of [char], and a digit's value is its byte. *)
Lemma char_val_digit sgn b :
  (48 <=? char_val sgn b) && (char_val sgn b <=? 55)
  = (48 <=? byte_val b) && (byte_val b <=? 55).
Proof.
  unfold char_val. pose proof (byte_val_range b).
  destruct sgn; simpl; [|reflexivity].
  destruct (128 <=? byte_val b) eqn:E; [|reflexivity].
  apply Z.leb_le in E.
  replace (48 <=? byte_val b - 256) with false by (symmetry; apply Z.leb_gt; lia).
  replace (byte_val b <=? 55) with false by (symmetry; apply Z.leb_gt; lia).
  rewrite andb_false_r. reflexivity.
Qed.

Lemma char_val_nondigit sgn b :
  (char_val sgn b <? 48) || (55 <? char_val sgn b)
  = negb ((48 <=? byte_val b) && (byte_val b <=? 55)).
Proof.
  rewrite <- (char_val_digit sgn).
  rewrite negb_andb, Z.leb_antisym, Z.leb_antisym, !negb_involutive.
  reflexivity.
Qed.

Lemma char_val_of_digit sgn b : octal_digit b -> char_val sgn b = byte_val b.
Proof.
  unfold octal_digit, char_val. intros Hb.
  replace (128 <=? byte_val b) with false by (symmetry; apply Z.leb_gt; lia).
  rewrite andb_false_r. reflexivity.
Qed.

Lemma char_val_seven_bit sgn b : byte_val b < 128 -> char_val sgn b = byte_val b.
Proof.
  unfold char_val. intros Hb.
  replace (128 <=? byte_val b) with false by (symmetry; apply Z.leb_gt; lia).
  rewrite andb_false_r. reflexivity.
Qed.

Lemma char_val_inj sgn b c : char_val sgn b = char_val sgn c -> b = c.
Proof.
  unfold char_val. pose proof (byte_val_range b). pose proof (byte_val_range c).
  intros E. apply byte_val_inj.
  destruct sgn; simpl in E; [|exact E].
  destruct (128 <=? byte_val b) eqn:Eb, (128 <=? byte_val c) eqn:Ec;
    try apply Z.leb_le in Eb; try apply Z.leb_le in Ec;
    try apply Z.leb_gt in Eb; try apply Z.leb_gt in Ec; lia.
Qed.

Lemma char_val_zero sgn b : (char_val sgn b =? 0) = Byte.eqb b x00.
Proof.
  destruct (Byte.eqb b x00) eqn:E.
  - apply Byte.byte_dec_bl in E. subst b. destruct sgn; reflexivity.
  - apply Z.eqb_neq. intros Hz.
    assert (b = x00) as ->.
    { apply (char_val_inj sgn). rewrite Hz. destruct sgn; reflexivity. }
    discriminate.
Qed.

(** ** parseoct *)

Lemma int_wrap_congr a b k : a = b + k * 2 ^ 32 -> int_wrap a = int_wrap b.
Proof.
  intros ->. unfold int_wrap.
  replace (b + k * 2 ^ 32 + 2 ^ 31) with (b + 2 ^ 31 + k * 2 ^ 32) by lia.
  rewrite Z_mod_plus_full. reflexivity.
Qed.

Lemma int_wrap_spec z : exists k, int_wrap z = z + k * 2 ^ 32.
Proof.
  exists (- ((z + 2 ^ 31) / 2 ^ 32)). unfold int_wrap.
  pose proof (Z_div_mod_eq_full (z + 2 ^ 31) (2 ^ 32)). lia.
Qed.

Lemma octal_digit_dec b :
  (48 <=? byte_val b) && (byte_val b <=? 55) = true <-> octal_digit b.
Proof.
  unfold octal_digit. rewrite andb_true_iff, !Z.leb_le. tauto.
Qed.

Lemma octal_digit_dec_false b :
  (48 <=? byte_val b) && (byte_val b <=? 55) = false <-> ~ octal_digit b.
Proof.
  rewrite <- octal_digit_dec. destruct (_ && _); split; congruence.
Qed.

(** The first loop passes over bytes that are no digits. *)
Lemma parseoct_skip_lead sgn lead q k :
  Forall (fun b => ~ octal_digit b) lead ->
  parseoct_skip sgn (lead ++ q) (length lead + k) = parseoct_skip sgn q k.
Proof.
  induction 1 as [|b lead Hb _ IH]; [reflexivity|].
  cbn [length Nat.add app parseoct_skip idx nth].
  rewrite char_val_nondigit.
  apply octal_digit_dec_false in Hb. rewrite Hb. cbn [negb drop].
  exact IH.
Qed.

(** It stops at a digit. *)
Lemma parseoct_skip_digit sgn b q k :
  octal_digit b -> parseoct_skip sgn (b :: q) k = (b :: q, k).
Proof.
  intros Hb. destruct k; [reflexivity|].
  cbn [parseoct_skip idx nth]. rewrite char_val_nondigit.
  apply octal_digit_dec in Hb. rewrite Hb. reflexivity.
Qed.

Lemma octal_fold_affine ds a :
  fold_left octal_step ds a = 8 ^ Z.of_nat (length ds) * a + octal_value ds.
Proof.
  unfold octal_value.
  revert a. induction ds as [|d ds IH]; intros a.
  - cbn. lia.
  - cbn [fold_left length]. rewrite IH, (IH (octal_step 0 d)).
    rewrite Nat2Z.inj_succ, Z.pow_succ_r by lia.
    unfold octal_step. lia.
Qed.

Lemma int_wrap_fold ds x :
  int_wrap (fold_left octal_step ds (int_wrap x))
  = int_wrap (fold_left octal_step ds x).
Proof.
  rewrite !octal_fold_affine.
  destruct (int_wrap_spec x) as [k ->].
  apply (int_wrap_congr _ _ (8 ^ Z.of_nat (length ds) * k)). lia.
Qed.

(** The second loop over digits [ds], stopped by the length or by a byte
    that is no digit. *)
Lemma parseoct_digits_run sgn ds q k i :
  Forall octal_digit ds ->
  k = O \/ ~ octal_digit (idx q 0) ->
  int_wrap i = i ->
  parseoct_digits sgn i (ds ++ q) (length ds + k)
  = int_wrap (fold_left octal_step ds i).
Proof.
  intros Hds Hstop. revert i.
  induction Hds as [|d ds Hd _ IH]; intros i Hi.
  - cbn [app length Nat.add fold_left]. rewrite Hi.
    destruct k; [reflexivity|].
    destruct Hstop as [|Hq]; [discriminate|].
    cbn [parseoct_digits]. rewrite char_val_digit.
    apply octal_digit_dec_false in Hq. rewrite Hq. reflexivity.
  - cbn [app length Nat.add parseoct_digits idx nth fold_left drop].
    rewrite char_val_digit.
    pose proof Hd as Hd'. apply octal_digit_dec in Hd'. rewrite Hd'.
    rewrite (char_val_of_digit sgn d Hd).
    rewrite Z.shiftl_mul_pow2 by lia.
    rewrite int_wrap_add_l.
    replace (int_wrap (i * 2 ^ 3 + byte_val d) - 48)
      with (int_wrap (i * 2 ^ 3 + byte_val d) + - 48) by lia.
    rewrite int_wrap_add_l.
    rewrite IH.
    + replace (i * 2 ^ 3 + byte_val d + - 48) with (octal_step i d)
        by (unfold octal_step; lia).
      apply int_wrap_fold.
    + apply int_wrap_small, int_wrap_range.
Qed.

(** [parseoct] on a numeric field: the value of its digits, wrapped to an
    [int]. *)
Lemma parseoct_numeric_field sgn fld ds rest :
  numeric_field fld ds ->
  parseoct sgn (fld ++ rest) (length fld) = int_wrap (octal_value ds).
Proof.
  intros (lead & trail & -> & Hlead & Hds & Htrail).
  unfold parseoct.
  rewrite <- !app_assoc, !length_app.
  rewrite parseoct_skip_lead by assumption.
  assert (parseoct_skip sgn (ds ++ trail ++ rest) (length ds + length trail)
          = (ds ++ trail ++ rest, (length ds + length trail)%nat)) as ->.
  { destruct Hds as [|d ds Hd Hds].
    - destruct Htrail as [->|[[] _]]; reflexivity.
    - apply parseoct_skip_digit, Hd. }
  unfold octal_value.
  destruct Htrail as [->|[_ Hq]].
  - rewrite app_nil_l.
    apply parseoct_digits_run; [assumption|now left|reflexivity].
  - replace (ds ++ trail ++ rest) with (ds ++ (trail ++ rest)) by reflexivity.
    destruct trail as [|t trail].
    + rewrite app_nil_l.
      apply parseoct_digits_run; [assumption|now left|reflexivity].
    + apply parseoct_digits_run; [assumption|now right|reflexivity].
Qed.

Lemma octal_value_bound ds :
  Forall octal_digit ds -> 0 <= octal_value ds < 8 ^ Z.of_nat (length ds).
Proof.
  unfold octal_value.
  induction ds as [|d ds IH] using rev_ind; intros Hds.
  - cbn. lia.
  - apply Forall_app in Hds as [Hds Hd]. apply Forall_inv in Hd.
    rewrite fold_left_app, length_app. cbn [fold_left length].
    specialize (IH Hds). unfold octal_digit in Hd.
    replace (Z.of_nat (length ds + 1)) with (Z.succ (Z.of_nat (length ds))) by lia.
    rewrite Z.pow_succ_r by lia.
    set (v := fold_left octal_step ds 0) in *.
    set (e := 8 ^ Z.of_nat (length ds)) in *.
    unfold octal_step. lia.
Qed.

(** C4 (amended).  For a field of octal digits whose base-8 value is below
    2^31, [parseoct] returns that value, whatever follows the field; for
    any field of octal digits it returns the value wrapped to a 32-bit
    [int]; for a field of spaces and NULs it returns 0. *)
Theorem parseoct_octal_digits sgn fld rest :
  (Forall octal_digit fld -> octal_value fld < 2 ^ 31 ->
   parseoct sgn (fld ++ rest) (length fld) = octal_value fld)
  /\ (Forall octal_digit fld ->
      parseoct sgn (fld ++ rest) (length fld) = int_wrap (octal_value fld))
  /\ (Forall blank fld -> parseoct sgn (fld ++ rest) (length fld) = 0).
Proof.
  assert (Hdigits : Forall octal_digit fld ->
            parseoct sgn (fld ++ rest) (length fld)
            = int_wrap (octal_value fld)).
  { intros Hfld. apply parseoct_numeric_field.
    exists [], []. rewrite app_nil_r. repeat split; auto. }
  split; [|split].
  - intros Hfld Hlt. rewrite Hdigits by assumption.
    apply int_wrap_small. pose proof (octal_value_bound fld Hfld). lia.
  - exact Hdigits.
  - intros Hfld.
    rewrite (parseoct_numeric_field sgn fld [] rest); [reflexivity|].
    exists fld, []. rewrite app_nil_r. repeat split; auto.
    eapply Forall_impl; [exact Hfld|].
    intros b [-> | ->]; unfold octal_digit; vm_compute; intros [H1 H2]; congruence.
Qed.

Lemma parseoct_octal_digits_witness :
  parseoct true ([x36; x34; x34] ++ [x00]) (length [x36; x34; x34])
  = octal_value [x36; x34; x34]
  /\ parseoct true ([x20; x00; x20] ++ [x31]) (length [x20; x00; x20]) = 0.
Proof.
  split.
  - apply (proj1 (parseoct_octal_digits true [x36; x34; x34] [x00])).
    + repeat constructor; vm_compute; congruence.
    + vm_compute. reflexivity.
  - apply (proj2 (proj2 (parseoct_octal_digits true [x20; x00; x20] [x31]))).
    repeat (apply Forall_cons_2; [unfold blank; auto|]). apply Forall_nil_2.
Defined.

(** C4 as stated fails: twelve digits '7' (a size field may hold twelve)
    have the base-8 value 8^12 - 1, and [parseoct] returns -1, under either
    signedness of [char]. *)
Lemma parseoct_twelve_sevens :
  Forall octal_digit (replicate 12 x37)
  /\ octal_value (replicate 12 x37) = 68719476735
  /\ parseoct true (replicate 12 x37) 12 = -1
  /\ parseoct false (replicate 12 x37) 12 = -1.
Proof.
  split; [|vm_compute; auto].
  repeat constructor; vm_compute; congruence.
Qed.

(** ** verify_checksum *)

Lemma sum_terms_ext f g n todo :
  (forall k, (n <= k < n + todo)%nat -> f k = g k) ->
  sum_terms f n todo = sum_terms g n todo.
Proof.
  revert n. induction todo as [|todo IH]; intros n Hfg; [reflexivity|].
  cbn [sum_terms]. rewrite Hfg by lia. f_equal. apply IH.
  intros k Hk. apply Hfg. lia.
Qed.

(** Two summands that differ at one offset only. *)
Lemma sum_terms_one_change f g n todo i :
  (n <= i < n + todo)%nat ->
  (forall k, k <> i -> f k = g k) ->
  sum_terms g n todo = sum_terms f n todo + (g i - f i).
Proof.
  revert n. induction todo as [|todo IH]; intros n Hi Hfg; [lia|].
  cbn [sum_terms].
  destruct (decide (n = i)) as [->|Hne].
  - rewrite (sum_terms_ext g f (i + 1) todo); [lia|].
    intros k Hk. symmetry. apply Hfg. lia.
  - rewrite (IH (n + 1)%nat) by (auto; lia). rewrite (Hfg n) by assumption. lia.
Qed.

Lemma drop_cons_idx (q : list byte) n b q' :
  drop n q = b :: q' -> idx q n = b /\ drop (n + 1) q = q'.
Proof.
  revert q. induction n as [|n IH]; intros q E.
  - rewrite drop_0 in E. subst q. split; reflexivity.
  - destruct q as [|c q]; [discriminate|]. rewrite skipn_cons in E.
    destruct (IH q E) as [H1 H2]. split; assumption.
Qed.

Lemma sum_terms_bytes q n todo :
  (n + todo <= length q)%nat ->
  sum_terms (fun k => byte_val (idx q k)) n todo
  = unsigned_sum (take todo (drop n q)).
Proof.
  revert n. induction todo as [|todo IH]; intros n Hn; [reflexivity|].
  cbn [sum_terms]. rewrite IH by lia.
  destruct (drop n q) as [|b q'] eqn:E.
  { apply (f_equal length) in E. rewrite length_drop in E. cbn in E. lia. }
  destruct (drop_cons_idx q n b q' E) as [-> ->].
  reflexivity.
Qed.

Lemma checksum_term_range sgn p k : - 255 <= checksum_term sgn p k <= 255.
Proof.
  unfold checksum_term, char_val.
  pose proof (byte_val_range (idx p k)).
  destruct (_ || _); [|lia].
  destruct (sgn && _) eqn:E; [|lia].
  apply andb_true_iff in E as [_ E]. apply Z.leb_le in E. lia.
Qed.

(** The loop adds up its terms; the sums are far from the limits of [int]. *)
Lemma checksum_loop_sum sgn p n todo u :
  - 2 ^ 30 <= u - 255 * Z.of_nat todo ->
  u + 255 * Z.of_nat todo <= 2 ^ 30 ->
  checksum_loop sgn p n todo u = u + sum_terms (checksum_term sgn p) n todo.
Proof.
  revert n u. induction todo as [|todo IH]; intros n u Hlo Hhi.
  - cbn. lia.
  - cbn [checksum_loop sum_terms].
    pose proof (checksum_term_range sgn p n) as Ht.
    assert ((if (n <? 148)%nat || (155 <? n)%nat
             then int_wrap (uint_wrap (uint_wrap u
                    + uint_wrap (char_val sgn (idx p n))))
             else int_wrap (u + 32)) = u + checksum_term sgn p n) as ->.
    { unfold checksum_term in *. destruct (_ || _).
      - rewrite uint_wrap_add, int_wrap_uint_wrap. apply int_wrap_small. lia.
      - apply int_wrap_small. lia. }
    rewrite IH by lia. lia.
Qed.

Lemma checksum_loop_512 sgn p :
  checksum_loop sgn p 0 512 0 = sum_terms (checksum_term sgn p) 0 512.
Proof.
  rewrite checksum_loop_sum; [apply Z.add_0_l|..];
    change (Z.of_nat 512) with 512; lia.
Qed.

Lemma verify_checksum_eq sgn p :
  verify_checksum sgn p
  = (sum_terms (checksum_term sgn p) 0 512 =? parseoct sgn (drop 148 p) 8).
Proof. unfold verify_checksum. rewrite checksum_loop_512. reflexivity. Qed.

Lemma idx_lookup (l : list byte) i : idx l i = default x00 (l !! i).
Proof. apply nth_lookup. Qed.

Lemma idx_app_l (l k : list byte) i :
  (i < length l)%nat -> idx (l ++ k) i = idx l i.
Proof. intros Hi. rewrite !idx_lookup, lookup_app_l by assumption. reflexivity. Qed.

Lemma idx_app_r (l k : list byte) i :
  (length l <= i)%nat -> idx (l ++ k) i = idx k (i - length l).
Proof. intros Hi. rewrite !idx_lookup, lookup_app_r by assumption. reflexivity. Qed.

Lemma idx_take (l : list byte) n i : (i < n)%nat -> idx (take n l) i = idx l i.
Proof. intros Hi. rewrite !idx_lookup, lookup_take_lt by assumption. reflexivity. Qed.

Lemma idx_drop (l : list byte) n i : idx (drop n l) i = idx l (n + i).
Proof. rewrite !idx_lookup, lookup_drop. reflexivity. Qed.

Lemma idx_replicate n (b : byte) i : (i < n)%nat -> idx (replicate n b) i = b.
Proof. intros Hi. rewrite idx_lookup, lookup_replicate_2 by assumption. reflexivity. Qed.

Lemma idx_insert_eq (l : list byte) i b :
  (i < length l)%nat -> idx (<[i := b]> l) i = b.
Proof. intros Hi. rewrite idx_lookup, list_lookup_insert_eq by assumption. reflexivity. Qed.

Lemma idx_insert_ne (l : list byte) i j b :
  i <> j -> idx (<[i := b]> l) j = idx l j.
Proof. intros Hi. rewrite !idx_lookup, list_lookup_insert_ne by assumption. reflexivity. Qed.

(** The bytes of a block with its checksum field blanked. *)
Lemma idx_blank_checksum p k :
  (512 <= length p)%nat -> (k < 512)%nat ->
  idx (blank_checksum (take 512 p)) k
  = if (k <? 148)%nat || (155 <? k)%nat then idx p k else x20.
Proof.
  intros Hp Hk. unfold blank_checksum.
  rewrite take_take. replace (148 `min` 512)%nat with 148%nat by lia.
  destruct (k <? 148)%nat eqn:E1; cbn [orb].
  { apply Nat.ltb_lt in E1.
    rewrite idx_app_l by (rewrite length_take; lia).
    apply idx_take. assumption. }
  apply Nat.ltb_ge in E1.
  rewrite idx_app_r by (rewrite length_take; lia).
  rewrite length_take. replace (148 `min` length p)%nat with 148%nat by lia.
  destruct (155 <? k)%nat eqn:E2.
  - apply Nat.ltb_lt in E2.
    rewrite idx_app_r by (rewrite length_replicate; lia).
    rewrite length_replicate, idx_drop, idx_take by lia.
    f_equal. lia.
  - apply Nat.ltb_ge in E2.
    rewrite idx_app_l by (rewrite length_replicate; lia).
    apply idx_replicate. lia.
Qed.

Lemma length_blank_checksum p :
  (512 <= length p)%nat -> length (blank_checksum (take 512 p)) = 512%nat.
Proof.
  intros Hp. unfold blank_checksum.
  rewrite !length_app, length_replicate, length_drop, !length_take. lia.
Qed.

Lemma seven_bit_idx l k : seven_bit l -> byte_val (idx l k) < 128.
Proof.
  intros Hl. rewrite idx_lookup.
  destruct (l !! k) as [b|] eqn:E; [|vm_compute; reflexivity].
  cbn. eapply Forall_lookup_1 in Hl; [exact Hl|exact E].
Qed.

(** When [char] is unsigned, and on a block of 7-bit bytes under either
    signedness, the loop computes the checksum of the ustar format. *)
Lemma checksum_loop_unsigned_sum sgn p :
  (512 <= length p)%nat ->
  sgn = false \/ seven_bit (take 512 p) ->
  checksum_loop sgn p 0 512 0 = unsigned_sum (blank_checksum (take 512 p)).
Proof.
  intros Hp Hsgn. rewrite checksum_loop_512.
  rewrite <- (firstn_all (blank_checksum (take 512 p))).
  rewrite length_blank_checksum by assumption.
  rewrite <- (drop_0 (blank_checksum (take 512 p))).
  rewrite <- sum_terms_bytes by (rewrite length_blank_checksum; auto).
  apply sum_terms_ext. intros k Hk.
  rewrite idx_blank_checksum by lia. unfold checksum_term.
  destruct (_ || _); [|reflexivity].
  destruct Hsgn as [->|H7]; [reflexivity|].
  apply char_val_seven_bit.
  rewrite <- (idx_take p 512 k) by lia. apply seven_bit_idx, H7.
Qed.

(** The checksum validator where [char] is unsigned: true exactly when the
    number parsed from the checksum field is the unsigned sum of the block
    with that field taken as eight spaces. *)
Theorem verify_checksum_unsigned p :
  (512 <= length p)%nat ->
  verify_checksum false p = true
  <-> parseoct false (drop 148 p) 8
      = unsigned_sum (blank_checksum (take 512 p)).
Proof.
  intros Hp. unfold verify_checksum.
  rewrite checksum_loop_unsigned_sum by auto.
  rewrite Z.eqb_eq. split; congruence.
Qed.

(** The same on a block of 7-bit bytes, whatever the signedness. *)
Theorem verify_checksum_seven_bit sgn p :
  (512 <= length p)%nat ->
  seven_bit (take 512 p) ->
  verify_checksum sgn p = true
  <-> parseoct sgn (drop 148 p) 8
      = unsigned_sum (blank_checksum (take 512 p)).
Proof.
  intros Hp H7. unfold verify_checksum.
  rewrite checksum_loop_unsigned_sum by auto.
  rewrite Z.eqb_eq. split; congruence.
Qed.

(** [parseoct p n] depends on [p[0]], ..., [p[n-1]] only. *)
Lemma parseoct_skip_ext sgn p q n :
  (forall j, (j < n)%nat -> idx p j = idx q j) ->
  exists k,
    (forall j, (j < k)%nat ->
       idx (fst (parseoct_skip sgn p n)) j = idx (fst (parseoct_skip sgn q n)) j)
    /\ snd (parseoct_skip sgn p n) = k /\ snd (parseoct_skip sgn q n) = k.
Proof.
  revert p q. induction n as [|n IH]; intros p q E.
  - exists O. cbn. repeat split; auto; intros; lia.
  - cbn [parseoct_skip]. rewrite (E O) by lia.
    destruct (_ || _).
    + apply IH. intros j Hj. rewrite !idx_drop. apply E. lia.
    + exists (S n). cbn [fst snd]. auto.
Qed.

Lemma parseoct_digits_ext sgn i p q n :
  (forall j, (j < n)%nat -> idx p j = idx q j) ->
  parseoct_digits sgn i p n = parseoct_digits sgn i q n.
Proof.
  revert i p q. induction n as [|n IH]; intros i p q E; [reflexivity|].
  cbn [parseoct_digits]. rewrite (E O) by lia.
  destruct (_ && _); [|reflexivity].
  apply IH. intros j Hj. rewrite !idx_drop. apply E. lia.
Qed.

Lemma parseoct_ext sgn p q n :
  (forall j, (j < n)%nat -> idx p j = idx q j) ->
  parseoct sgn p n = parseoct sgn q n.
Proof.
  intros E. unfold parseoct.
  destruct (parseoct_skip_ext sgn p q n E) as (k & H1 & H2 & H3).
  destruct (parseoct_skip sgn p n) as [p' n1], (parseoct_skip sgn q n) as [q' n2].
  cbn [fst snd] in *. subst n1 n2.
  apply parseoct_digits_ext. assumption.
Qed.

Lemma parseoct_prefix sgn p q n :
  take n p = take n q -> parseoct sgn p n = parseoct sgn q n.
Proof.
  intros E. apply parseoct_ext. intros j Hj.
  rewrite <- (idx_take p n j), <- (idx_take q n j), E by assumption.
  reflexivity.
Qed.

(** Changing one byte outside the checksum field of a block that
    verifies, and leaving the stored checksum alone, makes the check fail:
    under either signedness of [char]. *)
Theorem verify_checksum_detects_change sgn p i b :
  verify_checksum sgn p = true ->
  (i < 512)%nat -> (i < length p)%nat ->
  ~ (148 <= i < 156)%nat ->
  b <> idx p i ->
  verify_checksum sgn (<[i := b]> p) = false.
Proof.
  rewrite !verify_checksum_eq. intros Hv Hi Hlen Hout Hb.
  apply Z.eqb_eq in Hv. apply Z.eqb_neq.
  assert (parseoct sgn (drop 148 (<[i := b]> p)) 8
          = parseoct sgn (drop 148 p) 8) as ->.
  { apply parseoct_prefix.
    destruct (decide (i < 148)%nat).
    - rewrite drop_insert_lt by lia. reflexivity.
    - rewrite drop_insert_ge by lia. rewrite take_insert_ge by lia. reflexivity. }
  rewrite (sum_terms_one_change (checksum_term sgn p) _ 0 512 i) by
    (try lia; intros k Hk; unfold checksum_term;
     rewrite idx_insert_ne by congruence; reflexivity).
  rewrite <- Hv.
  assert (checksum_term sgn (<[i := b]> p) i <> checksum_term sgn p i); [|lia].
  unfold checksum_term.
  replace ((i <? 148)%nat || (155 <? i)%nat) with true.
  2:{ symmetry. apply orb_true_iff. rewrite Nat.ltb_lt, Nat.ltb_lt. lia. }
  rewrite idx_insert_eq by assumption.
  intros E. apply char_val_inj in E. contradiction.
Qed.

(** ** The blocks of a header seen through the 514-byte buffer *)

Lemma parseoct_field_of_block sgn (hdr extra : list byte) off n :
  (off + n <= length hdr)%nat ->
  parseoct sgn (drop off (hdr ++ extra)) n = parseoct sgn (drop off hdr) n.
Proof.
  intros Hn. apply parseoct_prefix.
  rewrite drop_app_le by lia. rewrite take_app_le; [reflexivity|].
  rewrite length_drop. lia.
Qed.

Lemma checksum_term_app sgn (hdr extra : list byte) k :
  (k < length hdr)%nat ->
  checksum_term sgn (hdr ++ extra) k = checksum_term sgn hdr k.
Proof.
  intros Hk. unfold checksum_term. rewrite idx_app_l by assumption. reflexivity.
Qed.

Lemma verify_checksum_app sgn (hdr extra : list byte) :
  length hdr = 512%nat ->
  verify_checksum sgn (hdr ++ extra) = verify_checksum sgn hdr.
Proof.
  intros Hlen. rewrite !verify_checksum_eq, parseoct_field_of_block by lia.
  f_equal. apply sum_terms_ext. intros k Hk. apply checksum_term_app. lia.
Qed.

Lemma is_end_of_archive_from_spec sgn p n :
  is_end_of_archive_from sgn p n = true
  <-> forall k, (k <= n)%nat -> idx p k = x00.
Proof.
  induction n as [|n IH]; cbn [is_end_of_archive_from];
    rewrite char_val_zero;
    destruct (Byte.eqb (idx p _) x00) eqn:E; cbn [negb].
  - apply Byte.byte_dec_bl in E. split; [|reflexivity].
    intros _ k Hk. replace k with O by lia. exact E.
  - split; [discriminate|]. intros Hk. rewrite (Hk O) in E by lia. discriminate.
  - apply Byte.byte_dec_bl in E. rewrite IH. split.
    + intros Hk k Hle. destruct (decide (k = S n)) as [->|]; [exact E|].
      apply Hk. lia.
    + intros Hk k Hle. apply Hk. lia.
  - split; [discriminate|]. intros Hk. rewrite (Hk (S n)) in E by lia. discriminate.
Qed.

Lemma is_end_of_archive_app sgn (hdr extra : list byte) :
  length hdr = 512%nat ->
  is_end_of_archive sgn (hdr ++ extra) = is_end_of_archive sgn hdr.
Proof.
  intros Hlen. unfold is_end_of_archive.
  apply eq_true_iff_eq. rewrite !is_end_of_archive_from_spec.
  split; intros Hk k Hle; specialize (Hk k Hle);
    rewrite idx_app_l in * by lia; assumption.
Qed.

Lemma is_end_of_archive_zeros sgn extra :
  is_end_of_archive sgn (replicate 512 x00 ++ extra) = true.
Proof.
  apply is_end_of_archive_from_spec. intros k Hk.
  rewrite idx_app_l by (rewrite length_replicate; lia).
  apply idx_replicate. lia.
Qed.

Lemma blank_block_sum :
  sum_terms (fun k => if (k <? 148)%nat || (155 <? k)%nat then 0 else 32)
            0 512 = 256.
Proof. vm_compute. reflexivity. Qed.

Lemma parseoct_zeros sgn : parseoct sgn (replicate 8 x00) 8 = 0.
Proof. destruct sgn; vm_compute; reflexivity. Qed.

Lemma is_end_of_archive_spec sgn p :
  is_end_of_archive sgn p = true -> forall k, (k <= 511)%nat -> idx p k = x00.
Proof.
  intros E. unfold is_end_of_archive in E.
  rewrite is_end_of_archive_from_spec in E. exact E.
Qed.

Lemma zero_block_sum sgn p :
  (forall k, (k <= 511)%nat -> idx p k = x00) ->
  sum_terms (checksum_term sgn p) 0 512 = 256.
Proof.
  intros E.
  rewrite (sum_terms_ext _ (fun k => if (k <? 148)%nat || (155 <? k)%nat
                                     then 0 else 32)).
  2:{ intros k Hk. unfold checksum_term. rewrite E by lia.
      destruct (_ || _); [destruct sgn|]; reflexivity. }
  apply blank_block_sum.
Qed.

Lemma zero_block_field sgn p :
  (forall k, (k <= 511)%nat -> idx p k = x00) ->
  parseoct sgn (drop 148 p) 8 = 0.
Proof.
  intros E. rewrite <- (parseoct_zeros sgn).
  apply parseoct_ext. intros j Hj.
  rewrite idx_drop, idx_replicate by assumption. apply E. lia.
Qed.

(** A block whose checksum verifies is not the end-of-archive block: the
    eight spaces alone add up to 256, and a field of NULs parses to 0. *)
Lemma verify_checksum_not_end sgn p :
  verify_checksum sgn p = true -> is_end_of_archive sgn p = false.
Proof.
  intros Hv. destruct (is_end_of_archive sgn p) eqn:E; [|reflexivity].
  exfalso. pose proof (is_end_of_archive_spec sgn p E) as Hz.
  rewrite verify_checksum_eq, (zero_block_sum sgn p Hz),
    (zero_block_field sgn p Hz) in Hv.
  discriminate.
Qed.

(** ** Running the machine *)

(** Case analysis on the condition of the first [if] of the goal. *)
Ltac case_if :=
  match goal with
  | |- context [if ?c then _ else _] => destruct c eqn:?
  end.

Section Runs.

Context {W : Type} `{Libc W}.
Variable sgn : bool.

Lemma fread_app (blk rest : list byte) n (w : W) l :
  length blk = n ->
  fread n (Machine (blk ++ rest) w l)
  = Ok blk (Machine rest w (l ++ [Fread n])).
Proof.
  intros Hn. unfold fread. cbn [input world log].
  rewrite take_app_length', drop_app_length' by congruence.
  rewrite Hn. reflexivity.
Qed.

Lemma say_run d (m : machine W) :
  say d m = Ok tt (Machine (input m) (world m) (log m ++ [Say d])).
Proof. reflexivity. Qed.

(** One turn of the outer loop on a full header block. *)
Lemma untar_loop_step fuel path f (hdr rest : list byte) (w : W) l :
  length hdr = 512%nat ->
  untar_loop sgn (S fuel) path f (Machine (hdr ++ rest) w l)
  = if is_end_of_archive sgn hdr then
      Ok Ret_end_of_archive
         (Machine rest w (l ++ [Fread 512; Say (End_of path)]))
    else if negb (verify_checksum sgn hdr) then
      Ok Ret_checksum_failure
         (Machine rest w (l ++ [Fread 512; Say Checksum_failure]))
    else
      (d <- dispatch sgn (hdr ++ [x00; x00]) f ;;
       payload_then (untar_loop sgn fuel path) fuel path
                    (fst (fst d)) (snd (fst d)) (snd d))
        (Machine rest w (l ++ [Fread 512])).
Proof.
  intros Hlen. cbn [untar_loop]. unfold bind at 1.
  rewrite fread_app by assumption. rewrite Hlen.
  change (512 <? 512)%nat with false. cbv iota.
  change (replicate (514 - 512) x00) with [x00; x00].
  rewrite is_end_of_archive_app, verify_checksum_app by assumption.
  destruct (is_end_of_archive sgn hdr).
  { unfold bind. rewrite say_run. cbn [input world log ret].
    rewrite <- app_assoc. reflexivity. }
  destruct (verify_checksum sgn hdr); cbn [negb]; [reflexivity|].
  unfold bind. rewrite say_run. cbn [input world log ret].
  rewrite <- app_assoc. reflexivity.
Qed.

(** The turn of the loop that meets the end-of-archive block. *)
Lemma untar_loop_end fuel path f (rest : list byte) (w : W) l :
  untar_loop sgn (S fuel) path f (Machine (replicate 512 x00 ++ rest) w l)
  = Ok Ret_end_of_archive
       (Machine rest w (l ++ [Fread 512; Say (End_of path)])).
Proof.
  rewrite untar_loop_step by apply length_replicate.
  rewrite <- (app_nil_r (replicate 512 x00)) at 1.
  rewrite is_end_of_archive_zeros. reflexivity.
Qed.

(** C7.  A header read that yields 512 zero bytes ends the extraction
    normally: the turn of the loop reads that one block, reports the end,
    and returns; the bytes after the block stay unread on the stream, the
    C library is left as it was, and nothing else is logged.  The same
    holds for an archive that starts with the zero block. *)
Theorem zero_block_is_terminal fuel path f (rest : list byte) (w : W) l :
  untar_loop sgn (S fuel) path f (Machine (replicate 512 x00 ++ rest) w l)
  = Ok Ret_end_of_archive
       (Machine rest w (l ++ [Fread 512; Say (End_of path)]))
  /\ untar sgn (replicate 512 x00 ++ rest) path w
     = Ok Ret_end_of_archive
          (Machine rest w [Say (Extracting_from path); Fread 512;
                           Say (End_of path)]).
Proof.
  split; [apply untar_loop_end|].
  unfold untar, bind. rewrite say_run. cbn [input world log].
  apply untar_loop_end.
Qed.

(** *** The payload loop *)

Lemma payload_blocks_pos filesize :
  0 < filesize ->
  payload_blocks filesize = S (payload_blocks (filesize - Z.min filesize 512)).
Proof.
  intros Hpos. unfold payload_blocks.
  destruct (Z.le_gt_cases filesize 512) as [Hle|Hgt].
  - rewrite Z.min_l by assumption.
    replace ((filesize + 511) / 512) with 1
      by (apply Z.div_unique with (filesize - 1); lia).
    replace (filesize - filesize + 511) with 511 by lia. reflexivity.
  - rewrite Z.min_r by lia.
    replace (filesize + 511) with ((filesize - 512 + 511) + 1 * 512) by lia.
    rewrite Z.div_add by lia.
    assert (0 <= (filesize - 512 + 511) / 512) by (apply Z.div_pos; lia).
    lia.
Qed.

Lemma payload_blocks_nonpos filesize :
  filesize <= 0 -> payload_blocks filesize = O.
Proof.
  intros Hle. unfold payload_blocks.
  assert ((filesize + 511) / 512 <= 0); [|lia].
  destruct (Z.eq_dec filesize 0) as [->|]; [reflexivity|].
  assert ((filesize + 511) / 512 < 1); [|lia].
  apply Z.div_lt_upper_bound; lia.
Qed.

(** One turn on a full block.  [n] is the clipped count,
    [min(filesize, 512)]: that many bytes are written, and that many are
    taken off [filesize]. *)
Lemma payload_block_full path filesize buff f (blk rest : list byte)
    (w : W) l :
  length blk = 512%nat ->
  0 < filesize < 2 ^ 31 ->
  let n := Z.min filesize 512 in
  let buff' := blk ++ drop 512 buff in
  let data := take (Z.to_nat n) blk in
  payload_block path filesize buff f (Machine (blk ++ rest) w l)
  = match f with
    | None =>
        Ok (Continue (filesize - n, buff', None))
           (Machine rest w (l ++ [Fread 512]))
    | Some h =>
        let r := libc_fwrite h data w in
        if fst r =? n then
          Ok (Continue (filesize - n, buff', Some h))
             (Machine rest (snd r) (l ++ [Fread 512; Fwrite h data (fst r)]))
        else
          Ok (Continue (filesize - n, buff', None))
             (Machine rest (libc_fclose h (snd r))
                      (l ++ [Fread 512; Fwrite h data (fst r);
                             Say Failed_write; Fclose h]))
    end.
Proof.
  intros Hlen Hsize n buff' data. unfold payload_block, bind at 1.
  rewrite fread_app by assumption. rewrite Hlen.
  change (Z.of_nat 512 <? 512) with false. cbv iota.
  assert ((if filesize <? 512 then filesize else Z.of_nat 512) = n) as ->.
  { unfold n. destruct (filesize <? 512) eqn:E.
    - apply Z.ltb_lt in E. lia.
    - apply Z.ltb_ge in E. lia. }
  assert (int_wrap (filesize - n) = filesize - n) as ->.
  { apply int_wrap_small. unfold n. lia. }
  assert (take (Z.to_nat n) (blk ++ drop 512 buff) = data) as ->.
  { unfold data. apply take_app_le. unfold n. lia. }
  fold buff'. destruct f as [h|]; [|reflexivity].
  unfold bind, fwrite. cbn [input world log].
  destruct (fst (libc_fwrite h data w) =? n); cbn [negb].
  - unfold ret. rewrite <- app_assoc. reflexivity.
  - rewrite say_run. unfold fclose, ret. cbn [input world log].
    rewrite <- !app_assoc. reflexivity.
Qed.

Lemma reads_app l1 l2 : reads (l1 ++ l2) = (reads l1 + reads l2)%nat.
Proof.
  induction l1 as [|e l1 IH]; [reflexivity|].
  destruct e; cbn [app reads]; rewrite IH; reflexivity.
Qed.

(** The stream and the count of reads after one turn, whatever the
    library answers. *)
Lemma payload_block_advances path filesize buff f (m : machine W) :
  (512 <= length (input m))%nat ->
  0 < filesize < 2 ^ 31 ->
  exists buff' f' m',
    payload_block path filesize buff f m
    = Ok (Continue (filesize - Z.min filesize 512, buff', f')) m'
    /\ input m' = drop 512 (input m)
    /\ reads (log m') = S (reads (log m)).
Proof.
  intros Hlen Hsize. destruct m as [inp w l]. cbn [input log] in *.
  pose proof (take_drop 512 inp) as E.
  assert (length (take 512 inp) = 512%nat) as Hblk by (rewrite length_take; lia).
  set (blk := take 512 inp) in *. set (rest := drop 512 inp) in *.
  clearbody blk rest. subst inp.
  rewrite payload_block_full by (assumption || lia).
  destruct f as [h|].
  - cbv zeta. case_if; eexists _, _, _; (split; [reflexivity|]);
      cbn [input log]; rewrite reads_app; cbn [reads]; split; auto; lia.
  - eexists _, _, _. split; [reflexivity|].
    cbn [input log]. rewrite reads_app. cbn [reads]. split; auto; lia.
Qed.

Lemma drain_done fuel path filesize buff f (m : machine W) :
  filesize <= 0 -> drain fuel path filesize buff f m = Ok (Continue f) m.
Proof.
  intros Hle. destruct fuel; cbn [drain];
    replace (0 <? filesize) with false by (symmetry; apply Z.ltb_ge; lia);
    reflexivity.
Qed.

Lemma drain_turn fuel path filesize buff f (m : machine W) :
  0 < filesize ->
  drain (S fuel) path filesize buff f m
  = (r <- payload_block path filesize buff f ;;
     match r with
     | Return o => ret (Return o)
     | Continue (filesize, buff, f) => drain fuel path filesize buff f
     end) m.
Proof.
  intros Hpos. cbn [drain].
  replace (0 <? filesize) with true by (symmetry; apply Z.ltb_lt; lia).
  reflexivity.
Qed.

(** The payload loop reads ceil(filesize / 512) blocks when the stream
    holds them, whatever happens to the output. *)
Lemma drain_consumes fuel path filesize buff f (m : machine W) :
  filesize < 2 ^ 31 ->
  (512 * payload_blocks filesize <= length (input m))%nat ->
  (payload_blocks filesize <= fuel)%nat ->
  exists f' m',
    drain fuel path filesize buff f m = Ok (Continue f') m'
    /\ input m' = drop (512 * payload_blocks filesize) (input m)
    /\ reads (log m') = (reads (log m) + payload_blocks filesize)%nat.
Proof.
  revert filesize buff f m.
  induction fuel as [|fuel IH]; intros filesize buff f m Hsize Hlen Hfuel.
  - destruct (Z.lt_ge_cases 0 filesize) as [Hpos|Hle].
    { rewrite payload_blocks_pos in Hfuel by assumption. lia. }
    rewrite drain_done, payload_blocks_nonpos by assumption.
    exists f, m. rewrite Nat.mul_0_r, drop_0, Nat.add_0_r. auto.
  - destruct (Z.lt_ge_cases 0 filesize) as [Hpos|Hle].
    2:{ rewrite drain_done, payload_blocks_nonpos by assumption.
        exists f, m. rewrite Nat.mul_0_r, drop_0, Nat.add_0_r. auto. }
    rewrite payload_blocks_pos in * by assumption.
    destruct (payload_block_advances path filesize buff f m)
      as (buff' & f' & m' & Hrun & Hin & Hreads); [lia|lia|].
    rewrite drain_turn by assumption. unfold bind. rewrite Hrun.
    destruct (IH (filesize - Z.min filesize 512) buff' f' m')
      as (f'' & m'' & Hrun' & Hin' & Hreads'); [lia| |lia|].
    { rewrite Hin, length_drop. lia. }
    exists f'', m''. split; [exact Hrun'|].
    rewrite Hin', Hreads', Hin, Hreads, drop_drop. split; [f_equal|]; lia.
Qed.


(** With no output open the loop only reads. *)
Lemma drain_none fuel path filesize buff (blocks rest : list byte) (w : W) l :
  filesize < 2 ^ 31 ->
  length blocks = (512 * payload_blocks filesize)%nat ->
  (payload_blocks filesize <= fuel)%nat ->
  drain fuel path filesize buff None (Machine (blocks ++ rest) w l)
  = Ok (Continue None)
       (Machine rest w (l ++ replicate (payload_blocks filesize) (Fread 512))).
Proof.
  revert filesize buff blocks l.
  induction fuel as [|fuel IH]; intros filesize buff blocks l Hsize Hlen Hfuel;
    destruct (Z.lt_ge_cases 0 filesize) as [Hpos|Hle].
  - rewrite payload_blocks_pos in Hfuel by assumption. lia.
  - rewrite drain_done, payload_blocks_nonpos in * by assumption.
    destruct blocks; [|discriminate]. cbn [replicate]. rewrite app_nil_r.
    reflexivity.
  - rewrite payload_blocks_pos in * by assumption.
    pose proof (take_drop 512 blocks) as E.
    assert (length (take 512 blocks) = 512%nat) as Hblk
      by (rewrite length_take; lia).
    assert (length (drop 512 blocks)
            = (512 * payload_blocks (filesize - Z.min filesize 512))%nat) as Hrest
      by (rewrite length_drop; lia).
    set (blk := take 512 blocks) in *. set (more := drop 512 blocks) in *.
    clearbody blk more. subst blocks.
    rewrite drain_turn by assumption. unfold bind.
    rewrite <- app_assoc, payload_block_full by (assumption || lia).
    cbv zeta. rewrite IH by (assumption || lia).
    cbn [replicate]. rewrite <- app_assoc. reflexivity.
  - rewrite drain_done, payload_blocks_nonpos in * by assumption.
    destruct blocks; [|discriminate]. cbn [replicate]. rewrite app_nil_r.
    reflexivity.
Qed.

(** C9.  When [fwrite] returns a count other than the one requested, the
    output is closed and [f] set to [NULL]; the rest of the entry's payload
    blocks are read and nothing more is written; the loop does not return:
    it goes on to the next header, with [f = NULL], as after any entry.
    [loop] is the head of the outer loop ([untar_loop sgn fuel path] in
    [untar_loop]); [blk] is the block whose write comes up short, [more]
    the payload blocks after it. *)
Theorem short_write_drains_entry (loop : option handle -> M W outcome)
    fuel path filesize buff h (blk more rest : list byte) (w : W) l :
  0 < filesize < 2 ^ 31 ->
  length blk = 512%nat ->
  length more
  = (512 * payload_blocks (filesize - Z.min filesize 512))%nat ->
  (payload_blocks filesize <= fuel)%nat ->
  let data := take (Z.to_nat (Z.min filesize 512)) blk in
  let r := libc_fwrite h data w in
  fst r <> Z.min filesize 512 ->
  payload_then loop fuel path filesize buff (Some h)
               (Machine (blk ++ more ++ rest) w l)
  = loop None
      (Machine rest (libc_fclose h (snd r))
         (l ++ [Fread 512; Fwrite h data (fst r); Say Failed_write; Fclose h]
            ++ replicate (payload_blocks (filesize - Z.min filesize 512))
                         (Fread 512))).
Proof.
  intros Hsize Hblk Hmore Hfuel data r Hshort.
  rewrite payload_blocks_pos in Hfuel by lia.
  destruct fuel as [|fuel]; [lia|].
  unfold payload_then. unfold bind at 1.
  rewrite drain_turn by lia. unfold bind at 1.
  rewrite payload_block_full by (assumption || lia).
  cbv zeta. fold data. fold r.
  replace (fst r =? Z.min filesize 512) with false
    by (symmetry; apply Z.eqb_neq; assumption).
  rewrite drain_none by (assumption || lia).
  unfold close_output, bind, ret. rewrite <- app_assoc. reflexivity.
Qed.

(** *** C strings *)

Lemma strlen_le s : (strlen s <= length s)%nat.
Proof.
  induction s as [|c s IH]; cbn [strlen length]; [lia|].
  destruct (Byte.eqb c x00); lia.
Qed.

Lemma strlen_app_nul s t : strlen (s ++ x00 :: t) = strlen s.
Proof.
  induction s as [|c s IH]; [reflexivity|].
  cbn [app strlen]. destruct (Byte.eqb c x00); congruence.
Qed.

Lemma cstr_app_nul s t : cstr (s ++ x00 :: t) = cstr s.
Proof.
  unfold cstr. rewrite strlen_app_nul. apply take_app_le, strlen_le.
Qed.

Lemma terminated_app_nul s t : terminated (s ++ x00 :: t) = true.
Proof.
  unfold terminated. apply Nat.ltb_lt.
  rewrite strlen_app_nul, length_app. cbn [length].
  pose proof (strlen_le s). lia.
Qed.

Lemma length_cstr s : length (cstr s) = strlen s.
Proof.
  unfold cstr. rewrite length_take. pose proof (strlen_le s). lia.
Qed.

Lemma byte_eqb_refl b : Byte.eqb b b = true.
Proof. apply Byte.byte_dec_lb. reflexivity. Qed.

Lemma byte_eqb_neq b c : b <> c -> Byte.eqb b c = false.
Proof.
  intros Hne. destruct (Byte.eqb b c) eqn:E; [|reflexivity].
  apply Byte.byte_dec_bl in E. contradiction.
Qed.

(** Writing a NUL inside a string cuts it there. *)
Lemma strlen_insert_nul s i :
  (i < strlen s)%nat -> strlen (<[i := x00]> s) = i.
Proof.
  revert i. induction s as [|c s IH]; intros i Hi; [cbn in Hi; lia|].
  cbn [strlen] in Hi. destruct (Byte.eqb c x00) eqn:E; [lia|].
  destruct i as [|i]; [reflexivity|].
  cbn [insert list_insert strlen]. rewrite E. f_equal. apply IH. lia.
Qed.

Lemma cstr_insert_nul s i :
  (i < strlen s)%nat -> cstr (<[i := x00]> s) = take i (cstr s).
Proof.
  intros Hi. unfold cstr. rewrite strlen_insert_nul by assumption.
  rewrite take_insert_ge by lia. rewrite take_take.
  f_equal. lia.
Qed.

(** The string handed to the first [mkdir] of [create_dir]. *)
Lemma cstr_strip s last :
  strlen s = S last ->
  cstr (if Byte.eqb (idx s last) x2f then <[last := x00]> s else s)
  = strip_slash (cstr s).
Proof.
  intros Hs. unfold strip_slash. rewrite length_cstr, Hs.
  assert (idx (cstr s) last = idx s last) as ->
    by (unfold cstr; apply idx_take; lia).
  destruct (Byte.eqb (idx s last) x2f); [|reflexivity].
  apply cstr_insert_nul. lia.
Qed.

(** *** Inverting a run *)

Lemma bind_ok_inv {A B} (c : M W A) (k : A -> M W B) m b m2 :
  bind c k m = Ok b m2 ->
  exists a m1, c m = Ok a m1 /\ k a m1 = Ok b m2.
Proof.
  unfold bind. destruct (c m) as [a m1|e]; [|discriminate]. eauto.
Qed.

Lemma extends_refl (m : machine W) : extends m m.
Proof. split; [reflexivity|]. exists []. rewrite app_nil_r. reflexivity. Qed.

Lemma extends_trans (m1 m2 m3 : machine W) :
  extends m1 m2 -> extends m2 m3 -> extends m1 m3.
Proof.
  intros [Hi1 [t1 Hl1]] [Hi2 [t2 Hl2]]. split; [congruence|].
  exists (t1 ++ t2). rewrite Hl2, Hl1, app_assoc. reflexivity.
Qed.

Lemma extends_snoc inp (w w' : W) l e :
  extends (Machine inp w l) (Machine inp w' (l ++ [e])).
Proof. split; [reflexivity|]. exists [e]. reflexivity. Qed.

Lemma ret_ok_inv {A} (a b : A) (m m' : machine W) :
  ret a m = Ok b m' -> a = b /\ m = m'.
Proof. unfold ret. intros E. injection E. auto. Qed.

Lemma mkdir_extends p mode (m : machine W) r m' :
  mkdir p mode m = Ok r m' -> extends m m'.
Proof.
  unfold mkdir. intros E. injection E as _ <-. destruct m. apply extends_snoc.
Qed.

Lemma fopen_extends p (m : machine W) f m' :
  fopen p m = Ok f m' -> extends m m'.
Proof.
  unfold fopen. intros E. injection E as _ <-. destruct m. apply extends_snoc.
Qed.

Lemma say_extends d (m : machine W) u m' :
  say d m = Ok u m' -> extends m m'.
Proof.
  rewrite say_run. intros E. injection E as _ <-. destruct m. apply extends_snoc.
Qed.

(** Case analysis on the condition of the first [if] (or the scrutinee of
    the first [match]) of hypothesis [H]. *)
Ltac case_hyp H :=
  revert H;
  match goal with
  | |- context [if ?c then _ else _] => destruct c eqn:?
  | |- context [match ?c with Some _ => _ | None => _ end] => destruct c eqn:?
  end;
  intros H.

(** [inv_bind H as H1]: from [H : (x <- c ;; k) m = Ok b m'], the run of
    [c] as [H1] and the run of [k] as [H]. *)
Tactic Notation "inv_bind" hyp(H) "as" ident(H1) :=
  let a := fresh "a" in
  let m := fresh "m" in
  apply bind_ok_inv in H as (a & m & H1 & H).

(** [create_dir] leaves the stream alone and only adds to the log. *)
Lemma create_dir_rec_extends fuel pathname mode (m : machine W) buff' m' :
  create_dir_rec fuel pathname mode m = Ok buff' m' -> extends m m'.
Proof.
  revert pathname mode m buff' m'.
  induction fuel as [|fuel IH]; intros pathname mode m buff' m' Hrun;
    [discriminate|].
  cbn [create_dir_rec] in Hrun.
  destruct (terminated pathname); [|discriminate]. cbn [negb] in Hrun.
  destruct (strlen pathname) as [|last]; [discriminate|].
  set (p1 := if Byte.eqb (idx pathname last) x2f then _ else _) in Hrun.
  clearbody p1.
  inv_bind Hrun as Hmk. apply mkdir_extends in Hmk.
  apply (extends_trans _ _ _ Hmk). clear Hmk.
  inv_bind Hrun as Hretry.
  assert (extends m0 m1) as Hext.
  { case_hyp Hretry.
    - case_hyp Hretry.
      + inv_bind Hretry as Hrec. apply IH in Hrec.
        apply (extends_trans _ _ _ Hrec).
        inv_bind Hretry as Hmk. apply mkdir_extends in Hmk.
        apply ret_ok_inv in Hretry as [_ <-]. assumption.
      + apply ret_ok_inv in Hretry as [_ <-]. apply extends_refl.
    - apply ret_ok_inv in Hretry as [_ <-]. apply extends_refl. }
  apply (extends_trans _ _ _ Hext).
  inv_bind Hrun as Hsay. apply ret_ok_inv in Hrun as [_ <-].
  case_hyp Hsay.
  - eapply say_extends; eassumption.
  - apply ret_ok_inv in Hsay as [_ <-]. apply extends_refl.
Qed.

(** The first thing a defined call of [create_dir] does is [mkdir] on
    the name without its trailing '/'. *)
Lemma create_dir_first_mkdir pathname mode (m : machine W) buff' m' :
  create_dir pathname mode m = Ok buff' m' ->
  let name := strip_slash (cstr pathname) in
  input m' = input m
  /\ exists tl,
       log m' = log m
                ++ Mkdir name mode (fst (libc_mkdir name mode (world m))) :: tl.
Proof.
  intros Hrun name. unfold create_dir in Hrun. cbn [create_dir_rec] in Hrun.
  destruct (terminated pathname); [|discriminate]. cbn [negb] in Hrun.
  destruct (strlen pathname) as [|last] eqn:Hs; [discriminate|].
  rewrite (cstr_strip _ _ Hs) in Hrun. fold name in Hrun.
  set (p1 := if Byte.eqb (idx pathname last) x2f then _ else _) in Hrun.
  clearbody p1.
  apply bind_ok_inv in Hrun as (r & m1 & Hmk & Hrun).
  assert (extends m1 m') as [Hin [tl Hlog]].
  { inv_bind Hrun as Hretry.
    assert (extends m1 m0) as Hext.
    { case_hyp Hretry.
      - case_hyp Hretry.
        + inv_bind Hretry as Hrec. apply create_dir_rec_extends in Hrec.
          apply (extends_trans _ _ _ Hrec).
          inv_bind Hretry as Hmk'. apply mkdir_extends in Hmk'.
          apply ret_ok_inv in Hretry as [_ <-]. assumption.
        + apply ret_ok_inv in Hretry as [_ <-]. apply extends_refl.
      - apply ret_ok_inv in Hretry as [_ <-]. apply extends_refl. }
    apply (extends_trans _ _ _ Hext).
    inv_bind Hrun as Hsay. apply ret_ok_inv in Hrun as [_ <-].
    case_hyp Hsay.
    - eapply say_extends; eassumption.
    - apply ret_ok_inv in Hsay as [_ <-]. apply extends_refl. }
  unfold mkdir in Hmk. injection Hmk as _ <-. cbn [input log] in *.
  split; [assumption|]. exists tl. rewrite Hlog, <- app_assoc. reflexivity.
Qed.

(** *** The dispatch on the type flag *)

Lemma char_val_eqb c b :
  0 <= c < 128 -> (c =? char_val sgn b) = (c =? byte_val b).
Proof.
  intros Hc. unfold char_val. pose proof (byte_val_range b).
  destruct (sgn && (128 <=? byte_val b)) eqn:E; [|reflexivity].
  apply andb_true_iff in E as [_ E]. apply Z.leb_le in E.
  transitivity false; [|symmetry]; apply Z.eqb_neq; lia.
Qed.

Lemma idx_buffer (hdr : list byte) k :
  (k < length hdr)%nat -> idx (hdr ++ [x00; x00]) k = idx hdr k.
Proof. apply idx_app_l. Qed.

Lemma c_str_buffer (hdr : list byte) (m : machine W) :
  c_str (hdr ++ [x00; x00]) m = Ok (cstr hdr) m.
Proof.
  unfold c_str. rewrite terminated_app_nul, cstr_app_nul. reflexivity.
Qed.

(** A directory entry: [create_dir] on the buffer, then [filesize = 0]. *)
Lemma dispatch_dir f (hdr : list byte) (m : machine W) :
  length hdr = 512%nat ->
  idx hdr 156 = x35 ->
  dispatch sgn (hdr ++ [x00; x00]) f m
  = (say (Extracting_dir (cstr hdr)) ;;;
     buff <- create_dir (hdr ++ [x00; x00]) (parseoct sgn (drop 100 hdr) 8) ;;
     ret (0, buff, f)) m.
Proof.
  intros Hlen Hflag. unfold dispatch. unfold bind at 1.
  rewrite c_str_buffer, idx_buffer, Hflag by lia.
  rewrite !char_val_eqb by lia.
  change (byte_val x35) with 53.
  change (49 =? 53) with false. change (50 =? 53) with false.
  change (51 =? 53) with false. change (52 =? 53) with false.
  change (53 =? 53) with true. cbv iota.
  rewrite parseoct_field_of_block by lia. reflexivity.
Qed.

Lemma regular_flag_tests b :
  regular_flag b ->
  (49 =? byte_val b) = false /\ (50 =? byte_val b) = false
  /\ (51 =? byte_val b) = false /\ (52 =? byte_val b) = false
  /\ (53 =? byte_val b) = false /\ (54 =? byte_val b) = false.
Proof.
  unfold regular_flag. intros Hb. repeat split; apply Z.eqb_neq; lia.
Qed.

(** An entry taken for a regular file: [create_file] on the buffer. *)
Lemma dispatch_file f (hdr : list byte) (m : machine W) :
  length hdr = 512%nat ->
  regular_flag (idx hdr 156) ->
  dispatch sgn (hdr ++ [x00; x00]) f m
  = (say (Extracting_file (cstr hdr)) ;;;
     fb <- create_file (hdr ++ [x00; x00]) (parseoct sgn (drop 100 hdr) 8) ;;
     ret (parseoct sgn (drop 124 hdr) 12, snd fb, fst fb)) m.
Proof.
  intros Hlen Hflag. unfold dispatch. unfold bind at 1.
  rewrite c_str_buffer, idx_buffer by lia.
  rewrite !char_val_eqb by lia.
  destruct (regular_flag_tests _ Hflag) as (-> & -> & -> & -> & -> & ->).
  rewrite !parseoct_field_of_block by lia. reflexivity.
Qed.

(** [create_file] starts with [fopen] on the string in the buffer. *)
Lemma create_file_first_fopen buff mode (m : machine W) fb m' :
  create_file buff mode m = Ok fb m' ->
  input m' = input m
  /\ exists tl,
       log m' = log m
                ++ Fopen (cstr buff) (fst (libc_fopen (cstr buff) (world m)))
                :: tl.
Proof.
  unfold create_file, c_str. intros Hrun.
  destruct (terminated buff); [|discriminate].
  apply bind_ok_inv in Hrun as (name & m0 & Hname & Hrun).
  apply ret_ok_inv in Hname as [<- <-].
  apply bind_ok_inv in Hrun as (fo & m1 & Hopen & Hrun).
  assert (extends m1 m') as [Hin [tl Hlog]].
  { destruct fo as [h|].
    - apply ret_ok_inv in Hrun as [_ <-]. apply extends_refl.
    - case_hyp Hrun.
      + inv_bind Hrun as Hdir. apply create_dir_rec_extends in Hdir.
        apply (extends_trans _ _ _ Hdir).
        inv_bind Hrun as Hopen'. apply fopen_extends in Hopen'.
        apply ret_ok_inv in Hrun as [_ <-]. assumption.
      + apply ret_ok_inv in Hrun as [_ <-]. apply extends_refl. }
  unfold fopen in Hopen. injection Hopen as _ <-. cbn [input log] in *.
  split; [assumption|]. exists tl. rewrite Hlog, <- app_assoc. reflexivity.
Qed.

(** With a file that opens at once there is nothing else to it. *)
Lemma create_file_opens (hdr : list byte) mode h (rest : list byte)
    (w w1 : W) l :
  libc_fopen (cstr hdr) w = (Some h, w1) ->
  create_file (hdr ++ [x00; x00]) mode (Machine rest w l)
  = Ok (Some h, hdr ++ [x00; x00])
       (Machine rest w1 (l ++ [Fopen (cstr hdr) (Some h)])).
Proof.
  intros Hopen. unfold create_file, bind. rewrite c_str_buffer.
  unfold fopen. cbn [input world log]. rewrite Hopen. reflexivity.
Qed.

Lemma strlen_take s n : (strlen s < n)%nat -> strlen (take n s) = strlen s.
Proof.
  revert n. induction s as [|c s IH]; intros n Hn.
  - rewrite take_nil. reflexivity.
  - destruct n as [|n]; [lia|]. cbn [take strlen] in *.
    change (firstn (S n) (c :: s)) with (c :: take n s). cbn [strlen].
    destruct (Byte.eqb c x00); [reflexivity|].
    f_equal. apply IH. lia.
Qed.

(** A name that ends inside its field is the string at the start of the
    block. *)
Lemma cstr_name_field (hdr : list byte) :
  (strlen hdr < 100)%nat -> cstr (take 100 hdr) = cstr hdr.
Proof.
  intros Hn. unfold cstr. rewrite strlen_take by assumption.
  rewrite take_take. f_equal. lia.
Qed.

(** *** [create_dir] on a relative name *)

Lemma idx_before_strlen s i : (i < strlen s)%nat -> idx s i <> x00.
Proof.
  revert i. induction s as [|c s IH]; intros i Hi; [cbn in Hi; lia|].
  cbn [strlen] in Hi. destruct (Byte.eqb c x00) eqn:E; [lia|].
  destruct i as [|i].
  - cbn. intros ->. discriminate.
  - apply (IH i). lia.
Qed.

Lemma strlen_pos s : idx s 0 <> x00 -> (0 < strlen s)%nat.
Proof.
  destruct s as [|c s]; intros Hc; [contradiction Hc; reflexivity|].
  cbn [strlen]. cbn in Hc. rewrite byte_eqb_neq by assumption. lia.
Qed.

(** [strrchr] returns the offset of a [c] inside the string. *)
Lemma strrchr_spec s c p :
  strrchr s c = Some p -> (p < strlen s)%nat /\ idx s p = c.
Proof.
  revert p. induction s as [|b s IH]; intros p Hp; [discriminate|].
  cbn [strrchr strlen] in *. destruct (Byte.eqb b x00); [discriminate|].
  destruct (strrchr s c) as [i|].
  - injection Hp as <-. destruct (IH i eq_refl) as [Hi Hc].
    split; [lia|exact Hc].
  - destruct (Byte.eqb b c) eqn:E; [|discriminate].
    injection Hp as <-. apply Byte.byte_dec_bl in E. split; [lia|exact E].
Qed.

Lemma terminated_insert_nul s i :
  (i < strlen s)%nat -> terminated (<[i := x00]> s) = true.
Proof.
  intros Hi. unfold terminated. apply Nat.ltb_lt.
  rewrite strlen_insert_nul, length_insert by assumption.
  pose proof (strlen_le s). lia.
Qed.

(** Closes a goal [exists a m', c m = Ok a m'] once no call of [c] is
    left that could fail. *)
Ltac run_ok :=
  repeat (cbv beta iota delta [bind ret say emit mkdir fopen];
          cbn [fst snd]; try case_if);
  eexists _, _; reflexivity.

(** The buffer once the trailing '/' is stripped, seen from a relative
    name: still terminated, no longer, and with the same first byte. *)
Lemma stripped_buffer s last :
  terminated s = true ->
  strlen s = S last ->
  idx s 0 <> x2f ->
  let s1 := if Byte.eqb (idx s last) x2f then <[last := x00]> s else s in
  terminated s1 = true
  /\ (strlen s1 <= S last)%nat
  /\ idx s1 0 = idx s 0.
Proof.
  intros Hterm Hs Hrel. cbv zeta.
  destruct (Byte.eqb (idx s last) x2f) eqn:E.
  - apply Byte.byte_dec_bl in E.
    assert (last <> O) by (intros ->; contradiction).
    rewrite terminated_insert_nul, strlen_insert_nul, idx_insert_ne by lia.
    repeat split; lia.
  - repeat split; try assumption. lia.
Qed.

(** On a name that is not empty and does not start with '/', every call
    of the recursion is on such a name again: [create_dir] is defined,
    whatever [mkdir] answers. *)
Lemma create_dir_rec_defined fuel pathname mode (m : machine W) :
  terminated pathname = true ->
  (strlen pathname < fuel)%nat ->
  idx pathname 0 <> x00 ->
  idx pathname 0 <> x2f ->
  exists buff' m', create_dir_rec fuel pathname mode m = Ok buff' m'.
Proof.
  revert pathname mode m.
  induction fuel as [|fuel IH]; intros pathname mode m Hterm Hfuel Hne Hrel;
    [lia|].
  cbn [create_dir_rec]. rewrite Hterm. cbn [negb].
  pose proof (strlen_pos _ Hne) as Hpos.
  destruct (strlen pathname) as [|last] eqn:Hs; [lia|].
  destruct (stripped_buffer pathname last Hterm Hs Hrel)
    as (Hterm1 & Hlen1 & Hfirst1).
  set (p1 := if Byte.eqb (idx pathname last) x2f then _ else _) in *.
  clearbody p1.
  unfold bind at 1. unfold mkdir at 1.
  set (m1 := Machine _ _ _). set (r := fst _). clearbody m1 r.
  destruct (negb (r =? 0)); [|run_ok].
  destruct (strrchr p1 x2f) as [p|] eqn:Hp; [|run_ok].
  destruct (strrchr_spec _ _ _ Hp) as [Hplen Hpc].
  assert (p <> O) by (intros ->; congruence).
  destruct (IH (<[p := x00]> p1) 493 m1) as (b & m2 & Hrec).
  { apply terminated_insert_nul. assumption. }
  { rewrite strlen_insert_nul by assumption. lia. }
  { rewrite idx_insert_ne by lia. congruence. }
  { rewrite idx_insert_ne by lia. congruence. }
  unfold bind at 1. unfold bind at 1. rewrite Hrec. run_ok.
Qed.

Lemma create_dir_defined pathname mode (m : machine W) :
  terminated pathname = true ->
  idx pathname 0 <> x00 ->
  idx pathname 0 <> x2f ->
  exists buff' m', create_dir pathname mode m = Ok buff' m'.
Proof.
  intros Hterm Hne Hrel. apply create_dir_rec_defined; try assumption.
  pose proof (strlen_le pathname). lia.
Qed.

(** [create_file] is defined on every name that does not start with '/'. *)
Lemma create_file_defined buff mode (m : machine W) :
  terminated buff = true ->
  idx buff 0 <> x2f ->
  exists fb m', create_file buff mode m = Ok fb m'.
Proof.
  intros Hterm Hrel. unfold create_file, c_str. rewrite Hterm.
  unfold bind at 1, ret at 1. unfold bind at 1, fopen at 1.
  set (m1 := Machine _ _ _). set (fo := fst _). clearbody m1 fo.
  destruct fo as [h|]; [run_ok|].
  destruct (strrchr buff x2f) as [p|] eqn:Hp; [|run_ok].
  destruct (strrchr_spec _ _ _ Hp) as [Hplen Hpc].
  assert (p <> O) by (intros ->; congruence).
  destruct (create_dir_defined (<[p := x00]> buff) 493 m1) as (b & m2 & Hdir).
  { apply terminated_insert_nul. assumption. }
  { rewrite idx_insert_ne by lia. apply idx_before_strlen. lia. }
  { rewrite idx_insert_ne by lia. assumption. }
  unfold bind at 1. rewrite Hdir. run_ok.
Qed.

(** [dispatch] is defined on every header whose name does not start with
    '/' and, for a directory, is not empty. *)
Lemma dispatch_defined f (hdr : list byte) (m : machine W) :
  length hdr = 512%nat ->
  idx hdr 0 <> x2f ->
  (idx hdr 156 = x35 -> idx hdr 0 <> x00) ->
  exists d m', dispatch sgn (hdr ++ [x00; x00]) f m = Ok d m'.
Proof.
  intros Hlen Hrel Hne. unfold dispatch. unfold bind at 1.
  rewrite c_str_buffer, idx_buffer by lia. rewrite !char_val_eqb by lia.
  destruct (49 =? byte_val (idx hdr 156)); [run_ok|].
  destruct (50 =? byte_val (idx hdr 156)); [run_ok|].
  destruct (51 =? byte_val (idx hdr 156)); [run_ok|].
  destruct (52 =? byte_val (idx hdr 156)); [run_ok|].
  destruct (53 =? byte_val (idx hdr 156)) eqn:E5.
  { apply Z.eqb_eq in E5.
    assert (idx hdr 156 = x35) as Hflag by (apply byte_val_inj; auto).
    unfold bind at 1. rewrite say_run. set (m1 := Machine _ _ _).
    destruct (create_dir_defined (hdr ++ [x00; x00])
                (parseoct sgn (drop 100 (hdr ++ [x00; x00])) 8) m1)
      as (b & m2 & Hdir).
    - apply terminated_app_nul.
    - rewrite idx_buffer by lia. auto.
    - rewrite idx_buffer by lia. assumption.
    - unfold bind at 1. rewrite Hdir. run_ok. }
  destruct (54 =? byte_val (idx hdr 156)); [run_ok|].
  unfold bind at 1. rewrite say_run. set (m1 := Machine _ _ _).
  destruct (create_file_defined (hdr ++ [x00; x00])
              (parseoct sgn (drop 100 (hdr ++ [x00; x00])) 8) m1)
    as (fb & m2 & Hfile).
  - apply terminated_app_nul.
  - rewrite idx_buffer by lia. assumption.
  - unfold bind at 1. rewrite Hfile. run_ok.
Qed.


(** *** A regular file, written in full *)

Lemma padded_nil : Ustar.padded [] = [].
Proof. reflexivity. Qed.

Lemma pad_length_short n :
  (0 < n < 512)%nat -> ((512 - n mod 512) mod 512 = 512 - n)%nat.
Proof.
  intros Hn. rewrite (Nat.mod_small n) by lia. apply Nat.mod_small. lia.
Qed.

Lemma pad_length_drop n :
  (512 <= n)%nat ->
  ((512 - (n - 512) mod 512) mod 512 = (512 - n mod 512) mod 512)%nat.
Proof.
  intros Hn. replace n with ((n - 512) + 1 * 512)%nat at 2 by lia.
  rewrite Nat.Div0.mod_add. reflexivity.
Qed.

(** The first block of a padded payload, and what is left. *)
Lemma padded_split (payload : list byte) :
  (0 < length payload)%nat ->
  exists blk,
    length blk = 512%nat
    /\ Ustar.padded payload = blk ++ Ustar.padded (drop 512 payload)
    /\ take (Z.to_nat (Z.min (Z.of_nat (length payload)) 512)) blk
       = take 512 payload.
Proof.
  intros Hpos. unfold Ustar.padded.
  destruct (le_lt_dec 512 (length payload)) as [Hge|Hlt].
  - exists (take 512 payload). rewrite length_take, length_drop.
    rewrite pad_length_drop by assumption.
    split; [lia|]. split.
    + rewrite app_assoc, take_drop. reflexivity.
    + rewrite Z.min_r by lia. change (Z.to_nat 512) with 512%nat.
      rewrite take_take. f_equal.
  - exists (payload ++ replicate (512 - length payload) x00).
    rewrite length_app, length_replicate.
    rewrite pad_length_short by lia.
    rewrite drop_ge by lia. cbn [length app replicate Nat.modulo].
    split; [lia|]. split.
    + change ((512 - 0 mod 512) mod 512)%nat with O.
      cbn [replicate]. rewrite !app_nil_r. reflexivity.
    + rewrite Z.min_l by lia. rewrite Nat2Z.id.
      rewrite take_app_length. rewrite take_ge by lia. reflexivity.
Qed.

Lemma payload_blocks_length (payload : list byte) :
  (0 < length payload)%nat ->
  payload_blocks (Z.of_nat (length payload))
  = S (payload_blocks (Z.of_nat (length (drop 512 payload)))).
Proof.
  intros Hpos. rewrite payload_blocks_pos by lia. do 2 f_equal.
  rewrite length_drop. lia.
Qed.

(** The payload loop on a handle that takes every write in full.  [Inv]
    is whatever the library needs to hold for that (the handle is open,
    the disk has room): it holds when the loop starts and writes keep it. *)
Lemma drain_full_writes (Inv : W -> Prop) h fuel path (payload : list byte)
    buff (rest : list byte) (w : W) l :
  (forall d w, Inv w ->
     fst (libc_fwrite h d w) = Z.of_nat (length d)
     /\ Inv (snd (libc_fwrite h d w))) ->
  Inv w ->
  Z.of_nat (length payload) < 2 ^ 31 ->
  (payload_blocks (Z.of_nat (length payload)) <= fuel)%nat ->
  exists w',
    Inv w'
    /\ drain fuel path (Z.of_nat (length payload)) buff (Some h)
             (Machine (Ustar.padded payload ++ rest) w l)
       = Ok (Continue (Some h))
            (Machine rest w'
               (l ++ payload_events h
                       (payload_blocks (Z.of_nat (length payload))) payload)).
Proof.
  intros Hwrite. revert payload buff w l.
  induction fuel as [|fuel IH]; intros payload buff w l Hinv Hsize Hfuel;
    destruct (Nat.eq_0_gt_0_cases (length payload)) as [Hnil|Hpos].
  - apply length_zero_iff_nil in Hnil. subst payload.
    exists w. split; [assumption|]. cbn [length Z.of_nat].
    rewrite drain_done, padded_nil, payload_blocks_nonpos by lia.
    cbn [payload_events]. rewrite app_nil_r. reflexivity.
  - rewrite payload_blocks_length in Hfuel by assumption. lia.
  - apply length_zero_iff_nil in Hnil. subst payload.
    exists w. split; [assumption|]. cbn [length Z.of_nat].
    rewrite drain_done, padded_nil, payload_blocks_nonpos by lia.
    cbn [payload_events]. rewrite app_nil_r. reflexivity.
  - destruct (padded_split payload Hpos) as (blk & Hblk & Hsplit & Hdata).
    rewrite payload_blocks_length in * by assumption.
    rewrite Hsplit, <- app_assoc.
    rewrite drain_turn by lia. unfold bind at 1.
    rewrite payload_block_full by (assumption || lia).
    cbv zeta. rewrite Hdata.
    destruct (Hwrite (take 512 payload) w Hinv) as [Hret Hinv'].
    rewrite Hret.
    assert (Z.of_nat (length (take 512 payload))
            = Z.min (Z.of_nat (length payload)) 512) as Hmin
      by (rewrite length_take; lia).
    rewrite Hmin, Z.eqb_refl.
    replace (Z.of_nat (length payload) - Z.min (Z.of_nat (length payload)) 512)
      with (Z.of_nat (length (drop 512 payload)))
      by (rewrite length_drop; lia).
    destruct (IH (drop 512 payload) (blk ++ drop 512 buff)
                 (snd (libc_fwrite h (take 512 payload) w))
                 (l ++ [Fread 512;
                        Fwrite h (take 512 payload)
                               (Z.min (Z.of_nat (length payload)) 512)]))
      as (w' & Hinv'' & Hrun); [assumption| |lia|].
    { rewrite length_drop. lia. }
    exists w'. split; [assumption|]. rewrite Hrun.
    cbn [payload_events]. rewrite Hmin, <- app_assoc. reflexivity.
Qed.

(** *** Reading the log of such a run *)

Lemma written_app h l1 l2 : written h (l1 ++ l2) = written h l1 ++ written h l2.
Proof.
  induction l1 as [|e l1 IH]; [reflexivity|].
  destruct e; cbn [app written]; try assumption.
  destruct (_ =? _)%nat; [rewrite IH, app_assoc|]; auto.
Qed.

Lemma creations_app l1 l2 : creations (l1 ++ l2) = creations l1 ++ creations l2.
Proof.
  induction l1 as [|e l1 IH]; [reflexivity|].
  destruct e; cbn [app creations]; rewrite ?IH; reflexivity.
Qed.

Lemma closed_app l1 l2 : closed (l1 ++ l2) = closed l1 ++ closed l2.
Proof.
  induction l1 as [|e l1 IH]; [reflexivity|].
  destruct e; cbn [app closed]; rewrite ?IH; reflexivity.
Qed.

Lemma payload_events_written h n (payload : list byte) :
  written h (payload_events h n payload) = take (512 * n) payload.
Proof.
  revert payload. induction n as [|n IH]; intros payload.
  - rewrite Nat.mul_0_r. reflexivity.
  - cbn [payload_events written]. rewrite Nat.eqb_refl, Nat2Z.id, IH.
    rewrite firstn_all.
    replace (512 * S n)%nat with (512 + 512 * n)%nat by lia.
    rewrite <- (take_drop 512 payload) at 3.
    destruct (le_lt_dec 512 (length payload)) as [Hge|Hlt].
    + rewrite take_app_add' by (rewrite length_take; lia). reflexivity.
    + rewrite !drop_ge, take_nil, !app_nil_r by lia.
      rewrite take_take. f_equal. lia.
Qed.

Lemma payload_events_creations h n (payload : list byte) :
  creations (payload_events h n payload) = [].
Proof.
  revert payload. induction n as [|n IH]; intros payload; [reflexivity|].
  cbn [payload_events creations]. apply IH.
Qed.

Lemma payload_events_closed h n (payload : list byte) :
  closed (payload_events h n payload) = [].
Proof.
  revert payload. induction n as [|n IH]; intros payload; [reflexivity|].
  cbn [payload_events closed]. apply IH.
Qed.

Lemma payload_blocks_cover n : (n <= 512 * payload_blocks (Z.of_nat n))%nat.
Proof.
  unfold payload_blocks.
  pose proof (Z.div_mod (Z.of_nat n + 511) 512 ltac:(lia)) as Hdm.
  pose proof (Z.mod_pos_bound (Z.of_nat n + 511) 512 ltac:(lia)).
  assert (0 <= (Z.of_nat n + 511) / 512) by (apply Z.div_pos; lia).
  lia.
Qed.

(** *** A well-formed header, as the program sees it *)

Lemma unsigned_sum_bound l : 0 <= unsigned_sum l <= 255 * Z.of_nat (length l).
Proof.
  induction l as [|b l IH]; [cbn; lia|].
  cbn [unsigned_sum foldr length]. fold (unsigned_sum l).
  pose proof (byte_val_range b). lia.
Qed.

Lemma parseoct_header_field off n (hdr ds : list byte) :
  (off + n <= length hdr)%nat ->
  numeric_field (take n (drop off hdr)) ds ->
  parseoct sgn (drop off hdr) n = int_wrap (octal_value ds).
Proof.
  intros Hlen Hfld.
  rewrite <- (take_drop n (drop off hdr)) at 1.
  rewrite <- (parseoct_numeric_field sgn _ ds (drop n (drop off hdr)) Hfld).
  f_equal. rewrite length_take, length_drop. lia.
Qed.

(** A valid checksum passes the program's check, where [char] is unsigned
    and, under either signedness, on a header of 7-bit bytes. *)
Lemma checksum_valid_verifies (hdr : list byte) :
  length hdr = 512%nat ->
  checksum_valid hdr ->
  sgn = false \/ seven_bit hdr ->
  verify_checksum sgn hdr = true.
Proof.
  intros Hlen (ds & Hfld & Hval) Hsgn.
  unfold verify_checksum.
  rewrite checksum_loop_unsigned_sum
    by (try lia; rewrite take_ge by lia; assumption).
  rewrite take_ge by lia.
  rewrite (parseoct_header_field 148 8 hdr ds) by (assumption || lia).
  rewrite Hval, int_wrap_small; [apply Z.eqb_refl|].
  pose proof (unsigned_sum_bound (blank_checksum hdr)) as Hb.
  pose proof (length_blank_checksum hdr ltac:(lia)) as Hl.
  rewrite take_ge in Hl by lia. rewrite Hl in Hb. lia.
Qed.

Lemma declared_size_parsed (hdr : list byte) size :
  length hdr = 512%nat ->
  declares_size hdr size ->
  0 <= size < 2 ^ 31 ->
  parseoct sgn (drop 124 hdr) 12 = size.
Proof.
  intros Hlen (ds & Hfld & Hval) Hsize.
  rewrite (parseoct_header_field 124 12 hdr ds) by (assumption || lia).
  rewrite Hval. apply int_wrap_small. lia.
Qed.

Lemma payload_blocks_le n : (payload_blocks (Z.of_nat n) <= n)%nat.
Proof.
  unfold payload_blocks. destruct n as [|n]; [reflexivity|].
  assert ((Z.of_nat (S n) + 511) / 512 < Z.of_nat (S n) + 1); [|lia].
  apply Z.div_lt_upper_bound; lia.
Qed.

(** C1 (amended).  A well-formed single-file archive whose declared size
    is below 2^31 (and, where [char] is signed, whose header bytes are all
    below 0x80), extracted with a C library that opens the file and takes
    every write to it in full: the run ends at the zero block, the one
    thing created is the file, and the bytes written to it are the payload,
    byte for byte: for every payload length, 0 and the multiples of 512
    included.  [Inv] is what the library needs to hold to keep taking
    writes. *)
Theorem single_file_round_trip (Inv : W -> Prop) h path
    (hdr payload extra : list byte) (w w1 : W) :
  file_header hdr (Z.of_nat (length payload)) ->
  Z.of_nat (length payload) < 2 ^ 31 ->
  sgn = false \/ seven_bit hdr ->
  libc_fopen (cstr hdr) w = (Some h, w1) ->
  Inv w1 ->
  (forall d w, Inv w ->
     fst (libc_fwrite h d w) = Z.of_nat (length d)
     /\ Inv (snd (libc_fwrite h d w))) ->
  exists m',
    untar sgn (hdr ++ Ustar.padded payload ++ Ustar.zero_block ++ extra) path w
    = Ok Ret_end_of_archive m'
    /\ input m' = extra
    /\ log m'
       = [Say (Extracting_from path); Fread 512;
          Say (Extracting_file (cstr hdr)); Fopen (cstr hdr) (Some h)]
         ++ payload_events h (payload_blocks (Z.of_nat (length payload)))
                           payload
         ++ [Fclose h; Fread 512; Say (End_of path)]
    /\ creations (log m') = [Fopen (cstr hdr) (Some h)]
    /\ written h (log m') = payload
    /\ closed (log m') = [h].
Proof.
  intros (Hlen & Hsum & Hflag & Hdecl) Hsize Hsgn Hopen Hinv Hwrite.
  pose proof (checksum_valid_verifies hdr Hlen Hsum Hsgn) as Hv.
  set (a := hdr ++ Ustar.padded payload ++ Ustar.zero_block ++ extra).
  set (n := payload_blocks (Z.of_nat (length payload))).
  assert (exists k, length a = S k /\ (n <= S k)%nat) as (k & Hk & Hn).
  { exists (length a - 1)%nat. unfold a, n, Ustar.padded.
    pose proof (payload_blocks_le (length payload)).
    rewrite !length_app. lia. }
  destruct (drain_full_writes Inv h (S k) path payload (hdr ++ [x00; x00])
              (Ustar.zero_block ++ extra) w1
              [Say (Extracting_from path); Fread 512;
               Say (Extracting_file (cstr hdr)); Fopen (cstr hdr) (Some h)]
              Hwrite Hinv Hsize Hn) as (w' & _ & Hdrain).
  eexists. split.
  - unfold untar, bind at 1. rewrite say_run. cbn [input world log app].
    fold a. rewrite Hk. unfold a.
    rewrite untar_loop_step by assumption.
    rewrite (verify_checksum_not_end _ _ Hv), Hv. cbn [negb].
    unfold bind at 1. rewrite dispatch_file by assumption.
    unfold bind at 1. rewrite say_run. cbn [input world log app].
    unfold bind at 1. rewrite (create_file_opens _ _ _ _ _ _ _ Hopen).
    unfold ret at 1. cbn [fst snd app].
    rewrite (declared_size_parsed hdr _ Hlen Hdecl) by lia.
    unfold payload_then, bind at 1. rewrite Hdrain.
    unfold close_output, bind, fclose, ret. cbn [input world log].
    unfold Ustar.zero_block. rewrite untar_loop_end. reflexivity.
  - cbn [input log]. fold n. split; [reflexivity|].
    split; [rewrite <- !app_assoc; reflexivity|].
    rewrite <- !app_assoc.
    repeat split.
    + cbn [app creations]. rewrite creations_app, payload_events_creations.
      reflexivity.
    + cbn [app written]. rewrite written_app, payload_events_written.
      cbn [written]. rewrite app_nil_r. apply take_ge.
      apply payload_blocks_cover.
    + cbn [app closed]. rewrite closed_app, payload_events_closed.
      reflexivity.
Qed.

(** *** The fuel of the model is enough

    A run stops on [Out_of_fuel] nowhere: the recursion of [create_dir] is
    on ever shorter strings, and each turn of either loop of [untar] takes
    a full block off the stream or returns. *)

Lemma bind_fault_inv {A B} (c : M W A) (k : A -> M W B) m e :
  bind c k m = Fault e ->
  c m = Fault e \/ exists a m1, c m = Ok a m1 /\ k a m1 = Fault e.
Proof.
  unfold bind. destruct (c m) as [a m1|e']; [eauto|].
  intros E. left. congruence.
Qed.

Lemma stripped_strlen s last :
  strlen s = S last ->
  (strlen (if Byte.eqb (idx s last) x2f then <[last := x00]> s else s)
   <= S last)%nat.
Proof.
  intros Hs. destruct (Byte.eqb (idx s last) x2f); [|lia].
  rewrite strlen_insert_nul by lia. lia.
Qed.

Lemma create_dir_rec_fuel fuel pathname mode (m : machine W) e :
  (strlen pathname < fuel)%nat ->
  create_dir_rec fuel pathname mode m = Fault e -> e = Undefined.
Proof.
  revert pathname mode m.
  induction fuel as [|fuel IH]; intros pathname mode m Hfuel Hrun; [lia|].
  cbn [create_dir_rec] in Hrun.
  destruct (terminated pathname); cbn [negb] in Hrun;
    [|unfold undefined in Hrun; congruence].
  destruct (strlen pathname) as [|last] eqn:Hs;
    [unfold undefined in Hrun; congruence|].
  pose proof (stripped_strlen pathname last Hs) as Hlen1.
  set (p1 := if Byte.eqb (idx pathname last) x2f then _ else _) in *.
  clearbody p1.
  apply bind_fault_inv in Hrun as [Hrun|(r & m1 & _ & Hrun)]; [discriminate|].
  apply bind_fault_inv in Hrun as [Hrun|(rp & m2 & _ & Hrun)].
  - case_hyp Hrun; [|discriminate].
    case_hyp Hrun; [|discriminate].
    match goal with Hp : strrchr p1 x2f = Some ?p |- _ =>
      destruct (strrchr_spec _ _ _ Hp) as [Hplen _] end.
    apply bind_fault_inv in Hrun as [Hrun|(b & m2 & _ & Hrun)].
    + apply IH in Hrun; [assumption|].
      rewrite strlen_insert_nul by assumption. lia.
    + apply bind_fault_inv in Hrun as [Hrun|(r' & m3 & _ & Hrun)];
        discriminate.
  - apply bind_fault_inv in Hrun as [Hrun|(u & m3 & _ & Hrun)];
      [|discriminate].
    case_hyp Hrun; discriminate.
Qed.

Lemma create_dir_fuel pathname mode (m : machine W) e :
  create_dir pathname mode m = Fault e -> e = Undefined.
Proof.
  apply create_dir_rec_fuel. pose proof (strlen_le pathname). lia.
Qed.

Lemma create_file_fuel buff mode (m : machine W) e :
  create_file buff mode m = Fault e -> e = Undefined.
Proof.
  unfold create_file, c_str. intros Hrun.
  apply bind_fault_inv in Hrun as [Hrun|(name & m1 & _ & Hrun)].
  { case_hyp Hrun; [discriminate|]. unfold undefined in Hrun. congruence. }
  apply bind_fault_inv in Hrun as [Hrun|(fo & m2 & _ & Hrun)]; [discriminate|].
  destruct fo as [h|]; [discriminate|].
  case_hyp Hrun; [|discriminate].
  apply bind_fault_inv in Hrun as [Hrun|(b & m3 & _ & Hrun)].
  - eapply create_dir_fuel; eassumption.
  - apply bind_fault_inv in Hrun as [Hrun|(f' & m4 & _ & Hrun)]; discriminate.
Qed.

Lemma dispatch_fuel buff f (m : machine W) e :
  dispatch sgn buff f m = Fault e -> e = Undefined.
Proof.
  unfold dispatch, c_str. intros Hrun.
  apply bind_fault_inv in Hrun as [Hrun|(name & m1 & _ & Hrun)].
  { case_hyp Hrun; [discriminate|]. unfold undefined in Hrun. congruence. }
  repeat (case_hyp Hrun; [discriminate|]).
  case_hyp Hrun.
  - apply bind_fault_inv in Hrun as [Hrun|(u & m2 & _ & Hrun)]; [discriminate|].
    apply bind_fault_inv in Hrun as [Hrun|(b & m3 & _ & Hrun)]; [|discriminate].
    eapply create_dir_fuel; eassumption.
  - case_hyp Hrun; [discriminate|].
    apply bind_fault_inv in Hrun as [Hrun|(u & m2 & _ & Hrun)]; [discriminate|].
    apply bind_fault_inv in Hrun as [Hrun|(b & m3 & _ & Hrun)]; [|discriminate].
    eapply create_file_fuel; eassumption.
Qed.

(** [dispatch] leaves the stream where it is. *)
Lemma dispatch_input buff f (m : machine W) d m' :
  dispatch sgn buff f m = Ok d m' -> input m' = input m.
Proof.
  unfold dispatch, c_str. intros Hrun.
  inv_bind Hrun as Hname.
  assert (m0 = m) as ->.
  { case_hyp Hname; [|discriminate]. apply ret_ok_inv in Hname as [_ ->].
    reflexivity. }
  assert (forall (k : ignored) (x : Z * list byte * option handle),
            (say (Ignoring k a) ;;; ret x) m = Ok d m' -> input m' = input m)
    as Hskip.
  { intros k x E. injection E as _ <-. reflexivity. }
  repeat (case_hyp Hrun; [eapply Hskip; eassumption|]).
  case_hyp Hrun.
  - inv_bind Hrun as Hsay. rewrite say_run in Hsay. injection Hsay as _ <-.
    inv_bind Hrun as Hdir. apply ret_ok_inv in Hrun as [_ <-].
    apply create_dir_rec_extends in Hdir as [Hin _]. exact Hin.
  - case_hyp Hrun; [eapply Hskip; eassumption|].
    inv_bind Hrun as Hsay. rewrite say_run in Hsay. injection Hsay as _ <-.
    inv_bind Hrun as Hfile. apply ret_ok_inv in Hrun as [_ <-].
    apply create_file_first_fopen in Hfile as [Hin _]. exact Hin.
Qed.

(** A turn of the payload loop always runs through; it goes on only after
    taking a full block off the stream. *)
Lemma payload_block_total path filesize buff f (m : machine W) :
  exists r m',
    payload_block path filesize buff f m = Ok r m'
    /\ (length (input m') <= length (input m))%nat
    /\ match r with
       | Continue _ => (length (input m') + 512 = length (input m))%nat
       | Return _ => True
       end.
Proof.
  unfold payload_block. unfold bind at 1, fread at 1.
  destruct (Z.of_nat (length (take 512 (input m))) <? 512) eqn:E.
  - eexists _, _. split; [reflexivity|].
    cbn [input]. rewrite length_drop. split; [lia|exact I].
  - apply Z.ltb_ge in E. rewrite length_take in E.
    destruct f as [h|].
    + unfold bind, fwrite, ret. cbn [input world log].
      case_if; eexists _, _; (split; [reflexivity|]);
        cbn [input]; rewrite length_drop; lia.
    + eexists _, _. split; [reflexivity|].
      cbn [input]. rewrite length_drop. lia.
Qed.

Lemma drain_total fuel path filesize buff f (m : machine W) :
  (length (input m) < 512 * fuel)%nat ->
  exists r m',
    drain fuel path filesize buff f m = Ok r m'
    /\ (length (input m') <= length (input m))%nat.
Proof.
  revert filesize buff f m.
  induction fuel as [|fuel IH]; intros filesize buff f m Hfuel; [lia|].
  destruct (Z.lt_ge_cases 0 filesize) as [Hpos|Hle].
  2:{ rewrite drain_done by assumption. eexists _, _. split; [reflexivity|lia]. }
  rewrite drain_turn by assumption.
  destruct (payload_block_total path filesize buff f m)
    as (r & m1 & Hrun & Hle & Hr).
  unfold bind. rewrite Hrun.
  destruct r as [[[filesize' buff'] f']|o].
  - destruct (IH filesize' buff' f' m1) as (r' & m' & Hrun' & Hlen'); [lia|].
    exists r', m'. split; [exact Hrun'|lia].
  - eexists _, _. split; [reflexivity|assumption].
Qed.

Lemma untar_loop_total fuel path f (m : machine W) e :
  (length (input m) < 512 * fuel)%nat ->
  untar_loop sgn fuel path f m = Fault e -> e = Undefined.
Proof.
  revert f m. induction fuel as [|fuel IH]; intros f m Hfuel Hrun; [lia|].
  cbn [untar_loop] in Hrun.
  apply bind_fault_inv in Hrun as [Hrun|(got & m1 & Hread & Hrun)];
    [discriminate|].
  unfold fread in Hread. injection Hread as <- <-.
  case_hyp Hrun; [discriminate|].
  match goal with Hlt : (_ <? 512)%nat = false |- _ =>
    apply Nat.ltb_ge in Hlt; rewrite length_take in Hlt end.
  case_hyp Hrun; [discriminate|].
  case_hyp Hrun; [discriminate|].
  apply bind_fault_inv in Hrun as [Hrun|(d & m2 & Hd & Hrun)].
  { eapply dispatch_fuel; eassumption. }
  apply dispatch_input in Hd. cbn [input] in Hd.
  unfold payload_then in Hrun.
  destruct (drain_total fuel path (fst (fst d)) (snd (fst d)) (snd d) m2)
    as (r & m3 & Hdrain & Hlen).
  { rewrite Hd, length_drop. lia. }
  apply bind_fault_inv in Hrun as [Hrun|(r' & m3' & Hdrain' & Hrun)];
    [congruence|].
  rewrite Hdrain in Hdrain'. injection Hdrain' as <- <-.
  destruct r as [f'|o]; [|discriminate].
  apply bind_fault_inv in Hrun as [Hrun|(f'' & m4 & Hclose & Hrun)].
  { destruct f'; discriminate. }
  apply IH in Hrun; [assumption|].
  assert (input m4 = input m3) as ->.
  { destruct f' as [h|].
    - injection Hclose as _ <-. reflexivity.
    - injection Hclose as _ <-. reflexivity. }
  rewrite Hd, length_drop in Hlen. lia.
Qed.

(** [untar] returns, or stops on undefined behaviour: the model never
    runs out of fuel. *)
Theorem untar_never_out_of_fuel (a : list byte) path (w : W) :
  untar sgn a path w <> Fault Out_of_fuel.
Proof.
  intros Hrun. unfold untar in Hrun.
  apply bind_fault_inv in Hrun as [Hrun|(u & m1 & Hsay & Hrun)];
    [discriminate|].
  rewrite say_run in Hsay. injection Hsay as _ <-.
  apply untar_loop_total in Hrun; [discriminate|].
  cbn [input]. lia.
Qed.

(** *** When [create_dir] gives the buffer back *)

Lemma no_double_slash_cut s i :
  (i < strlen s)%nat -> no_double_slash s -> no_double_slash (<[i := x00]> s).
Proof.
  intros Hi Hs j Hj Hslash. rewrite strlen_insert_nul in Hj by assumption.
  rewrite idx_insert_ne in * by lia. apply Hs; [lia|assumption].
Qed.

Lemma strip_buffer_no_slash s last :
  strlen s = S last -> idx s last <> x2f -> strip_buffer s = s.
Proof.
  intros Hs Hlast. unfold strip_buffer. rewrite Hs.
  rewrite byte_eqb_neq by assumption. reflexivity.
Qed.

Lemma insert_restore (s : list byte) p :
  (p < length s)%nat -> idx s p = x2f ->
  <[p := x2f]> (<[p := x00]> s) = s.
Proof.
  intros Hp Hc. rewrite list_insert_insert_eq. apply list_insert_id.
  rewrite idx_lookup in Hc.
  destruct (s !! p) as [b|] eqn:E; [cbn in Hc; congruence|].
  apply lookup_ge_None in E. lia.
Qed.

(** On a relative name without empty components the recursion restores
    every separator it cuts: the buffer comes back as it was, but for the
    trailing '/' of the name. *)
Lemma create_dir_rec_frame fuel pathname mode (m : machine W) buff' m' :
  idx pathname 0 <> x2f ->
  no_double_slash pathname ->
  create_dir_rec fuel pathname mode m = Ok buff' m' ->
  buff' = strip_buffer pathname.
Proof.
  revert pathname mode m buff' m'.
  induction fuel as [|fuel IH]; intros pathname mode m buff' m' Hrel Hclean Hrun;
    [discriminate|].
  cbn [create_dir_rec] in Hrun.
  destruct (terminated pathname) eqn:Hterm; [|discriminate].
  cbn [negb] in Hrun. unfold strip_buffer.
  destruct (strlen pathname) as [|last] eqn:Hs; [discriminate|].
  destruct (stripped_buffer pathname last Hterm Hs Hrel)
    as (Hterm1 & Hlen1 & Hfirst1).
  assert (no_double_slash
            (if Byte.eqb (idx pathname last) x2f
             then <[last := x00]> pathname else pathname)) as Hclean1.
  { destruct (Byte.eqb (idx pathname last) x2f); [|assumption].
    apply no_double_slash_cut; [lia|assumption]. }
  set (p1 := if Byte.eqb (idx pathname last) x2f then _ else _) in *.
  clearbody p1.
  inv_bind Hrun as Hmk. clear Hmk.
  inv_bind Hrun as Hretry.
  assert (snd a0 = p1) as Hbuf.
  { case_hyp Hretry; [|apply ret_ok_inv in Hretry as [<- _]; reflexivity].
    case_hyp Hretry; [|apply ret_ok_inv in Hretry as [<- _]; reflexivity].
    match goal with Hp : strrchr p1 x2f = Some ?p |- _ =>
      destruct (strrchr_spec _ _ _ Hp) as [Hplen Hpc]; rename p into q end.
    assert (q <> O) by (intros ->; congruence).
    inv_bind Hretry as Hrec.
    apply IH in Hrec.
    2:{ rewrite idx_insert_ne by lia. congruence. }
    2:{ apply no_double_slash_cut; assumption. }
    inv_bind Hretry as Hmk. apply ret_ok_inv in Hretry as [<- _].
    cbn [snd]. subst a1.
    rewrite (strip_buffer_no_slash _ (q - 1)).
    - apply insert_restore; [|assumption].
      pose proof (strlen_le p1). lia.
    - rewrite strlen_insert_nul by assumption. lia.
    - rewrite idx_insert_ne by lia. intros Hprev.
      apply (Hclean1 (q - 1)%nat); [lia|assumption|].
      replace (S (q - 1)) with q by lia. assumption. }
  inv_bind Hrun as Hsay. apply ret_ok_inv in Hrun as [<- _].
  assumption.
Qed.

(** [create_dir] on a relative, non-empty name without empty components:
    the call is defined, and the buffer it leaves is the caller's with the
    trailing '/' of the name, if any, replaced by NUL. *)
Theorem create_dir_restores_buffer pathname mode (m : machine W) :
  terminated pathname = true ->
  idx pathname 0 <> x00 ->
  idx pathname 0 <> x2f ->
  no_double_slash pathname ->
  exists m',
    create_dir pathname mode m = Ok (strip_buffer pathname) m'.
Proof.
  intros Hterm Hne Hrel Hclean.
  destruct (create_dir_defined pathname mode m Hterm Hne Hrel)
    as (buff' & m' & Hrun).
  exists m'. rewrite Hrun. f_equal.
  eapply create_dir_rec_frame; eassumption.
Qed.

End Runs.

(** ** Concrete runs *)

Lemma octal_digitb_spec b : octal_digitb b = true <-> octal_digit b.
Proof. apply octal_digit_dec. Qed.

Lemma forallb_octal_digit ds :
  forallb octal_digitb ds = true -> Forall octal_digit ds.
Proof.
  intros Hds. apply Forall_forall. intros b Hb.
  apply octal_digitb_spec. rewrite forallb_forall in Hds. apply Hds.
  apply list_elem_of_In. assumption.
Qed.

Lemma digits_then_stop_field fld n :
  digits_then_stop fld n = true -> numeric_field fld (take n fld).
Proof.
  unfold digits_then_stop. rewrite !andb_true_iff, negb_true_iff.
  intros [[Hds Hstop] Hlen].
  exists [], (drop n fld). rewrite app_nil_l, take_drop.
  repeat split; auto using forallb_octal_digit.
  right. split.
  - apply Nat.ltb_lt in Hlen. destruct (take n fld); [cbn in Hlen; lia|].
    discriminate.
  - rewrite <- octal_digitb_spec, Hstop. discriminate.
Qed.

Lemma seven_bitb_spec l : seven_bitb l = true -> seven_bit l.
Proof.
  unfold seven_bitb, seven_bit. intros Hl. apply Forall_forall. intros b Hb.
  rewrite forallb_forall in Hl. apply Z.ltb_lt, Hl, list_elem_of_In, Hb.
Qed.

(** A header of [Ustar.header] whose checksum and size fields hold the
    digits they should. *)
Lemma file_header_check hdr size :
  length hdr = 512%nat ->
  digits_then_stop (take 8 (drop 148 hdr)) 6 = true ->
  octal_value (take 6 (take 8 (drop 148 hdr)))
  = unsigned_sum (blank_checksum hdr) ->
  regular_flag (idx hdr 156) ->
  digits_then_stop (take 12 (drop 124 hdr)) 11 = true ->
  octal_value (take 11 (take 12 (drop 124 hdr))) = size ->
  file_header hdr size.
Proof.
  intros Hlen Hsum Hsumv Hflag Hsize Hsizev.
  split; [assumption|]. split; [|split; [assumption|]].
  - eexists. split; [apply digits_then_stop_field; eassumption|assumption].
  - eexists. split; [apply digits_then_stop_field; eassumption|assumption].
Qed.

Lemma regular_flag_0 hdr : idx hdr 156 = x30 -> regular_flag (idx hdr 156).
Proof. intros ->. unfold regular_flag. vm_compute. intros [H _]. auto. Qed.

Lemma hello_file_header :
  file_header Examples.hello_header (Z.of_nat (length Examples.hello)).
Proof.
  apply file_header_check; try (vm_compute; reflexivity).
  apply regular_flag_0. vm_compute. reflexivity.
Qed.

(** What the program does with the archive of spec section 8. *)
Example hello_extracted :
  exists m',
    @untar _ Examples.roomy true Examples.hello_archive Examples.tar RamFS.empty
    = Ok Ret_end_of_archive m'
    /\ RamFS.contents (world m') Examples.a_txt = Some Examples.hello
    /\ RamFS.opened (world m') = [].
Proof. eexists. split; vm_compute; auto. Qed.

(** C2, code and claim apart.  The header of a file named by the two
    bytes of a UTF-8 e-acute (0xC3 0xA9) carries the valid ustar checksum:
    the number in its checksum field is the unsigned sum of the block with
    the field blanked.  Where [char] is signed, [h = p[n]] sign-extends
    those two bytes and [verify_checksum] returns false; where it is
    unsigned, it returns true. *)
Theorem signed_char_rejects_valid_checksum :
  checksum_valid Examples.e_acute_header
  /\ parseoct true (drop 148 Examples.e_acute_header) 8
     = unsigned_sum (blank_checksum Examples.e_acute_header)
  /\ verify_checksum true Examples.e_acute_header = false
  /\ verify_checksum false Examples.e_acute_header = true.
Proof.
  split; [|repeat split; vm_compute; reflexivity].
  eexists. split; [apply (digits_then_stop_field _ 6)|]; vm_compute; reflexivity.
Qed.

(** C3, code and claim apart.  The archive of "a.txt" cut off two bytes
    into its payload block: the payload read comes up short and [untar]
    returns with the output it opened (handle 3) never closed. *)
Theorem short_payload_read_leaves_file_open :
  exists m',
    @untar _ Examples.roomy true Examples.truncated_archive Examples.tar
           RamFS.empty
    = Ok Ret_short_payload m'
    /\ opened (log m') = [3%nat]
    /\ closed (log m') = []
    /\ RamFS.opened (world m') = [(3%nat, Examples.a_txt)].
Proof. eexists. split; [vm_compute; reflexivity|]. vm_compute. auto. Qed.

(** C10, code and claim apart.  [create_dir] on "a//b" in an empty
    directory: [mkdir("a//b")] fails, the recursive call on "a/" strips
    that slash for good, and the buffer comes back as "a", NUL, "/b": the
    retry is [mkdir("a")] again, and "a//b" is never made. *)
Theorem create_dir_double_slash_cuts_path :
  exists m',
    @create_dir _ Examples.roomy Examples.a_slash_slash_b 493
                (Machine [] RamFS.empty [])
    = Ok (bytes "a" ++ [x00] ++ bytes "/b" ++ [x00]) m'
    /\ log m'
       = [Mkdir (bytes "a//b") 493 (-1); Mkdir (bytes "a") 493 0;
          Mkdir (bytes "a") 493 (-1);
          Say (Could_not_create_directory (bytes "a"))]
    /\ RamFS.dirs (world m') = [bytes "a"].
Proof. eexists. split; [vm_compute; reflexivity|]. vm_compute. auto. Qed.


(** *** Witnesses *)

Lemma roomy_takes_writes (d : list byte) (w : RamFS.fs) :
  RamFS.path_of (RamFS.opened w) 3%nat = Some Examples.a_txt ->
  fst (@libc_fwrite _ Examples.roomy 3%nat d w) = Z.of_nat (length d)
  /\ RamFS.path_of (RamFS.opened (snd (@libc_fwrite _ Examples.roomy 3%nat d w))) 3%nat
     = Some Examples.a_txt.
Proof.
  intros Hopen.
  change (@libc_fwrite _ Examples.roomy) with (RamFS.do_fwrite None).
  unfold RamFS.do_fwrite. rewrite Hopen. cbn [fst snd RamFS.opened].
  rewrite firstn_all. auto.
Qed.

Lemma single_file_round_trip_witness :
  exists m',
    @untar _ Examples.roomy true
           (Examples.hello_header ++ Ustar.padded Examples.hello
              ++ Ustar.zero_block ++ [])
           Examples.tar RamFS.empty
    = Ok Ret_end_of_archive m'
    /\ input m' = []
    /\ log m'
       = [Say (Extracting_from Examples.tar); Fread 512;
          Say (Extracting_file (cstr Examples.hello_header));
          Fopen (cstr Examples.hello_header) (Some 3%nat)]
         ++ payload_events 3%nat
              (payload_blocks (Z.of_nat (length Examples.hello)))
              Examples.hello
         ++ [Fclose 3%nat; Fread 512; Say (End_of Examples.tar)]
    /\ creations (log m') = [Fopen (cstr Examples.hello_header) (Some 3%nat)]
    /\ written 3%nat (log m') = Examples.hello
    /\ closed (log m') = [3%nat].
Proof.
  apply (@single_file_round_trip RamFS.fs Examples.roomy true
           (fun w => RamFS.path_of (RamFS.opened w) 3%nat = Some Examples.a_txt)
           3%nat Examples.tar Examples.hello_header Examples.hello []
           RamFS.empty Examples.a_txt_open).
  - exact hello_file_header.
  - vm_compute. reflexivity.
  - right. apply seven_bitb_spec. vm_compute. reflexivity.
  - vm_compute. reflexivity.
  - vm_compute. reflexivity.
  - exact roomy_takes_writes.
Defined.

Lemma short_write_drains_entry_witness :
  @payload_then _ Examples.cramped
      (@untar_loop _ Examples.cramped true 1 Examples.tar) 1 Examples.tar 5
      (Examples.hello_header ++ [x00; x00]) (Some 3%nat)
      (Machine (Ustar.padded Examples.hello ++ [] ++ Ustar.zero_block)
               Examples.a_txt_open [])
  = @untar_loop _ Examples.cramped true 1 Examples.tar None
      (Machine Ustar.zero_block
         (@libc_fclose _ Examples.cramped 3%nat
            (snd (@libc_fwrite _ Examples.cramped 3%nat
                    (take (Z.to_nat (Z.min 5 512))
                          (Ustar.padded Examples.hello))
                    Examples.a_txt_open)))
         ([] ++ [Fread 512;
                 Fwrite 3%nat
                   (take (Z.to_nat (Z.min 5 512)) (Ustar.padded Examples.hello))
                   (fst (@libc_fwrite _ Examples.cramped 3%nat
                           (take (Z.to_nat (Z.min 5 512))
                                 (Ustar.padded Examples.hello))
                           Examples.a_txt_open));
                 Say Failed_write; Fclose 3%nat]
             ++ replicate (payload_blocks (5 - Z.min 5 512)) (Fread 512))).
Proof.
  apply (@short_write_drains_entry RamFS.fs Examples.cramped
           (@untar_loop _ Examples.cramped true 1 Examples.tar) 1 Examples.tar
           5 (Examples.hello_header ++ [x00; x00]) 3%nat
           (Ustar.padded Examples.hello) [] Ustar.zero_block
           Examples.a_txt_open []).
  - lia.
  - vm_compute. reflexivity.
  - vm_compute. reflexivity.
  - apply Nat.leb_le. vm_compute. reflexivity.
  - vm_compute. discriminate.
Defined.

Lemma byte_neq_check a b : Byte.eqb a b = false -> a <> b.
Proof. intros E ->. rewrite byte_eqb_refl in E. discriminate. Qed.

Lemma verify_checksum_unsigned_witness :
  verify_checksum false Examples.hello_header = true
  <-> parseoct false (drop 148 Examples.hello_header) 8
      = unsigned_sum (blank_checksum (take 512 Examples.hello_header)).
Proof.
  apply (verify_checksum_unsigned Examples.hello_header).
  apply Nat.leb_le. vm_compute. reflexivity.
Defined.

Lemma verify_checksum_seven_bit_witness :
  verify_checksum true Examples.hello_header = true
  <-> parseoct true (drop 148 Examples.hello_header) 8
      = unsigned_sum (blank_checksum (take 512 Examples.hello_header)).
Proof.
  apply (verify_checksum_seven_bit true Examples.hello_header).
  - apply Nat.leb_le. vm_compute. reflexivity.
  - apply seven_bitb_spec. vm_compute. reflexivity.
Defined.

Lemma verify_checksum_detects_change_witness :
  verify_checksum true MoreExamples.hello_header_changed = false.
Proof.
  apply (verify_checksum_detects_change true Examples.hello_header 0 x62).
  - vm_compute. reflexivity.
  - lia.
  - apply Nat.ltb_lt. vm_compute. reflexivity.
  - lia.
  - apply byte_neq_check. vm_compute. reflexivity.
Defined.

Lemma a_b_slash_clean : no_double_slash MoreExamples.a_b_slash.
Proof.
  intros i Hi.
  change (strlen MoreExamples.a_b_slash) with 4%nat in Hi.
  destruct i as [|[|[|i]]]; try lia; intros H;
    try (vm_compute in H; discriminate);
    apply byte_neq_check; vm_compute; reflexivity.
Qed.

Lemma create_dir_restores_buffer_witness :
  exists m',
    @create_dir _ Examples.roomy MoreExamples.a_b_slash 493
                (Machine [] RamFS.empty [])
    = Ok (strip_buffer MoreExamples.a_b_slash) m'.
Proof.
  apply (@create_dir_restores_buffer RamFS.fs Examples.roomy
           MoreExamples.a_b_slash 493 (Machine [] RamFS.empty [])).
  - vm_compute. reflexivity.
  - apply byte_neq_check. vm_compute. reflexivity.
  - apply byte_neq_check. vm_compute. reflexivity.
  - exact a_b_slash_clean.
Defined.

(** What that call does: "a/b" fails for want of "a", "a" is made, and
    the retry makes "a/b"; the buffer reads "a/b". *)
Example create_dir_makes_parents :
  exists m',
    @create_dir _ Examples.roomy MoreExamples.a_b_slash 493
                (Machine [] RamFS.empty [])
    = Ok (bytes "a/b" ++ [x00; x00]) m'
    /\ log m' = [Mkdir (bytes "a/b") 493 (-1); Mkdir (bytes "a") 493 0;
                 Mkdir (bytes "a/b") 493 0]
    /\ RamFS.dirs (world m') = [bytes "a"; bytes "a/b"].
Proof. eexists. split; [vm_compute; reflexivity|]. vm_compute. auto. Qed.

(** *** A file of 2 GiB *)

Lemma huge_payload_length :
  Z.of_nat (length Examples.huge_payload) = Examples.huge_size.
Proof.
  unfold Examples.huge_payload. rewrite length_replicate.
  apply Z2Nat.id. unfold Examples.huge_size. lia.
Qed.

Lemma huge_file_header :
  file_header Examples.huge_header (Z.of_nat (length Examples.huge_payload)).
Proof.
  rewrite huge_payload_length.
  apply file_header_check; try (vm_compute; reflexivity).
  apply regular_flag_0. vm_compute. reflexivity.
Qed.

(** The turn of the loop on the header: the size field parses to -2^31,
    so the file is opened and closed at once and no payload block is
    read. *)
Lemma huge_entry_step sgn k (rest : list byte) l :
  @untar_loop _ Examples.roomy sgn (S k) Examples.tar None
     (Machine (Examples.huge_header ++ rest) RamFS.empty l)
  = @untar_loop _ Examples.roomy sgn k Examples.tar None
      (Machine rest
         (RamFS.do_fclose 3%nat (snd (RamFS.do_fopen (bytes "big") RamFS.empty)))
         (l ++ [Fread 512; Say (Extracting_file (bytes "big"));
                Fopen (bytes "big") (Some 3%nat); Fclose 3%nat])).
Proof.
  assert (length Examples.huge_header = 512%nat) as Hlen
    by (vm_compute; reflexivity).
  assert (verify_checksum sgn Examples.huge_header = true) as Hv
    by (destruct sgn; vm_compute; reflexivity).
  assert (parseoct sgn (drop 124 Examples.huge_header) 12 = - 2147483648)
    as Hsize by (destruct sgn; vm_compute; reflexivity).
  assert (cstr Examples.huge_header = bytes "big") as Hname
    by (vm_compute; reflexivity).
  rewrite untar_loop_step by assumption.
  rewrite (verify_checksum_not_end _ _ Hv), Hv. cbn [negb].
  unfold bind at 1. rewrite dispatch_file
    by (assumption || (apply regular_flag_0; vm_compute; reflexivity)).
  unfold bind at 1. rewrite say_run. cbn [input world log].
  unfold bind at 1.
  rewrite (create_file_opens _ _ 3%nat _ _
             (snd (RamFS.do_fopen (bytes "big") RamFS.empty)))
    by (rewrite Hname; vm_compute; reflexivity).
  unfold ret at 1. cbn [fst snd]. rewrite Hsize, Hname.
  unfold payload_then, bind at 1. rewrite drain_done by lia.
  unfold close_output, bind, fclose, ret. cbn [input world log].
  rewrite <- !app_assoc. reflexivity.
Qed.

Lemma huge_payload_starts_with_zero_block :
  exists rest,
    Ustar.padded Examples.huge_payload ++ Ustar.zero_block
    = replicate 512 x00 ++ rest.
Proof.
  unfold Ustar.padded, Examples.huge_payload.
  set (n := Z.to_nat Examples.huge_size).
  assert (n = 512 + (n - 512))%nat as ->
    by (unfold n, Examples.huge_size; lia).
  rewrite replicate_add, <- !app_assoc. eexists. reflexivity.
Qed.

Lemma huge_run sgn :
  exists m',
    @untar _ Examples.roomy sgn Examples.huge_archive Examples.tar RamFS.empty
    = Ok Ret_end_of_archive m'
    /\ log m'
       = [Say (Extracting_from Examples.tar); Fread 512;
          Say (Extracting_file (bytes "big"));
          Fopen (bytes "big") (Some 3%nat); Fclose 3%nat; Fread 512;
          Say (End_of Examples.tar)].
Proof.
  destruct huge_payload_starts_with_zero_block as [rest Hrest].
  unfold untar, bind at 1. rewrite say_run. cbn [input world log].
  unfold Examples.huge_archive. rewrite Hrest, !length_app, length_replicate.
  replace (length Examples.huge_header) with 512%nat
    by (vm_compute; reflexivity).
  replace (S (512 + (512 + length rest))) with (S (S (1023 + length rest)))
    by lia.
  rewrite huge_entry_step, untar_loop_end.
  eexists. split; reflexivity.
Qed.

(** C1 as stated fails.  A single-file archive of 2^31 zero bytes is well
    formed, its header is 7-bit, and the library opens the file and would
    take every write; the size field parses to -2^31, the payload loop is
    not entered, and the file is left empty: under either signedness of
    [char]. *)
Lemma two_gib_file_comes_out_empty :
  file_header Examples.huge_header (Z.of_nat (length Examples.huge_payload))
  /\ seven_bit Examples.huge_header
  /\ (exists m',
        @untar _ Examples.roomy true Examples.huge_archive Examples.tar
               RamFS.empty
        = Ok Ret_end_of_archive m'
        /\ creations (log m') = [Fopen (bytes "big") (Some 3%nat)]
        /\ written 3%nat (log m') = []
        /\ written 3%nat (log m') <> Examples.huge_payload)
  /\ (exists m',
        @untar _ Examples.roomy false Examples.huge_archive Examples.tar
               RamFS.empty
        = Ok Ret_end_of_archive m'
        /\ written 3%nat (log m') = []).
Proof.
  split; [exact huge_file_header|].
  split; [apply seven_bitb_spec; vm_compute; reflexivity|].
  split.
  - destruct (huge_run true) as (m' & Hrun & Hlog).
    exists m'. rewrite Hlog. repeat split; try assumption; try reflexivity.
    cbn [written]. intros E. apply (f_equal length) in E.
    apply (f_equal Z.of_nat) in E. rewrite huge_payload_length in E.
    discriminate.
  - destruct (huge_run false) as (m' & Hrun & Hlog).
    exists m'. rewrite Hlog. split; [assumption|reflexivity].
Qed.

(** * Further properties *)

(** ** parseoct on any field *)

Lemma leading_digits_split l :
  exists trail,
    l = leading_digits l ++ trail
    /\ Forall octal_digit (leading_digits l)
    /\ (trail = [] \/ ~ octal_digit (idx trail 0)).
Proof.
  induction l as [|b l (trail & Hl & Hds & Htrail)].
  - exists []. repeat split; [constructor|now left].
  - cbn [leading_digits]. destruct (octal_digitb b) eqn:E.
    + exists trail. cbn [app]. rewrite <- Hl. repeat split; [|assumption].
      apply Forall_cons_2; [|assumption]. apply octal_digitb_spec, E.
    + exists (b :: l). repeat split; [constructor|]. right.
      cbn [idx nth]. rewrite <- octal_digitb_spec, E. discriminate.
Qed.

(** Every field reads as bytes that are no digits, the first run of
    digits, and a rest that [parseoct] does not look into. *)
Lemma first_digit_run_field fld : numeric_field fld (first_digit_run fld).
Proof.
  unfold first_digit_run. induction fld as [|b l IH].
  - exists [], []. repeat split; [constructor|constructor|now left].
  - cbn [skip_nondigits]. destruct (octal_digitb b) eqn:E.
    + destruct (leading_digits_split (b :: l)) as (trail & Hl & Hds & Htrail).
      exists [], trail. rewrite app_nil_l. repeat split; try assumption.
      * constructor.
      * destruct Htrail as [->|Hstop]; [now left|right].
        split; [|assumption]. cbn [leading_digits]. rewrite E. discriminate.
    + destruct IH as (lead & trail & Hl & Hlead & Hds & Htrail).
      exists (b :: lead), trail. cbn [app]. rewrite <- Hl.
      repeat split; try assumption.
      apply Forall_cons_2; [|assumption].
      rewrite <- octal_digitb_spec, E. discriminate.
Qed.

(** [parseoct] in full: on a field of [n] bytes it returns the base-8
    value of the first run of octal digits in the field, wrapped to an
    [int]; the bytes before the run, and everything from the first byte
    after it that is no digit, later digits included, count for nothing,
    and so does what follows the field. *)
Theorem parseoct_first_digit_run sgn (p : list byte) n :
  (n <= length p)%nat ->
  parseoct sgn p n = int_wrap (octal_value (first_digit_run (take n p))).
Proof.
  intros Hn.
  rewrite <- (parseoct_numeric_field sgn (take n p) _ (drop n p)
                (first_digit_run_field (take n p))).
  rewrite take_drop, length_take. f_equal. lia.
Qed.

(** ** is_end_of_archive on any block *)

Lemma zeros_take (p : list byte) n :
  (n <= length p)%nat ->
  (forall k, (k < n)%nat -> idx p k = x00) ->
  take n p = replicate n x00.
Proof.
  revert p. induction n as [|n IH]; intros p Hn Hz; [apply take_0|].
  destruct p as [|b p]; [cbn in Hn; lia|].
  cbn [replicate]. change (take (S n) (b :: p)) with (b :: take n p).
  f_equal.
  - apply (Hz O). lia.
  - apply IH; [cbn in Hn; lia|]. intros k Hk. apply (Hz (S k)). lia.
Qed.

(** [is_end_of_archive] is true of a block exactly when its first 512
    bytes are all zero, under either signedness of [char]; the bytes after
    them are not looked at. *)
Theorem end_of_archive_iff_zero_block sgn (p : list byte) :
  (512 <= length p)%nat ->
  is_end_of_archive sgn p = true <-> take 512 p = replicate 512 x00.
Proof.
  intros Hp. unfold is_end_of_archive. rewrite is_end_of_archive_from_spec.
  split.
  - intros Hz. apply zeros_take; [assumption|]. intros k Hk. apply Hz. lia.
  - intros E k Hk. rewrite <- (idx_take p 512 k), E by lia.
    apply idx_replicate. lia.
Qed.

(** ** verify_checksum where [char] is signed *)

Lemma sum_terms_list (g : byte -> Z) (q : list byte) n todo :
  (n + todo <= length q)%nat ->
  sum_terms (fun k => g (idx q k)) n todo
  = foldr (fun b acc => g b + acc) 0 (take todo (drop n q)).
Proof.
  revert n. induction todo as [|todo IH]; intros n Hn; [reflexivity|].
  cbn [sum_terms]. rewrite IH by lia.
  destruct (drop n q) as [|b q'] eqn:E.
  { apply (f_equal length) in E. rewrite length_drop in E. cbn in E. lia. }
  destruct (drop_cons_idx q n b q' E) as [-> ->].
  reflexivity.
Qed.

(** A byte of 0x80 or more held in a signed [char] counts 256 less. *)
Lemma signed_sum l :
  foldr (fun b acc => char_val true b + acc) 0 l
  = unsigned_sum l - 256 * Z.of_nat (high_bytes l).
Proof.
  unfold high_bytes.
  induction l as [|b l IH]; [reflexivity|].
  cbn [foldr unsigned_sum List.filter]. fold (unsigned_sum l).
  rewrite IH. unfold char_val. cbn [andb].
  destruct (128 <=? byte_val b); cbn [length]; lia.
Qed.

(** What [verify_checksum] compares the stored number with where [char]
    is signed: the unsigned sum of the block, its checksum field taken as
    spaces, less 256 for every byte of 0x80 or more outside that field. *)
Theorem verify_checksum_signed (p : list byte) :
  (512 <= length p)%nat ->
  verify_checksum true p = true
  <-> parseoct true (drop 148 p) 8
      = unsigned_sum (blank_checksum (take 512 p))
        - 256 * Z.of_nat (high_bytes (blank_checksum (take 512 p))).
Proof.
  intros Hp. rewrite verify_checksum_eq, Z.eqb_eq.
  rewrite <- signed_sum.
  rewrite <- (firstn_all (blank_checksum (take 512 p))).
  rewrite length_blank_checksum by assumption.
  rewrite <- (drop_0 (blank_checksum (take 512 p))).
  rewrite <- (sum_terms_list (char_val true))
    by (rewrite length_blank_checksum; auto).
  rewrite (sum_terms_ext (checksum_term true p)
             (fun k => char_val true (idx (blank_checksum (take 512 p)) k))).
  { split; congruence. }
  intros k Hk. rewrite idx_blank_checksum by lia. unfold checksum_term.
  destruct (_ || _); reflexivity.
Qed.

(** ** create_dir and create_file, call by call *)

(** [inv_run H as H1]: from [H : (x <- c ;; k) m = Ok b m'], the run of
    [c] as [H1] and the run of [k] as [H]. *)
Tactic Notation "inv_run" hyp(H) "as" ident(H1) :=
  let a := fresh "a" in
  let m := fresh "m" in
  apply bind_ok_inv in H as (a & m & H1 & H).

(** Case analysis on the condition of the first [if] (or the scrutinee of
    the first [match] on an option) of hypothesis [H]. *)
Ltac case_in H :=
  revert H;
  match goal with
  | |- context [if ?c then _ else _] => destruct c eqn:?
  | |- context [match ?c with Some _ => _ | None => _ end] => destruct c eqn:?
  end;
  intros H.

Lemma mkdir_modes_app l1 l2 :
  mkdir_modes (l1 ++ l2) = mkdir_modes l1 ++ mkdir_modes l2.
Proof.
  induction l1 as [|e l1 IH]; [reflexivity|].
  destruct e; cbn [app mkdir_modes]; rewrite ?IH; reflexivity.
Qed.

Lemma replicate_snoc {A} n (x : A) : replicate n x ++ [x] = replicate (S n) x.
Proof.
  induction n as [|n IH]; [reflexivity|].
  cbn [replicate app]. rewrite IH. reflexivity.
Qed.

Lemma strip_buffer_eq s last :
  strlen s = S last ->
  strip_buffer s = if Byte.eqb (idx s last) x2f then <[last := x00]> s else s.
Proof. intros Hs. unfold strip_buffer. rewrite Hs. reflexivity. Qed.

Section Calls.

Context {W : Type} `{Libc W}.

Lemma mkdir_run p mode (m : machine W) :
  mkdir p mode m
  = Ok (fst (libc_mkdir p mode (world m)))
       (Machine (input m) (snd (libc_mkdir p mode (world m)))
                (log m ++ [Mkdir p mode (fst (libc_mkdir p mode (world m)))])).
Proof. reflexivity. Qed.

Lemma fopen_run p (m : machine W) :
  fopen p m
  = Ok (fst (libc_fopen p (world m)))
       (Machine (input m) (snd (libc_fopen p (world m)))
                (log m ++ [Fopen p (fst (libc_fopen p (world m)))])).
Proof. reflexivity. Qed.

(** A call that succeeds at once, or that fails on a name without '/',
    is one [mkdir] and, on failure, the complaint: no parent is tried. *)
Theorem create_dir_without_retry pathname mode (m : machine W) :
  terminated pathname = true ->
  idx pathname 0 <> x00 ->
  let name := strip_slash (cstr pathname) in
  let r := fst (libc_mkdir name mode (world m)) in
  r = 0 \/ strrchr (strip_buffer pathname) x2f = None ->
  create_dir pathname mode m
  = Ok (strip_buffer pathname)
       (Machine (input m) (snd (libc_mkdir name mode (world m)))
                (log m ++ Mkdir name mode r
                       :: (if r =? 0 then []
                           else [Say (Could_not_create_directory name)]))).
Proof.
  intros Hterm Hne name r Hcase.
  pose proof (strlen_pos _ Hne) as Hpos.
  destruct (strlen pathname) as [|last] eqn:Hs; [lia|].
  rewrite (strip_buffer_eq _ _ Hs) in *.
  unfold create_dir. cbn [create_dir_rec]. rewrite Hterm, Hs. cbn [negb].
  pose proof (cstr_strip _ _ Hs) as Hname. fold name in Hname.
  set (p1 := if Byte.eqb (idx pathname last) x2f then _ else _) in *.
  clearbody p1.
  unfold bind at 1. rewrite mkdir_run, Hname. fold r.
  destruct (r =? 0) eqn:Hr; cbn [negb].
  - unfold bind, ret. cbn [fst snd]. rewrite Hr. reflexivity.
  - destruct Hcase as [->|Hnone]; [discriminate|]. rewrite Hnone.
    unfold bind, ret. cbn [fst snd]. rewrite Hr. cbn [negb].
    rewrite say_run. cbn [input world log]. rewrite Hname, <- app_assoc.
    reflexivity.
Qed.

(** What any defined call of the recursion adds to the log: calls of
    [mkdir] and complaints, nothing else; the first and the last [mkdir]
    with the caller's mode and those between, for the parents, with 0755;
    at most two calls per byte of the name. *)
Lemma create_dir_rec_calls fuel pathname mode (m : machine W) buff' m' :
  create_dir_rec fuel pathname mode m = Ok buff' m' ->
  input m' = input m
  /\ exists tl,
       log m' = log m ++ tl
       /\ Forall (fun e => mkdir_or_diag e = true) tl
       /\ (exists k, mkdir_modes tl = [mode]
                     \/ mkdir_modes tl = mode :: replicate (S k) 493 ++ [mode])
       /\ (length (mkdir_modes tl) <= 2 * strlen pathname)%nat.
Proof.
  revert pathname mode m buff' m'.
  induction fuel as [|fuel IH]; intros pathname mode m buff' m' Hrun;
    [discriminate|].
  cbn [create_dir_rec] in Hrun.
  destruct (terminated pathname); [|discriminate]. cbn [negb] in Hrun.
  destruct (strlen pathname) as [|last] eqn:Hs; [discriminate|].
  pose proof (stripped_strlen pathname last Hs) as Hlen1.
  set (p1 := if Byte.eqb (idx pathname last) x2f then _ else _) in *.
  clearbody p1.
  inv_run Hrun as Hmk. rewrite mkdir_run in Hmk. injection Hmk as <- <-.
  set (r := fst (libc_mkdir (cstr p1) mode (world m))) in *.
  set (w1 := snd (libc_mkdir (cstr p1) mode (world m))) in *.
  clearbody r w1.
  inv_run Hrun as Hretry.
  assert (input m0 = input m
          /\ exists mid,
               log m0 = (log m ++ [Mkdir (cstr p1) mode r]) ++ mid
               /\ Forall (fun e => mkdir_or_diag e = true) mid
               /\ (exists k, mkdir_modes mid = []
                             \/ mkdir_modes mid = replicate (S k) 493 ++ [mode])
               /\ (length (mkdir_modes mid) <= 2 * last + 1)%nat)
    as (Hin & mid & Hlog & Hall & Hmodes & Hcount).
  { case_in Hretry.
    2:{ apply ret_ok_inv in Hretry as [_ <-]. split; [reflexivity|].
        exists []. cbn [log]. rewrite app_nil_r.
        repeat split; [constructor|exists O; now left|cbn; lia]. }
    case_in Hretry.
    2:{ apply ret_ok_inv in Hretry as [_ <-]. split; [reflexivity|].
        exists []. cbn [log]. rewrite app_nil_r.
        repeat split; [constructor|exists O; now left|cbn; lia]. }
    match goal with Hp : strrchr p1 x2f = Some ?p |- _ =>
      destruct (strrchr_spec _ _ _ Hp) as [Hplen _]; rename p into q end.
    inv_run Hretry as Hrec.
    apply IH in Hrec as (Hin1 & tl1 & Hlog1 & Hall1 & [k Hmodes1] & Hcount1).
    rewrite strlen_insert_nul in Hcount1 by assumption.
    inv_run Hretry as Hmk. rewrite mkdir_run in Hmk. injection Hmk as <- <-.
    apply ret_ok_inv in Hretry as [_ <-]. cbn [input log] in *.
    split; [assumption|].
    eexists (tl1 ++ [Mkdir _ mode _]). rewrite Hlog1, <- !app_assoc.
    split; [reflexivity|]. rewrite mkdir_modes_app. cbn [mkdir_modes].
    split; [|split].
    - apply Forall_app. split; [assumption|]. repeat constructor.
    - destruct Hmodes1 as [E|E]; rewrite E.
      + exists O. right. reflexivity.
      + exists (S (S k)). right. cbn [replicate app]. do 2 f_equal.
        rewrite replicate_snoc. reflexivity.
    - rewrite length_app. cbn [length]. lia. }
  inv_run Hrun as Hsay. apply ret_ok_inv in Hrun as [_ <-].
  assert (exists t, log m1 = log m0 ++ t /\ input m1 = input m0
                    /\ Forall (fun e => mkdir_or_diag e = true) t
                    /\ mkdir_modes t = [])
    as (t & Hlog2 & Hin2 & Hall2 & Hmodes2).
  { case_in Hsay.
    - rewrite say_run in Hsay. injection Hsay as _ <-. eexists. cbn [log input].
      repeat split. repeat constructor.
    - apply ret_ok_inv in Hsay as [_ <-]. exists []. rewrite app_nil_r.
      repeat split. constructor. }
  split; [congruence|].
  exists (Mkdir (cstr p1) mode r :: mid ++ t).
  rewrite Hlog2, Hlog, <- !app_assoc. split; [reflexivity|].
  split; [|split].
  - apply Forall_cons_2; [reflexivity|]. apply Forall_app. auto.
  - cbn [mkdir_modes]. rewrite mkdir_modes_app, Hmodes2, app_nil_r.
    destruct Hmodes as [k [E|E]]; rewrite E; exists k; auto.
  - cbn [mkdir_modes length]. rewrite mkdir_modes_app, Hmodes2, app_nil_r. lia.
Qed.

(** When the only '/' left of a name is the one it starts with and
    [mkdir] fails, the parent is the empty string: the recursive call
    reads [pathname[-1]], before the start of the string. *)
Theorem create_dir_root_parent_undefined pathname mode (m : machine W) :
  terminated pathname = true ->
  strrchr (strip_buffer pathname) x2f = Some O ->
  fst (libc_mkdir (strip_slash (cstr pathname)) mode (world m)) <> 0 ->
  create_dir pathname mode m = Fault Undefined.
Proof.
  intros Hterm Hroot Hfail.
  unfold create_dir. cbn [create_dir_rec]. rewrite Hterm. cbn [negb].
  destruct (strlen pathname) as [|last] eqn:Hs; [reflexivity|].
  rewrite (strip_buffer_eq _ _ Hs) in Hroot.
  rewrite <- (cstr_strip _ _ Hs) in Hfail.
  assert (exists n, length pathname = S n) as [n Hn].
  { pose proof (strlen_le pathname). exists (length pathname - 1)%nat. lia. }
  set (p1 := if Byte.eqb (idx pathname last) x2f then _ else _) in *.
  clearbody p1.
  unfold bind at 1. rewrite mkdir_run.
  apply Z.eqb_neq in Hfail. cbv beta iota. rewrite Hfail, Hroot. cbn [negb].
  destruct (strrchr_spec _ _ _ Hroot) as [Hlen _].
  rewrite Hn. unfold bind at 1. unfold bind at 1. cbn [create_dir_rec].
  rewrite terminated_insert_nul, strlen_insert_nul by assumption.
  reflexivity.
Qed.

(** What a defined call of [create_file] adds to the log: one [fopen], or
    a failed [fopen], the calls of [create_dir] on the parent with mode
    0755, and a second [fopen]; the handle returned is the result of the
    last one. *)
Lemma create_file_calls buff mode (m : machine W) f buff' m' :
  create_file buff mode m = Ok (f, buff') m' ->
  input m' = input m
  /\ exists tl,
       log m' = log m ++ tl
       /\ (tl = [Fopen (cstr buff) f]
           \/ exists mid k,
                tl = Fopen (cstr buff) None
                       :: mid ++ [Fopen (cstr buff') f]
                /\ Forall (fun e => mkdir_or_diag e = true) mid
                /\ mkdir_modes mid = replicate (S k) 493).
Proof.
  unfold create_file, c_str. intros Hrun.
  destruct (terminated buff); [|discriminate].
  inv_run Hrun as Hname. apply ret_ok_inv in Hname as [<- <-].
  inv_run Hrun as Hopen. rewrite fopen_run in Hopen. injection Hopen as <- <-.
  set (fo := fst (libc_fopen (cstr buff) (world m))) in *.
  set (w1 := snd (libc_fopen (cstr buff) (world m))) in *.
  clearbody fo w1.
  destruct fo as [h|].
  { apply ret_ok_inv in Hrun as [E <-]. injection E as <- <-.
    split; [reflexivity|]. eexists. split; [reflexivity|]. now left. }
  case_in Hrun.
  2:{ apply ret_ok_inv in Hrun as [E <-]. injection E as <- <-.
      split; [reflexivity|]. eexists. split; [reflexivity|]. now left. }
  inv_run Hrun as Hdir.
  apply create_dir_rec_calls in Hdir as (Hin & mid & Hlog & Hall & [k Hmodes] & _).
  inv_run Hrun as Hopen. rewrite fopen_run in Hopen. injection Hopen as <- <-.
  apply ret_ok_inv in Hrun as [E <-]. injection E as <- <-.
  cbn [input log] in *. split; [assumption|].
  eexists. rewrite Hlog, <- !app_assoc. split; [reflexivity|]. right.
  cbn [app].
  destruct Hmodes as [E|E].
  - exists mid, O. auto.
  - exists mid, (S (S k)). repeat split; [assumption|]. rewrite E.
    cbn [replicate app]. do 2 f_equal. apply replicate_snoc.
Qed.

(** [create_file] on a name that does not start with '/' and has no two
    '/' in a row: the call is defined and gives the buffer back as it
    found it; it calls [fopen] once or, when that fails and the name has a
    '/', a second time on the same name, with only [mkdir] calls of mode
    0755 between the two.  The mode it is passed is put to no use: the
    call is the same whatever the mode. *)
Theorem create_file_attempts buff mode (m : machine W) :
  terminated buff = true ->
  idx buff 0 <> x2f ->
  no_double_slash buff ->
  (forall mode', create_file buff mode' m = create_file buff mode m)
  /\ exists f m',
       create_file buff mode m = Ok (f, buff) m'
       /\ input m' = input m
       /\ exists tl,
            log m' = log m ++ tl
            /\ (tl = [Fopen (cstr buff) f]
                \/ exists mid k,
                     tl = Fopen (cstr buff) None
                            :: mid ++ [Fopen (cstr buff) f]
                     /\ Forall (fun e => mkdir_or_diag e = true) mid
                     /\ mkdir_modes mid = replicate (S k) 493).
Proof.
  intros Hterm Hrel Hclean. split; [reflexivity|].
  destruct (create_file_defined buff mode m Hterm Hrel) as ([f buff'] & m' & Hrun).
  assert (buff' = buff) as ->.
  { revert Hrun. unfold create_file, c_str. rewrite Hterm. intros Hrun.
    inv_run Hrun as Hname. apply ret_ok_inv in Hname as [<- <-].
    inv_run Hrun as Hopen. clear Hopen.
    destruct a as [h|]; [apply ret_ok_inv in Hrun as [E _]; congruence|].
    case_in Hrun; [|apply ret_ok_inv in Hrun as [E _]; congruence].
    match goal with Hp : strrchr buff x2f = Some ?p |- _ =>
      destruct (strrchr_spec _ _ _ Hp) as [Hplen Hpc]; rename p into q end.
    assert (q <> O) by (intros ->; congruence).
    inv_run Hrun as Hdir.
    apply create_dir_rec_frame in Hdir.
    2:{ rewrite idx_insert_ne by lia. assumption. }
    2:{ apply no_double_slash_cut; assumption. }
    inv_run Hrun as Hopen. apply ret_ok_inv in Hrun as [E _].
    injection E as _ <-. subst a.
    rewrite (strip_buffer_no_slash _ (q - 1)).
    - apply insert_restore; [|assumption]. pose proof (strlen_le buff). lia.
    - rewrite strlen_insert_nul by assumption. lia.
    - rewrite idx_insert_ne by lia. intros Hprev.
      apply (Hclean (q - 1)%nat); [lia|assumption|].
      replace (S (q - 1)) with q by lia. assumption. }
  exists f, m'. split; [assumption|].
  apply create_file_calls in Hrun. exact Hrun.
Qed.

(** When the only '/' of a name is the one it starts with and [fopen]
    fails, [create_file] calls [create_dir] on the empty string, which
    reads before the start of it. *)
Theorem create_file_root_parent_undefined buff mode (m : machine W) :
  terminated buff = true ->
  strrchr buff x2f = Some O ->
  fst (libc_fopen (cstr buff) (world m)) = None ->
  create_file buff mode m = Fault Undefined.
Proof.
  intros Hterm Hroot Hfail.
  unfold create_file, c_str. rewrite Hterm.
  unfold bind at 1, ret at 1. unfold bind at 1. rewrite fopen_run, Hfail, Hroot.
  destruct (strrchr_spec _ _ _ Hroot) as [Hlen _].
  assert (exists n, length buff = S n) as [n Hn].
  { pose proof (strlen_le buff). exists (length buff - 1)%nat. lia. }
  unfold bind at 1. unfold create_dir. rewrite length_insert, Hn.
  cbn [create_dir_rec].
  rewrite terminated_insert_nul, strlen_insert_nul by assumption.
  reflexivity.
Qed.

End Calls.

(** ** untar, entry by entry *)

Lemma parseoct_digits_int sgn i p n :
  - 2 ^ 31 <= i < 2 ^ 31 -> - 2 ^ 31 <= parseoct_digits sgn i p n < 2 ^ 31.
Proof.
  revert i p. induction n as [|n IH]; intros i p Hi; [exact Hi|].
  cbn [parseoct_digits]. destruct (_ && _); [|exact Hi].
  apply IH, int_wrap_range.
Qed.

(** [parseoct] returns an [int]. *)
Lemma parseoct_int sgn p n : - 2 ^ 31 <= parseoct sgn p n < 2 ^ 31.
Proof.
  unfold parseoct. destruct (parseoct_skip sgn p n) as [q k].
  apply parseoct_digits_int. lia.
Qed.

(** A block with one byte changed outside its checksum field: the sum
    moves by the difference of the two bytes, the stored number stays. *)
Lemma changed_block sgn (p : list byte) i b :
  (i < 512)%nat -> (i < length p)%nat -> ~ (148 <= i < 156)%nat ->
  sum_terms (checksum_term sgn (<[i := b]> p)) 0 512
  = sum_terms (checksum_term sgn p) 0 512
    + (char_val sgn b - char_val sgn (idx p i))
  /\ parseoct sgn (drop 148 (<[i := b]> p)) 8 = parseoct sgn (drop 148 p) 8.
Proof.
  intros Hi Hlen Hout. split.
  - rewrite (sum_terms_one_change (checksum_term sgn p) _ 0 512 i) by
      (try lia; intros k Hk; unfold checksum_term;
       rewrite idx_insert_ne by congruence; reflexivity).
    unfold checksum_term.
    replace ((i <? 148)%nat || (155 <? i)%nat) with true.
    2:{ symmetry. apply orb_true_iff. rewrite Nat.ltb_lt, Nat.ltb_lt. lia. }
    rewrite idx_insert_eq by assumption. reflexivity.
  - apply parseoct_prefix.
    destruct (decide (i < 148)%nat).
    + rewrite drop_insert_lt by lia. reflexivity.
    + rewrite drop_insert_ge by lia. rewrite take_insert_ge by lia. reflexivity.
Qed.

Lemma char_val_low sgn b : - 128 <= char_val sgn b.
Proof.
  unfold char_val. pose proof (byte_val_range b).
  destruct (sgn && _) eqn:E; [|lia].
  apply andb_true_iff in E as [_ E]. apply Z.leb_le in E. lia.
Qed.

(** A header that verified, with one byte outside the checksum field
    changed: it fails the check, and it is not the end-of-archive block
    either. *)
Lemma changed_header sgn (hdr : list byte) i b :
  length hdr = 512%nat ->
  verify_checksum sgn hdr = true ->
  (i < 512)%nat -> ~ (148 <= i < 156)%nat -> b <> idx hdr i ->
  is_end_of_archive sgn (<[i := b]> hdr) = false
  /\ verify_checksum sgn (<[i := b]> hdr) = false.
Proof.
  intros Hlen Hv Hi Hout Hb.
  rewrite verify_checksum_eq in Hv. apply Z.eqb_eq in Hv.
  destruct (changed_block sgn hdr i b) as [Hsum Hfld]; [lia..|].
  split.
  - destruct (is_end_of_archive sgn (<[i := b]> hdr)) eqn:E; [|reflexivity].
    exfalso. pose proof (is_end_of_archive_spec _ _ E) as Hz.
    rewrite (zero_block_sum sgn _ Hz) in Hsum.
    rewrite (zero_block_field sgn _ Hz) in Hfld.
    assert (b = x00) as ->.
    { rewrite <- (Hz i) by lia. rewrite idx_insert_eq by lia. reflexivity. }
    pose proof (char_val_low sgn (idx hdr i)).
    assert (char_val sgn x00 = 0) as E0 by (destruct sgn; reflexivity).
    lia.
  - rewrite verify_checksum_eq. apply Z.eqb_neq. rewrite Hfld, Hsum, <- Hv.
    assert (char_val sgn b <> char_val sgn (idx hdr i)); [|lia].
    intros E. apply char_val_inj in E. contradiction.
Qed.

Section Entries.

Context {W : Type} `{Libc W}.
Variable sgn : bool.

(** A header read that comes up short, the empty stream included: [untar]
    reports how many bytes it got and returns; it has read what there was
    and called nothing else. *)
Theorem short_header_read fuel path f (inp : list byte) (w : W) l :
  (length inp < 512)%nat ->
  untar_loop sgn (S fuel) path f (Machine inp w l)
  = Ok Ret_short_header
       (Machine [] w
          (l ++ [Fread (length inp);
                 Say (Short_read_header path (length inp))]))
  /\ untar sgn inp path w
     = Ok Ret_short_header
          (Machine [] w
             [Say (Extracting_from path); Fread (length inp);
              Say (Short_read_header path (length inp))]).
Proof.
  intros Hshort.
  assert (forall fuel l,
            untar_loop sgn (S fuel) path f (Machine inp w l)
            = Ok Ret_short_header
                (Machine [] w
                   (l ++ [Fread (length inp);
                          Say (Short_read_header path (length inp))])))
    as Hloop.
  { intros fuel' l'. cbn [untar_loop]. unfold bind at 1, fread.
    cbn [input world log].
    rewrite take_ge, drop_ge by lia.
    replace (length inp <? 512)%nat with true
      by (symmetry; apply Nat.ltb_lt; assumption).
    unfold bind. rewrite say_run. cbn [input world log].
    rewrite <- app_assoc. reflexivity. }
  split; [apply Hloop|].
  unfold untar, bind at 1. rewrite say_run. cbn [input world log app].
  cbn [untar_loop]. unfold bind at 1, fread. cbn [input world log].
  rewrite take_ge, drop_ge by lia.
  replace (length inp <? 512)%nat with true
    by (symmetry; apply Nat.ltb_lt; assumption).
  reflexivity.
Qed.

(** A header that verified and then had one byte outside its checksum
    field changed stops the extraction: [untar] reports the checksum
    failure and returns, having called nothing for the entry; what follows
    the header is left unread. *)
Theorem corrupted_header_stops fuel path f (hdr rest : list byte) i b
    (w : W) l :
  length hdr = 512%nat ->
  verify_checksum sgn hdr = true ->
  (i < 512)%nat -> ~ (148 <= i < 156)%nat -> b <> idx hdr i ->
  untar_loop sgn (S fuel) path f (Machine (<[i := b]> hdr ++ rest) w l)
  = Ok Ret_checksum_failure
       (Machine rest w (l ++ [Fread 512; Say Checksum_failure])).
Proof.
  intros Hlen Hv Hi Hout Hb.
  destruct (changed_header sgn hdr i b Hlen Hv Hi Hout Hb) as [Hend Hsum].
  rewrite untar_loop_step by (rewrite length_insert; assumption).
  rewrite Hend, Hsum. reflexivity.
Qed.

(** An entry of a type [untar] passes over. *)
Lemma dispatch_ignored k f (hdr : list byte) (m : machine W) :
  length hdr = 512%nat ->
  idx hdr 156 = ignored_flag k ->
  dispatch sgn (hdr ++ [x00; x00]) f m
  = Ok (parseoct sgn (drop 124 hdr) 12, hdr ++ [x00; x00], f)
       (Machine (input m) (world m) (log m ++ [Say (Ignoring k (cstr hdr))])).
Proof.
  intros Hlen Hflag. unfold dispatch. unfold bind at 1.
  rewrite c_str_buffer, idx_buffer, Hflag by lia.
  rewrite !char_val_eqb by lia.
  rewrite !parseoct_field_of_block by lia.
  destruct k; reflexivity.
Qed.

(** A hard link, symbolic link, device or FIFO: [untar] names it and
    calls nothing for it, then reads the payload blocks its size field
    declares, and goes on to the next header. *)
Theorem ignored_entry_skipped k fuel path (hdr blocks rest : list byte)
    (w : W) l :
  length hdr = 512%nat ->
  verify_checksum sgn hdr = true ->
  idx hdr 156 = ignored_flag k ->
  let filesize := parseoct sgn (drop 124 hdr) 12 in
  length blocks = (512 * payload_blocks filesize)%nat ->
  (payload_blocks filesize <= fuel)%nat ->
  untar_loop sgn (S fuel) path None (Machine (hdr ++ blocks ++ rest) w l)
  = untar_loop sgn fuel path None
      (Machine rest w
         (l ++ [Fread 512; Say (Ignoring k (cstr hdr))]
            ++ replicate (payload_blocks filesize) (Fread 512))).
Proof.
  intros Hlen Hv Hflag filesize Hblocks Hfuel.
  rewrite untar_loop_step by assumption.
  rewrite (verify_checksum_not_end _ _ Hv), Hv. cbn [negb].
  unfold bind at 1. rewrite (dispatch_ignored k) by assumption.
  cbn [fst snd input world log]. fold filesize.
  unfold payload_then, bind at 1.
  rewrite drain_none by (assumption || apply parseoct_int).
  unfold close_output, bind, ret. rewrite <- !app_assoc. reflexivity.
Qed.

(** A regular file that cannot be opened: once [create_file] has
    returned [NULL], the payload blocks of the entry are read and nothing
    is written, and [untar] goes on to the next header. *)
Theorem unopened_entry_drained fuel path (hdr blocks rest : list byte)
    (w : W) l buff' m1 :
  length hdr = 512%nat ->
  verify_checksum sgn hdr = true ->
  regular_flag (idx hdr 156) ->
  let filesize := parseoct sgn (drop 124 hdr) 12 in
  length blocks = (512 * payload_blocks filesize)%nat ->
  (payload_blocks filesize <= fuel)%nat ->
  create_file (hdr ++ [x00; x00]) (parseoct sgn (drop 100 hdr) 8)
    (Machine (blocks ++ rest) w
             (l ++ [Fread 512; Say (Extracting_file (cstr hdr))]))
  = Ok (None, buff') m1 ->
  untar_loop sgn (S fuel) path None (Machine (hdr ++ blocks ++ rest) w l)
  = untar_loop sgn fuel path None
      (Machine rest (world m1)
         (log m1 ++ replicate (payload_blocks filesize) (Fread 512))).
Proof.
  intros Hlen Hv Hflag filesize Hblocks Hfuel Hfile.
  rewrite untar_loop_step by assumption.
  rewrite (verify_checksum_not_end _ _ Hv), Hv. cbn [negb].
  unfold bind at 1. rewrite dispatch_file by assumption.
  unfold bind at 1. rewrite say_run. cbn [input world log].
  rewrite <- app_assoc. cbn [app].
  unfold bind at 1. rewrite Hfile. unfold ret at 1. cbn [fst snd].
  fold filesize.
  pose proof (create_file_calls _ _ _ _ _ _ Hfile) as [Hin _].
  destruct m1 as [inp1 w1 l1]. cbn [input world log] in *. subst inp1.
  unfold payload_then, bind at 1.
  rewrite drain_none by (assumption || apply parseoct_int).
  reflexivity.
Qed.

(** The header of a well-formed regular file that the library opens:
    the loop goes into the payload loop with the file open. *)
Lemma file_entry_opened h fuel path (hdr rest : list byte) size
    (w w1 : W) l :
  file_header hdr size ->
  0 <= size < 2 ^ 31 ->
  sgn = false \/ seven_bit hdr ->
  libc_fopen (cstr hdr) w = (Some h, w1) ->
  untar_loop sgn (S fuel) path None (Machine (hdr ++ rest) w l)
  = payload_then (untar_loop sgn fuel path) fuel path size
      (hdr ++ [x00; x00]) (Some h)
      (Machine rest w1
         (l ++ [Fread 512; Say (Extracting_file (cstr hdr));
                Fopen (cstr hdr) (Some h)])).
Proof.
  intros (Hlen & Hsum & Hflag & Hdecl) Hsize Hsgn Hopen.
  pose proof (checksum_valid_verifies sgn hdr Hlen Hsum Hsgn) as Hv.
  rewrite untar_loop_step by assumption.
  rewrite (verify_checksum_not_end _ _ Hv), Hv. cbn [negb].
  unfold bind at 1. rewrite dispatch_file by assumption.
  unfold bind at 1. rewrite say_run. cbn [input world log].
  unfold bind at 1. rewrite (create_file_opens _ _ _ _ _ _ _ Hopen).
  unfold ret at 1. cbn [fst snd].
  rewrite (declared_size_parsed sgn hdr _ Hlen Hdecl) by lia.
  rewrite <- !app_assoc. reflexivity.
Qed.

(** A well-formed regular file anywhere in an archive, with a library
    that opens it and takes every write in full: the file is opened, gets
    its payload block by block and is closed, the padding is read with the
    last block, and [untar] goes on to the header that follows.  [Inv] is
    what the library needs to hold to keep taking writes. *)
Theorem file_entry_extracted (Inv : W -> Prop) h fuel path
    (hdr payload rest : list byte) (w w1 : W) l :
  file_header hdr (Z.of_nat (length payload)) ->
  Z.of_nat (length payload) < 2 ^ 31 ->
  sgn = false \/ seven_bit hdr ->
  libc_fopen (cstr hdr) w = (Some h, w1) ->
  Inv w1 ->
  (forall d w, Inv w ->
     fst (libc_fwrite h d w) = Z.of_nat (length d)
     /\ Inv (snd (libc_fwrite h d w))) ->
  (payload_blocks (Z.of_nat (length payload)) <= fuel)%nat ->
  exists w',
    Inv w'
    /\ untar_loop sgn (S fuel) path None
         (Machine (hdr ++ Ustar.padded payload ++ rest) w l)
       = untar_loop sgn fuel path None
           (Machine rest (libc_fclose h w')
              (l ++ [Fread 512; Say (Extracting_file (cstr hdr));
                     Fopen (cstr hdr) (Some h)]
                 ++ payload_events h
                      (payload_blocks (Z.of_nat (length payload))) payload
                 ++ [Fclose h])).
Proof.
  intros Hfh Hsize Hsgn Hopen Hinv Hwrite Hfuel.
  destruct (drain_full_writes Inv h fuel path payload (hdr ++ [x00; x00])
              rest w1
              (l ++ [Fread 512; Say (Extracting_file (cstr hdr));
                     Fopen (cstr hdr) (Some h)])
              Hwrite Hinv Hsize Hfuel) as (w' & Hinv' & Hdrain).
  exists w'. split; [assumption|].
  rewrite (file_entry_opened h fuel path hdr _ _ w w1 l Hfh) by (lia || assumption).
  unfold payload_then, bind at 1. rewrite Hdrain.
  unfold close_output, bind, fclose, ret. cbn [input world log].
  rewrite <- !app_assoc. reflexivity.
Qed.

(** A payload read that comes up short ends the run there and then: the
    bytes it got are not written, whether or not they are all the entry
    has left, and the output, if one is open, is not closed.  [loop] is
    the head of the outer loop. *)
Theorem short_payload_read_returns (loop : option handle -> M W outcome)
    fuel path filesize buff f (inp : list byte) (w : W) l :
  0 < filesize ->
  (length inp < 512)%nat ->
  payload_then loop (S fuel) path filesize buff f (Machine inp w l)
  = Ok Ret_short_payload
       (Machine [] w
          (l ++ [Fread (length inp);
                 Say (Short_read_payload path (length inp))])).
Proof.
  intros Hpos Hshort. unfold payload_then, bind at 1.
  rewrite drain_turn by assumption.
  unfold bind at 1, payload_block, bind at 1, fread. cbn [input world log].
  rewrite (take_ge inp 512), (drop_ge inp 512) by lia.
  replace (Z.of_nat (length inp) <? 512) with true
    by (symmetry; apply Z.ltb_lt; lia).
  unfold bind. rewrite say_run. cbn [input world log].
  unfold ret. rewrite <- app_assoc. reflexivity.
Qed.

End Entries.

(** ** The output files of a whole run *)

Lemma follow_app cur l1 l2 :
  follow cur (l1 ++ l2)
  = match follow cur l1 with
    | Some cur' => follow cur' l2
    | None => None
    end.
Proof.
  revert cur. induction l1 as [|e l1 IH]; intros cur; [reflexivity|].
  destruct e; cbn [app follow]; try apply IH.
  - destruct cur; [reflexivity|apply IH].
  - destruct cur as [h'|]; [|reflexivity].
    destruct (_ =? _)%nat; [apply IH|reflexivity].
  - destruct cur as [h'|]; [|reflexivity].
    destruct (_ =? _)%nat; [apply IH|reflexivity].
Qed.

(** Calls of [mkdir] and complaints leave the output as it is. *)
Lemma follow_mkdirs cur l :
  Forall (fun e => mkdir_or_diag e = true) l -> follow cur l = Some cur.
Proof.
  induction 1 as [|e l He _ IH]; [reflexivity|].
  destruct e; try discriminate; exact IH.
Qed.

Section Outputs.

Context {W : Type} `{Libc W}.
Variable sgn : bool.

Lemma create_file_follow buff mode (m : machine W) f buff' m' :
  create_file buff mode m = Ok (f, buff') m' ->
  exists tl, log m' = log m ++ tl /\ follow None tl = Some f.
Proof.
  intros Hrun.
  apply create_file_calls in Hrun as (_ & tl & Hlog & Htl).
  exists tl. split; [assumption|].
  destruct Htl as [->|(mid & k & -> & Hmid & _)]; [reflexivity|].
  cbn [follow]. rewrite follow_app, (follow_mkdirs _ _ Hmid). reflexivity.
Qed.

(** The dispatch, entered with no output open, leaves open what it
    returns as [f]. *)
Lemma dispatch_follow buff (m : machine W) d m' :
  dispatch sgn buff None m = Ok d m' ->
  exists tl, log m' = log m ++ tl /\ follow None tl = Some (snd d).
Proof.
  unfold dispatch, c_str. intros Hrun.
  apply bind_ok_inv in Hrun as (name & m0 & Hname & Hrun).
  assert (m0 = m) as ->.
  { case_in Hname; [|discriminate]. apply ret_ok_inv in Hname as [_ ->].
    reflexivity. }
  assert (forall (k : ignored) (x : Z * list byte),
            (say (Ignoring k name) ;;; ret (x, None)) m = Ok d m' ->
            exists tl, log m' = log m ++ tl /\ follow None tl = Some (snd d))
    as Hskip.
  { intros k x E. injection E as <- <-. eexists. split; reflexivity. }
  repeat (case_in Hrun; [eapply Hskip; eassumption|]).
  case_in Hrun.
  - inv_run Hrun as Hsay. rewrite say_run in Hsay. injection Hsay as _ <-.
    inv_run Hrun as Hdir. apply ret_ok_inv in Hrun as [<- <-].
    apply create_dir_rec_calls in Hdir as (_ & tl & Hlog & Hall & _).
    cbn [log] in Hlog. exists (Say (Extracting_dir name) :: tl).
    rewrite Hlog, <- app_assoc. split; [reflexivity|].
    cbn [follow snd]. apply follow_mkdirs, Hall.
  - case_in Hrun; [eapply Hskip; eassumption|].
    inv_run Hrun as Hsay. rewrite say_run in Hsay. injection Hsay as _ <-.
    apply bind_ok_inv in Hrun as ([f buff'] & mf & Hfile & Hrun).
    apply ret_ok_inv in Hrun as [<- <-].
    apply create_file_follow in Hfile as (tl & Hlog & Hf).
    cbn [log] in Hlog. exists (Say (Extracting_file name) :: tl).
    rewrite Hlog, <- app_assoc. split; [reflexivity|]. exact Hf.
Qed.

(** A turn of the payload loop writes to the output that is open, if one
    is, and closes it when the write comes up short. *)
Lemma payload_block_follow path filesize buff f (m : machine W) r m' :
  payload_block path filesize buff f m = Ok r m' ->
  exists tl,
    log m' = log m ++ tl
    /\ follow f tl
       = Some match r with
              | Continue (_, _, f') => f'
              | Return _ => f
              end.
Proof.
  unfold payload_block. intros Hrun.
  inv_run Hrun as Hread. unfold fread in Hread. injection Hread as <- <-.
  case_in Hrun.
  { injection Hrun as <- <-. eexists. cbn [log]. rewrite <- app_assoc.
    split; [reflexivity|]. reflexivity. }
  inv_run Hrun as Hwrite. apply ret_ok_inv in Hrun as [<- <-].
  destruct f as [h|].
  - inv_run Hwrite as Hop. unfold fwrite in Hop. injection Hop as <- <-.
    case_in Hwrite.
    + injection Hwrite as <- <-. eexists. cbn [log]. rewrite <- !app_assoc.
      split; [reflexivity|]. cbn [app follow]. rewrite Nat.eqb_refl.
      reflexivity.
    + apply ret_ok_inv in Hwrite as [<- <-]. eexists. cbn [log].
      rewrite <- !app_assoc. split; [reflexivity|].
      cbn [app follow]. rewrite Nat.eqb_refl. reflexivity.
  - apply ret_ok_inv in Hwrite as [<- <-]. eexists. split; reflexivity.
Qed.

Lemma drain_follow fuel path filesize buff f (m : machine W) r m' :
  drain fuel path filesize buff f m = Ok r m' ->
  exists tl cur,
    log m' = log m ++ tl
    /\ follow f tl = Some cur
    /\ match r with
       | Continue f' => cur = f'
       | Return o => o = Ret_short_payload
       end.
Proof.
  revert filesize buff f m.
  induction fuel as [|fuel IH]; intros filesize buff f m Hrun;
    destruct (Z.lt_ge_cases 0 filesize) as [Hpos|Hle];
    try (rewrite drain_done in Hrun by assumption;
         apply ret_ok_inv in Hrun as [<- <-];
         exists [], f; rewrite app_nil_r; auto).
  - cbn [drain] in Hrun.
    replace (0 <? filesize) with true in Hrun
      by (symmetry; apply Z.ltb_lt; assumption).
    discriminate.
  - rewrite drain_turn in Hrun by assumption.
    inv_run Hrun as Hblock.
    pose proof Hblock as Hblock'.
    apply payload_block_follow in Hblock as (tl1 & Hlog1 & Hf1).
    destruct a as [[[filesize' buff'] f']|o].
    + apply IH in Hrun as (tl2 & cur & Hlog2 & Hf2 & Hr).
      exists (tl1 ++ tl2), cur. rewrite Hlog2, Hlog1, <- app_assoc.
      split; [reflexivity|]. rewrite follow_app, Hf1. auto.
    + apply ret_ok_inv in Hrun as [<- <-].
      exists tl1, f. repeat split; try assumption.
      revert Hblock'. unfold payload_block. intros Hrun.
      inv_run Hrun as Hread. case_in Hrun.
      * injection Hrun as <- _. reflexivity.
      * inv_run Hrun as Hwrite. discriminate.
Qed.

Lemma untar_loop_follow fuel path (m : machine W) o m' :
  untar_loop sgn fuel path None m = Ok o m' ->
  exists tl cur,
    log m' = log m ++ tl
    /\ follow None tl = Some cur
    /\ (o <> Ret_short_payload -> cur = None).
Proof.
  revert m. induction fuel as [|fuel IH]; intros m Hrun; [discriminate|].
  cbn [untar_loop] in Hrun.
  inv_run Hrun as Hread. unfold fread in Hread. injection Hread as <- <-.
  case_in Hrun.
  { injection Hrun as <- <-. eexists _, None. cbn [log].
    rewrite <- app_assoc. repeat split. }
  case_in Hrun.
  { injection Hrun as <- <-. eexists _, None. cbn [log].
    rewrite <- app_assoc. repeat split. }
  case_in Hrun.
  { injection Hrun as <- <-. eexists _, None. cbn [log].
    rewrite <- app_assoc. repeat split. }
  inv_run Hrun as Hd.
  apply dispatch_follow in Hd as (tl1 & Hlog1 & Hf1). cbn [log] in Hlog1.
  unfold payload_then in Hrun.
  inv_run Hrun as Hdrain.
  apply drain_follow in Hdrain as (tl2 & cur2 & Hlog2 & Hf2 & Hr).
  destruct a0 as [f'|o'].
  - subst cur2. inv_run Hrun as Hclose.
    assert (a0 = None
            /\ exists tl3, log m2 = log m1 ++ tl3
                           /\ follow f' tl3 = Some None)
      as (-> & tl3 & Hlog3 & Hf3).
    { destruct f' as [h|].
      - injection Hclose as <- <-. split; [reflexivity|].
        eexists. cbn [log follow]. split; [reflexivity|].
        cbn [follow]. rewrite Nat.eqb_refl. reflexivity.
      - injection Hclose as <- <-. split; [reflexivity|].
        exists []. rewrite app_nil_r. split; reflexivity. }
    apply IH in Hrun as (tl4 & cur & Hlog4 & Hf4 & Ho).
    exists (Fread (length (take 512 (input m))) :: tl1 ++ tl2 ++ tl3 ++ tl4), cur.
    rewrite Hlog4, Hlog3, Hlog2, Hlog1, <- !app_assoc.
    split; [reflexivity|]. split; [|assumption].
    cbn [follow]. rewrite follow_app, Hf1, follow_app, Hf2, follow_app, Hf3.
    exact Hf4.
  - apply ret_ok_inv in Hrun as [<- <-]. subst o'.
    exists (Fread (length (take 512 (input m))) :: tl1 ++ tl2), cur2.
    rewrite Hlog2, Hlog1, <- !app_assoc.
    split; [reflexivity|]. split; [|congruence].
    cbn [follow]. rewrite follow_app, Hf1. exact Hf2.
Qed.

(** In every run of [untar] that returns, whatever the archive and the
    library: [fopen] is called only while no output is open; [fwrite] and
    [fclose] are called only on the output that is open, so never on one
    that is closed, and none is closed twice; and unless the run ends on a
    short read of a payload block, no output is open when it returns. *)
Theorem outputs_one_at_a_time (a : list byte) path (w : W) o m' :
  untar sgn a path w = Ok o m' ->
  exists cur,
    follow None (log m') = Some cur
    /\ (o <> Ret_short_payload -> cur = None).
Proof.
  unfold untar. intros Hrun.
  inv_run Hrun as Hsay. rewrite say_run in Hsay. injection Hsay as _ <-.
  apply untar_loop_follow in Hrun as (tl & cur & Hlog & Hf & Ho).
  cbn [log] in Hlog. exists cur. rewrite Hlog. split; [|assumption].
  cbn [app follow]. exact Hf.
Qed.

End Outputs.

(** ** create_dir against a directory tree *)

Lemma cstr_cons b s : b <> x00 -> cstr (b :: s) = b :: cstr s.
Proof.
  intros Hb. unfold cstr. cbn [strlen]. rewrite byte_eqb_neq by assumption.
  reflexivity.
Qed.

(** [strrchr] sees the string only. *)
Lemma strrchr_cstr s c : strrchr (cstr s ++ [x00]) c = strrchr s c.
Proof.
  induction s as [|b s IH]; [reflexivity|].
  destruct (Byte.eqb b x00) eqn:E.
  - unfold cstr. cbn [strlen strrchr]. rewrite E. reflexivity.
  - assert (b <> x00) as Hb by (intros ->; discriminate).
    rewrite cstr_cons by assumption. cbn [app strrchr]. rewrite E, IH.
    reflexivity.
Qed.

Lemma dirname_cstr s :
  dirname (cstr s)
  = match strrchr s x2f with
    | Some q => Some (take q (cstr s))
    | None => None
    end.
Proof. unfold dirname. rewrite strrchr_cstr. reflexivity. Qed.

Lemma cstr_nonempty s : idx s 0 <> x00 -> cstr s <> [].
Proof.
  intros Hne E. apply (f_equal length) in E. rewrite length_cstr in E.
  pose proof (strlen_pos _ Hne). cbn in E. lia.
Qed.

Section Tree.

Context {W : Type} `{Libc W}.

(** What the library is taken to do: [is_dir w p] says that [p] is a
    directory in state [w], and [Inv] holds of the states in which nothing
    but a missing parent, or the directory being there already, makes
    [mkdir] fail (no file in the way, room and permission to write). *)
Variable is_dir : W -> str -> Prop.
Variable Inv : W -> Prop.

Hypothesis mkdir_inv :
  forall p mode w, Inv w -> Inv (snd (libc_mkdir p mode w)).
Hypothesis mkdir_keeps :
  forall p mode w q, is_dir w q -> is_dir (snd (libc_mkdir p mode w)) q.
Hypothesis mkdir_makes :
  forall p mode w,
    fst (libc_mkdir p mode w) = 0 -> is_dir (snd (libc_mkdir p mode w)) p.
Hypothesis mkdir_fails :
  forall p mode w,
    Inv w -> p <> [] -> fst (libc_mkdir p mode w) <> 0 ->
    (forall d, dirname p = Some d -> is_dir w d) ->
    is_dir w p.

Lemma create_dir_rec_makes fuel pathname mode (m : machine W) :
  terminated pathname = true ->
  (strlen pathname < fuel)%nat ->
  idx pathname 0 <> x00 ->
  idx pathname 0 <> x2f ->
  no_double_slash pathname ->
  Inv (world m) ->
  exists m',
    create_dir_rec fuel pathname mode m = Ok (strip_buffer pathname) m'
    /\ is_dir (world m') (cstr (strip_buffer pathname))
    /\ Inv (world m').
Proof.
  revert pathname mode m.
  induction fuel as [|fuel IH];
    intros pathname mode m Hterm Hfuel Hne Hrel Hclean Hinv; [lia|].
  cbn [create_dir_rec]. rewrite Hterm. cbn [negb].
  pose proof (strlen_pos _ Hne) as Hpos.
  destruct (strlen pathname) as [|last] eqn:Hs; [lia|].
  rewrite (strip_buffer_eq _ _ Hs).
  destruct (stripped_buffer pathname last Hterm Hs Hrel)
    as (Hterm1 & Hlen1 & Hfirst1).
  assert (no_double_slash
            (if Byte.eqb (idx pathname last) x2f
             then <[last := x00]> pathname else pathname)) as Hclean1.
  { destruct (Byte.eqb (idx pathname last) x2f); [|assumption].
    apply no_double_slash_cut; [lia|assumption]. }
  set (p1 := if Byte.eqb (idx pathname last) x2f then _ else _) in *.
  clearbody p1.
  assert (cstr p1 <> []) as Hname by (apply cstr_nonempty; congruence).
  unfold bind at 1. rewrite mkdir_run.
  pose proof (mkdir_inv (cstr p1) mode (world m) Hinv) as Hinv1.
  pose proof (mkdir_keeps (cstr p1) mode (world m) (cstr p1)) as Hkeep1.
  pose proof (mkdir_makes (cstr p1) mode (world m)) as Hmake1.
  pose proof (mkdir_fails (cstr p1) mode (world m) Hinv Hname) as Hfail1.
  set (r := fst (libc_mkdir (cstr p1) mode (world m))) in *.
  set (w1 := snd (libc_mkdir (cstr p1) mode (world m))) in *.
  clearbody r w1.
  destruct (r =? 0) eqn:Hr; cbn [negb].
  { unfold bind, ret. cbn [fst snd]. rewrite Hr. cbn [negb].
    eexists. split; [reflexivity|]. cbn [world].
    split; [apply Hmake1, Z.eqb_eq, Hr|assumption]. }
  apply Z.eqb_neq in Hr.
  pose proof (dirname_cstr p1) as Hup.
  destruct (strrchr p1 x2f) as [q|] eqn:Hq.
  2:{ unfold bind, ret. cbn [fst snd].
      replace (r =? 0) with false by (symmetry; apply Z.eqb_neq, Hr).
      cbn [negb]. rewrite say_run. cbn [input world log].
      eexists. split; [reflexivity|]. cbn [world]. split; [|assumption].
      apply Hkeep1, Hfail1; [assumption|]. intros d Hd. congruence. }
  destruct (strrchr_spec _ _ _ Hq) as [Hqlen Hqc].
  assert (q <> O) by (intros ->; congruence).
  set (m1 := Machine (input m) w1 (log m ++ [Mkdir (cstr p1) mode r])).
  destruct (IH (<[q := x00]> p1) 493 m1) as (m2 & Hrec & Hdir2 & Hinv2).
  { apply terminated_insert_nul. assumption. }
  { rewrite strlen_insert_nul by assumption. lia. }
  { rewrite idx_insert_ne by lia. congruence. }
  { rewrite idx_insert_ne by lia. congruence. }
  { apply no_double_slash_cut; assumption. }
  { exact Hinv1. }
  rewrite (strip_buffer_no_slash _ (q - 1)) in Hrec, Hdir2.
  2,4: rewrite strlen_insert_nul by assumption; lia.
  2,3: rewrite idx_insert_ne by lia; intros Hprev;
       apply (Hclean1 (q - 1)%nat); [lia|assumption|];
       replace (S (q - 1)) with q by lia; assumption.
  rewrite cstr_insert_nul in Hdir2 by assumption.
  unfold bind at 1. unfold bind at 1. rewrite Hrec. cbv zeta.
  rewrite insert_restore by (try assumption; pose proof (strlen_le p1); lia).
  unfold bind at 1. rewrite mkdir_run.
  pose proof (mkdir_inv (cstr p1) mode (world m2) Hinv2) as Hinv3.
  pose proof (mkdir_keeps (cstr p1) mode (world m2) (cstr p1)) as Hkeep3.
  pose proof (mkdir_makes (cstr p1) mode (world m2)) as Hmake3.
  pose proof (mkdir_fails (cstr p1) mode (world m2) Hinv2 Hname) as Hfail3.
  set (r3 := fst (libc_mkdir (cstr p1) mode (world m2))) in *.
  set (w3 := snd (libc_mkdir (cstr p1) mode (world m2))) in *.
  clearbody r3 w3.
  unfold ret at 1. unfold bind at 1. cbn [fst snd].
  destruct (r3 =? 0) eqn:Hr3; cbn [negb].
  - unfold bind, ret. eexists. split; [reflexivity|]. cbn [world].
    split; [apply Hmake3, Z.eqb_eq, Hr3|assumption].
  - apply Z.eqb_neq in Hr3. rewrite say_run. cbn [input world log].
    unfold ret. eexists. split; [reflexivity|]. cbn [world].
    split; [|assumption].
    apply Hkeep3, Hfail3; [assumption|]. intros d Hd.
    rewrite Hup in Hd. injection Hd as <-. assumption.
Qed.

(** [create_dir] makes the directory, parents included.  With a library
    whose [mkdir] fails for nothing but a missing parent or a directory
    that is there already, a call on a relative name without empty
    components is defined and leaves the named directory in existence,
    whichever of its parents were missing. *)
Theorem create_dir_makes_directory pathname mode (m : machine W) :
  terminated pathname = true ->
  idx pathname 0 <> x00 ->
  idx pathname 0 <> x2f ->
  no_double_slash pathname ->
  Inv (world m) ->
  exists m',
    create_dir pathname mode m = Ok (strip_buffer pathname) m'
    /\ is_dir (world m') (strip_slash (cstr pathname))
    /\ Inv (world m').
Proof.
  intros Hterm Hne Hrel Hclean Hinv.
  destruct (create_dir_rec_makes (S (length pathname)) pathname mode m)
    as (m' & Hrun & Hdir & Hinv'); try assumption.
  { pose proof (strlen_le pathname). lia. }
  exists m'. split; [exact Hrun|]. split; [|assumption].
  pose proof (strlen_pos _ Hne) as Hpos.
  destruct (strlen pathname) as [|last] eqn:Hs; [lia|].
  rewrite (strip_buffer_eq _ _ Hs), (cstr_strip _ _ Hs) in Hdir.
  exact Hdir.
Qed.

(** *** create_file against a directory tree *)

Hypothesis mkdir_only :
  forall p mode w q,
    is_dir (snd (libc_mkdir p mode w)) q -> q = p \/ is_dir w q.
Hypothesis fopen_fails :
  forall p w,
    Inv w -> p <> [] -> fst (libc_fopen p w) = None ->
    (forall d, dirname p = Some d -> is_dir w d) ->
    is_dir w p.
Hypothesis fopen_failed :
  forall p w, fst (libc_fopen p w) = None -> snd (libc_fopen p w) = w.

(** The directories a call leaves are those it found and names no longer
    than its own. *)
Lemma create_dir_rec_only fuel pathname mode (m : machine W) buff' m' :
  idx pathname 0 <> x2f ->
  no_double_slash pathname ->
  create_dir_rec fuel pathname mode m = Ok buff' m' ->
  forall d, is_dir (world m') d ->
            is_dir (world m) d \/ (length d <= strlen pathname)%nat.
Proof.
  revert pathname mode m buff' m'.
  induction fuel as [|fuel IH];
    intros pathname mode m buff' m' Hrel Hclean Hrun; [discriminate|].
  cbn [create_dir_rec] in Hrun.
  destruct (terminated pathname) eqn:Hterm; [|discriminate].
  cbn [negb] in Hrun.
  destruct (strlen pathname) as [|last] eqn:Hs; [discriminate|].
  destruct (stripped_buffer pathname last Hterm Hs Hrel)
    as (Hterm1 & Hlen1 & Hfirst1).
  assert (no_double_slash
            (if Byte.eqb (idx pathname last) x2f
             then <[last := x00]> pathname else pathname)) as Hclean1.
  { destruct (Byte.eqb (idx pathname last) x2f); [|assumption].
    apply no_double_slash_cut; [lia|assumption]. }
  set (p1 := if Byte.eqb (idx pathname last) x2f then _ else _) in *.
  clearbody p1.
  assert (forall w d, is_dir (snd (libc_mkdir (cstr p1) mode w)) d ->
                      is_dir w d \/ (length d <= S last)%nat) as Hstep.
  { intros w d Hd. apply mkdir_only in Hd as [->|Hd]; [right|now left].
    rewrite length_cstr. assumption. }
  apply bind_ok_inv in Hrun as (r & m1 & Hmk & Hrun).
  rewrite mkdir_run in Hmk. injection Hmk as _ <-.
  apply bind_ok_inv in Hrun as (rp & m2 & Hretry & Hrun).
  apply bind_ok_inv in Hrun as (u & m3 & Hsay & Hrun).
  apply ret_ok_inv in Hrun as [_ <-].
  assert (world m3 = world m2) as ->.
  { case_in Hsay.
    - rewrite say_run in Hsay. injection Hsay as _ <-. reflexivity.
    - apply ret_ok_inv in Hsay as [_ <-]. reflexivity. }
  intros d Hd.
  assert (is_dir (snd (libc_mkdir (cstr p1) mode (world m))) d
          \/ (length d <= S last)%nat) as [Hd1|Hd1]; [|auto|now right].
  case_in Hretry; [|apply ret_ok_inv in Hretry as [_ <-]; now left].
  case_in Hretry; [|apply ret_ok_inv in Hretry as [_ <-]; now left].
  match goal with Hp : strrchr p1 x2f = Some ?p |- _ =>
    destruct (strrchr_spec _ _ _ Hp) as [Hplen Hpc]; rename p into q end.
  assert (q <> O) by (intros ->; congruence).
  apply bind_ok_inv in Hretry as (b & m4 & Hrec & Hretry).
  pose proof Hrec as Hb. apply create_dir_rec_frame in Hb.
  2:{ rewrite idx_insert_ne by lia. congruence. }
  2:{ apply no_double_slash_cut; assumption. }
  rewrite (strip_buffer_no_slash _ (q - 1)) in Hb.
  2:{ rewrite strlen_insert_nul by assumption. lia. }
  2:{ rewrite idx_insert_ne by lia. intros Hprev.
      apply (Hclean1 (q - 1)%nat); [lia|assumption|].
      replace (S (q - 1)) with q by lia. assumption. }
  subst b.
  rewrite insert_restore in Hretry
    by (try assumption; pose proof (strlen_le p1); lia).
  apply bind_ok_inv in Hretry as (r' & m5 & Hmk & Hretry).
  rewrite mkdir_run in Hmk. injection Hmk as _ <-.
  apply ret_ok_inv in Hretry as [_ <-]. cbn [world] in Hd.
  apply Hstep in Hd as [Hd|Hd]; [|now right].
  assert (idx (<[q := x00]> p1) 0 <> x2f) as Hrel2
    by (rewrite idx_insert_ne by lia; congruence).
  assert (no_double_slash (<[q := x00]> p1)) as Hclean2
    by (apply no_double_slash_cut; assumption).
  destruct (IH _ _ _ _ _ Hrel2 Hclean2 Hrec d Hd) as [Hd'|Hd'];
    [left; exact Hd'|right].
  rewrite strlen_insert_nul in Hd' by assumption. lia.
Qed.

(** [create_file] opens the file, parent directories included.  With a
    library whose [mkdir] is as above and whose [fopen] fails, without
    effect, for nothing but a missing parent or a name that is a
    directory: on a relative name without empty components that is no
    directory, the call is defined and returns an open file. *)
Theorem create_file_opens_in_tree buff mode (m : machine W) :
  terminated buff = true ->
  idx buff 0 <> x00 ->
  idx buff 0 <> x2f ->
  no_double_slash buff ->
  Inv (world m) ->
  ~ is_dir (world m) (cstr buff) ->
  exists h m', create_file buff mode m = Ok (Some h, buff) m'.
Proof.
  intros Hterm Hne Hrel Hclean Hinv Hfile.
  pose proof (cstr_nonempty _ Hne) as Hname.
  unfold create_file, c_str. rewrite Hterm.
  unfold bind at 1, ret at 1. unfold bind at 1. rewrite fopen_run.
  pose proof (fopen_fails (cstr buff) (world m) Hinv Hname) as Hfail.
  pose proof (fopen_failed (cstr buff) (world m)) as Hsame.
  destruct (fst (libc_fopen (cstr buff) (world m))) as [h|];
    [eexists _, _; reflexivity|].
  rewrite Hsame by reflexivity.
  pose proof (dirname_cstr buff) as Hup.
  destruct (strrchr buff x2f) as [q|] eqn:Hq.
  2:{ exfalso. apply Hfile, Hfail; [reflexivity|]. intros d Hd. congruence. }
  destruct (strrchr_spec _ _ _ Hq) as [Hqlen Hqc].
  assert (q <> O) by (intros ->; congruence).
  set (m1 := Machine (input m) (world m)
                     (log m ++ [Fopen (cstr buff) None])).
  assert (strip_buffer (<[q := x00]> buff) = <[q := x00]> buff) as Hstrip.
  { apply (strip_buffer_no_slash _ (q - 1)).
    - rewrite strlen_insert_nul by assumption. lia.
    - rewrite idx_insert_ne by lia. intros Hprev.
      apply (Hclean (q - 1)%nat); [lia|assumption|].
      replace (S (q - 1)) with q by lia. assumption. }
  destruct (create_dir_rec_makes (S (length (<[q := x00]> buff)))
              (<[q := x00]> buff) 493 m1) as (m2 & Hrec & Hdir2 & Hinv2).
  { apply terminated_insert_nul. assumption. }
  { pose proof (strlen_le (<[q := x00]> buff)). lia. }
  { rewrite idx_insert_ne by lia. assumption. }
  { rewrite idx_insert_ne by lia. assumption. }
  { apply no_double_slash_cut; assumption. }
  { exact Hinv. }
  assert (idx (<[q := x00]> buff) 0 <> x2f) as Hrel2
    by (rewrite idx_insert_ne by lia; assumption).
  assert (no_double_slash (<[q := x00]> buff)) as Hclean2
    by (apply no_double_slash_cut; assumption).
  pose proof (create_dir_rec_only _ _ _ _ _ _ Hrel2 Hclean2 Hrec) as Honly.
  rewrite Hstrip in Hrec, Hdir2.
  rewrite cstr_insert_nul in Hdir2 by assumption.
  unfold bind at 1. unfold create_dir. fold m1. rewrite Hrec.
  rewrite insert_restore by (try assumption; pose proof (strlen_le buff); lia).
  unfold bind at 1. rewrite fopen_run.
  pose proof (fopen_fails (cstr buff) (world m2) Hinv2 Hname) as Hfail2.
  destruct (fst (libc_fopen (cstr buff) (world m2))) as [h|];
    [eexists _, _; reflexivity|].
  exfalso.
  destruct (Honly (cstr buff)) as [Hd|Hd].
  - apply Hfail2; [reflexivity|]. intros d Hd.
    rewrite Hup in Hd. injection Hd as <-. assumption.
  - apply Hfile. exact Hd.
  - rewrite length_cstr, strlen_insert_nul in Hd by assumption. lia.
Qed.

End Tree.

(** ** The file system in memory as such a library *)

Lemma str_eqb_refl p : RamFS.str_eqb p p = true.
Proof. apply bool_decide_eq_true_2. reflexivity. Qed.

Lemma str_eqb_nil p : p <> [] -> RamFS.str_eqb p [] = false.
Proof.
  intros Hp. apply bool_decide_eq_false_2. destruct p; [contradiction|].
  discriminate.
Qed.

Lemma to_N_inj (a b : byte) : Byte.to_N a = Byte.to_N b -> a = b.
Proof.
  intros E. pose proof (Byte.of_to_N a) as Ha. rewrite E, Byte.of_to_N in Ha.
  congruence.
Qed.

Lemma str_eqb_eq p q : RamFS.str_eqb p q = true -> p = q.
Proof.
  intros E. apply bool_decide_eq_true_1 in E.
  revert q E. induction p as [|a p IH]; intros [|b q] E; try discriminate.
  - reflexivity.
  - injection E as Hab Hpq. f_equal; [apply to_N_inj, Hab|apply IH, Hpq].
Qed.

Lemma ramfs_parent_ok w p :
  (forall d, dirname p = Some d -> RamFS.is_dir w d = true) ->
  RamFS.parent_ok w p = true.
Proof.
  unfold dirname, RamFS.parent_ok. intros Hup.
  destruct (strrchr (p ++ [x00]) x2f); [|reflexivity].
  apply Hup. reflexivity.
Qed.

Lemma ramfs_mkdir_inv p mode w :
  RamFS.files w = [] -> RamFS.files (snd (RamFS.do_mkdir p mode w)) = [].
Proof. unfold RamFS.do_mkdir. destruct (_ || _); auto. Qed.

Lemma ramfs_mkdir_keeps p mode w q :
  RamFS.is_dir w q = true ->
  RamFS.is_dir (snd (RamFS.do_mkdir p mode w)) q = true.
Proof.
  unfold RamFS.do_mkdir. intros Hq. destruct (_ || _); [assumption|].
  unfold RamFS.is_dir in *. cbn [snd RamFS.dirs].
  rewrite existsb_app, Hq. reflexivity.
Qed.

Lemma ramfs_mkdir_makes p mode w :
  fst (RamFS.do_mkdir p mode w) = 0 ->
  RamFS.is_dir (snd (RamFS.do_mkdir p mode w)) p = true.
Proof.
  unfold RamFS.do_mkdir. destruct (_ || _); [discriminate|]. intros _.
  unfold RamFS.is_dir. cbn [snd RamFS.dirs].
  rewrite existsb_app. cbn [existsb]. rewrite str_eqb_refl.
  rewrite orb_true_r. reflexivity.
Qed.

Lemma ramfs_mkdir_fails p mode w :
  RamFS.files w = [] -> p <> [] ->
  fst (RamFS.do_mkdir p mode w) <> 0 ->
  (forall d, dirname p = Some d -> RamFS.is_dir w d = true) ->
  RamFS.is_dir w p = true.
Proof.
  unfold RamFS.do_mkdir. intros Hfiles Hp Hfail Hup.
  rewrite (str_eqb_nil _ Hp), (ramfs_parent_ok _ _ Hup) in Hfail.
  unfold RamFS.contents in Hfail. rewrite Hfiles in Hfail.
  cbn [RamFS.lookup_file negb orb] in Hfail.
  destruct (RamFS.is_dir w p); [reflexivity|].
  exfalso. apply Hfail. reflexivity.
Qed.

Lemma ramfs_mkdir_only p mode w q :
  RamFS.is_dir (snd (RamFS.do_mkdir p mode w)) q = true ->
  q = p \/ RamFS.is_dir w q = true.
Proof.
  unfold RamFS.do_mkdir. destruct (_ || _); [now right|].
  unfold RamFS.is_dir. cbn [snd RamFS.dirs]. rewrite existsb_app.
  cbn [existsb]. rewrite orb_false_r. intros Hq.
  apply orb_true_iff in Hq as [Hq|Hq]; [now right|left].
  apply str_eqb_eq, Hq.
Qed.

Lemma ramfs_fopen_fails p w :
  RamFS.files w = [] -> p <> [] ->
  fst (RamFS.do_fopen p w) = None ->
  (forall d, dirname p = Some d -> RamFS.is_dir w d = true) ->
  RamFS.is_dir w p = true.
Proof.
  unfold RamFS.do_fopen. intros _ Hp Hfail Hup.
  rewrite (str_eqb_nil _ Hp), (ramfs_parent_ok _ _ Hup) in Hfail.
  cbn [negb orb] in Hfail.
  destruct (RamFS.is_dir w p); [reflexivity|discriminate].
Qed.

Lemma ramfs_fopen_failed p w :
  fst (RamFS.do_fopen p w) = None -> snd (RamFS.do_fopen p w) = w.
Proof. unfold RamFS.do_fopen. destruct (_ || _); [reflexivity|discriminate]. Qed.

(** ** Checking concrete names *)

Lemma no_double_slashb_spec s : no_double_slashb s = true -> no_double_slash s.
Proof.
  induction s as [|b s IH]; intros Hb i Hi Hslash; [cbn in Hi; lia|].
  cbn [no_double_slashb strlen] in *.
  destruct (Byte.eqb b x00); [lia|].
  destruct i as [|i].
  - cbn [idx nth] in *. subst b. cbn [Byte.eqb andb] in Hb.
    change (Byte.eqb x2f x2f) with true in Hb. cbn [andb] in Hb.
    intros E. fold (idx s 0) in E. rewrite E in Hb. discriminate.
  - destruct (Byte.eqb b x2f && Byte.eqb (idx s 0) x2f); [discriminate|].
    apply (IH Hb i); [lia|exact Hslash].
Qed.

(** ** Instances *)

Lemma parseoct_first_digit_run_witness :
  parseoct true Samples.spaced_field 6
  = int_wrap (octal_value (first_digit_run (take 6 Samples.spaced_field))).
Proof.
  apply (parseoct_first_digit_run true Samples.spaced_field 6).
  apply Nat.leb_le. vm_compute. reflexivity.
Defined.

Lemma end_of_archive_iff_zero_block_witness :
  is_end_of_archive true Ustar.zero_block = true
  <-> take 512 Ustar.zero_block = replicate 512 x00.
Proof.
  apply (end_of_archive_iff_zero_block true Ustar.zero_block).
  apply Nat.leb_le. vm_compute. reflexivity.
Defined.

Lemma verify_checksum_signed_witness :
  verify_checksum true Examples.e_acute_header = true
  <-> parseoct true (drop 148 Examples.e_acute_header) 8
      = unsigned_sum (blank_checksum (take 512 Examples.e_acute_header))
        - 256 * Z.of_nat
                  (high_bytes
                     (blank_checksum (take 512 Examples.e_acute_header))).
Proof.
  apply (verify_checksum_signed Examples.e_acute_header).
  apply Nat.leb_le. vm_compute. reflexivity.
Defined.

Lemma create_dir_without_retry_witness :
  exists m',
    @create_dir _ Examples.roomy Samples.sub_slash 493
                (Machine [] RamFS.empty [])
    = Ok (strip_buffer Samples.sub_slash) m'.
Proof.
  eexists.
  apply (@create_dir_without_retry RamFS.fs Examples.roomy Samples.sub_slash
           493 (Machine [] RamFS.empty [])).
  - vm_compute. reflexivity.
  - apply byte_neq_check. vm_compute. reflexivity.
  - left. vm_compute. reflexivity.
Defined.

Lemma create_dir_root_parent_undefined_witness :
  @create_dir _ Examples.roomy Samples.root_x 493 (Machine [] RamFS.empty [])
  = Fault Undefined.
Proof.
  apply (@create_dir_root_parent_undefined RamFS.fs Examples.roomy
           Samples.root_x 493 (Machine [] RamFS.empty [])).
  - vm_compute. reflexivity.
  - vm_compute. reflexivity.
  - vm_compute. discriminate.
Defined.

Lemma d_a_txt_clean : no_double_slash Samples.d_a_txt.
Proof. apply no_double_slashb_spec. vm_compute. reflexivity. Qed.

Lemma create_file_attempts_witness :
  (forall mode',
     @create_file _ Examples.roomy Samples.d_a_txt mode'
                  (Machine [] RamFS.empty [])
     = @create_file _ Examples.roomy Samples.d_a_txt 420
                    (Machine [] RamFS.empty []))
  /\ exists f m',
       @create_file _ Examples.roomy Samples.d_a_txt 420
                    (Machine [] RamFS.empty [])
       = Ok (f, Samples.d_a_txt) m'
       /\ input m' = []
       /\ exists tl,
            log m' = [] ++ tl
            /\ (tl = [Fopen (cstr Samples.d_a_txt) f]
                \/ exists mid k,
                     tl = Fopen (cstr Samples.d_a_txt) None
                            :: mid ++ [Fopen (cstr Samples.d_a_txt) f]
                     /\ Forall (fun e => mkdir_or_diag e = true) mid
                     /\ mkdir_modes mid = replicate (S k) 493).
Proof.
  apply (@create_file_attempts RamFS.fs Examples.roomy Samples.d_a_txt 420
           (Machine [] RamFS.empty [])).
  - vm_compute. reflexivity.
  - apply byte_neq_check. vm_compute. reflexivity.
  - exact d_a_txt_clean.
Defined.

Lemma create_file_root_parent_undefined_witness :
  @create_file _ Examples.roomy Samples.root_x 420 (Machine [] RamFS.empty [])
  = Fault Undefined.
Proof.
  apply (@create_file_root_parent_undefined RamFS.fs Examples.roomy
           Samples.root_x 420 (Machine [] RamFS.empty [])).
  - vm_compute. reflexivity.
  - vm_compute. reflexivity.
  - vm_compute. reflexivity.
Defined.

Lemma short_header_read_witness :
  @untar_loop _ Examples.roomy true 1 Examples.tar None
     (Machine [x01] RamFS.empty [])
  = Ok Ret_short_header
       (Machine [] RamFS.empty
          ([] ++ [Fread (length [x01]);
                  Say (Short_read_header Examples.tar (length [x01]))]))
  /\ @untar _ Examples.roomy true [x01] Examples.tar RamFS.empty
     = Ok Ret_short_header
          (Machine [] RamFS.empty
             [Say (Extracting_from Examples.tar); Fread (length [x01]);
              Say (Short_read_header Examples.tar (length [x01]))]).
Proof.
  apply (@short_header_read RamFS.fs Examples.roomy true 0 Examples.tar None
           [x01] RamFS.empty []).
  cbn [length]. lia.
Defined.

Lemma corrupted_header_stops_witness :
  @untar_loop _ Examples.roomy true 1 Examples.tar None
     (Machine (<[O := x62]> Examples.hello_header ++ Ustar.zero_block)
              RamFS.empty [])
  = Ok Ret_checksum_failure
       (Machine Ustar.zero_block RamFS.empty
                ([] ++ [Fread 512; Say Checksum_failure])).
Proof.
  apply (@corrupted_header_stops RamFS.fs Examples.roomy true 0 Examples.tar
           None Examples.hello_header Ustar.zero_block 0 x62 RamFS.empty []).
  - vm_compute. reflexivity.
  - vm_compute. reflexivity.
  - lia.
  - lia.
  - apply byte_neq_check. vm_compute. reflexivity.
Defined.

Lemma ignored_entry_skipped_witness :
  @untar_loop _ Examples.roomy true 2 Examples.tar None
     (Machine (Samples.symlink_header ++ [] ++ Ustar.zero_block)
              RamFS.empty [])
  = @untar_loop _ Examples.roomy true 1 Examples.tar None
      (Machine Ustar.zero_block RamFS.empty
         ([] ++ [Fread 512;
                 Say (Ignoring Symlink (cstr Samples.symlink_header))]
             ++ replicate
                  (payload_blocks
                     (parseoct true (drop 124 Samples.symlink_header) 12))
                  (Fread 512))).
Proof.
  apply (@ignored_entry_skipped RamFS.fs Examples.roomy true Symlink 1
           Examples.tar Samples.symlink_header [] Ustar.zero_block
           RamFS.empty []).
  - vm_compute. reflexivity.
  - vm_compute. reflexivity.
  - vm_compute. reflexivity.
  - vm_compute. reflexivity.
  - apply Nat.leb_le. vm_compute. reflexivity.
Defined.

Lemma unopened_entry_drained_witness :
  exists m1,
    @untar_loop _ Examples.roomy true 2 Examples.tar None
       (Machine (Samples.sub_file_header ++ Ustar.padded Examples.hello
                   ++ Ustar.zero_block)
                Samples.sub_made [])
    = @untar_loop _ Examples.roomy true 1 Examples.tar None
        (Machine Ustar.zero_block (world m1)
           (log m1
              ++ replicate
                   (payload_blocks
                      (parseoct true (drop 124 Samples.sub_file_header) 12))
                   (Fread 512))).
Proof.
  eexists.
  eapply (@unopened_entry_drained RamFS.fs Examples.roomy true 1
            Examples.tar Samples.sub_file_header (Ustar.padded Examples.hello)
            Ustar.zero_block Samples.sub_made []).
  - vm_compute. reflexivity.
  - vm_compute. reflexivity.
  - unfold regular_flag. vm_compute. intros [Hlo _]. apply Hlo. reflexivity.
  - vm_compute. reflexivity.
  - apply Nat.leb_le. vm_compute. reflexivity.
  - vm_compute. reflexivity.
Defined.

Lemma file_entry_extracted_witness :
  exists w',
    RamFS.path_of (RamFS.opened w') 3%nat = Some Examples.a_txt
    /\ @untar_loop _ Examples.roomy true 2 Examples.tar None
         (Machine (Examples.hello_header ++ Ustar.padded Examples.hello
                     ++ Ustar.zero_block)
                  RamFS.empty [])
       = @untar_loop _ Examples.roomy true 1 Examples.tar None
           (Machine Ustar.zero_block (@libc_fclose _ Examples.roomy 3%nat w')
              ([] ++ [Fread 512;
                      Say (Extracting_file (cstr Examples.hello_header));
                      Fopen (cstr Examples.hello_header) (Some 3%nat)]
                  ++ payload_events 3%nat
                       (payload_blocks (Z.of_nat (length Examples.hello)))
                       Examples.hello
                  ++ [Fclose 3%nat])).
Proof.
  apply (@file_entry_extracted RamFS.fs Examples.roomy true
           (fun w => RamFS.path_of (RamFS.opened w) 3%nat = Some Examples.a_txt)
           3%nat 1 Examples.tar Examples.hello_header Examples.hello
           Ustar.zero_block RamFS.empty Examples.a_txt_open []).
  - exact hello_file_header.
  - vm_compute. reflexivity.
  - right. apply seven_bitb_spec. vm_compute. reflexivity.
  - vm_compute. reflexivity.
  - vm_compute. reflexivity.
  - exact roomy_takes_writes.
  - apply Nat.leb_le. vm_compute. reflexivity.
Defined.

Lemma short_payload_read_returns_witness :
  @payload_then _ Examples.roomy
     (@untar_loop _ Examples.roomy true 1 Examples.tar) 1 Examples.tar 5
     (Examples.hello_header ++ [x00; x00]) (Some 3%nat)
     (Machine [x68; x65] Examples.a_txt_open [])
  = Ok Ret_short_payload
       (Machine [] Examples.a_txt_open
          ([] ++ [Fread (length [x68; x65]);
                  Say (Short_read_payload Examples.tar (length [x68; x65]))])).
Proof.
  apply (@short_payload_read_returns RamFS.fs Examples.roomy
           (@untar_loop _ Examples.roomy true 1 Examples.tar) 0 Examples.tar 5
           (Examples.hello_header ++ [x00; x00]) (Some 3%nat) [x68; x65]
           Examples.a_txt_open []).
  - lia.
  - cbn [length]. lia.
Defined.

Lemma outputs_one_at_a_time_witness :
  exists o m',
    @untar _ Examples.roomy true Examples.hello_archive Examples.tar
           RamFS.empty
    = Ok o m'
    /\ exists cur,
         follow None (log m') = Some cur
         /\ (o <> Ret_short_payload -> cur = None).
Proof.
  eexists _, _. split; [vm_compute; reflexivity|].
  apply (@outputs_one_at_a_time RamFS.fs Examples.roomy true
           Examples.hello_archive Examples.tar RamFS.empty).
  vm_compute. reflexivity.
Defined.

Lemma create_dir_makes_directory_witness :
  exists m',
    @create_dir _ Examples.roomy MoreExamples.a_b_slash 493
                (Machine [] RamFS.empty [])
    = Ok (strip_buffer MoreExamples.a_b_slash) m'
    /\ RamFS.is_dir (world m') (strip_slash (cstr MoreExamples.a_b_slash))
       = true
    /\ RamFS.files (world m') = [].
Proof.
  apply (@create_dir_makes_directory RamFS.fs Examples.roomy
           (fun w p => RamFS.is_dir w p = true)
           (fun w => RamFS.files w = [])
           ramfs_mkdir_inv ramfs_mkdir_keeps ramfs_mkdir_makes
           ramfs_mkdir_fails
           MoreExamples.a_b_slash 493 (Machine [] RamFS.empty [])).
  - vm_compute. reflexivity.
  - apply byte_neq_check. vm_compute. reflexivity.
  - apply byte_neq_check. vm_compute. reflexivity.
  - exact a_b_slash_clean.
  - reflexivity.
Defined.

Lemma create_file_opens_in_tree_witness :
  exists h m',
    @create_file _ Examples.roomy Samples.d_a_txt 420
                 (Machine [] RamFS.empty [])
    = Ok (Some h, Samples.d_a_txt) m'.
Proof.
  apply (@create_file_opens_in_tree RamFS.fs Examples.roomy
           (fun w p => RamFS.is_dir w p = true)
           (fun w => RamFS.files w = [])
           ramfs_mkdir_inv ramfs_mkdir_keeps ramfs_mkdir_makes
           ramfs_mkdir_fails ramfs_mkdir_only ramfs_fopen_fails
           ramfs_fopen_failed
           Samples.d_a_txt 420 (Machine [] RamFS.empty [])).
  - vm_compute. reflexivity.
  - apply byte_neq_check. vm_compute. reflexivity.
  - apply byte_neq_check. vm_compute. reflexivity.
  - exact d_a_txt_clean.
  - reflexivity.
  - vm_compute. discriminate.
Defined.

(** ** An archive of several files *)

Lemma files_of_payload_events h p acc n (payload : list byte) rest :
  files_of (Some (h, p, acc)) (payload_events h n payload ++ rest)
  = files_of (Some (h, p, acc ++ take (512 * n) payload)) rest.
Proof.
  revert acc payload. induction n as [|n IH]; intros acc payload.
  - cbn [payload_events app]. rewrite Nat.mul_0_r, take_0, app_nil_r.
    reflexivity.
  - replace (512 * S n)%nat with (512 + 512 * n)%nat by lia.
    cbn [payload_events app files_of]. rewrite Nat.eqb_refl.
    rewrite Nat2Z.id, firstn_all, IH, <- app_assoc, take_take_drop.
    reflexivity.
Qed.

Lemma length_padded (payload : list byte) :
  (length payload <= length (Ustar.padded payload))%nat.
Proof. unfold Ustar.padded. rewrite length_app. lia. Qed.

Section Archive.

Context {W : Type} `{Libc W}.
Variable sgn : bool.

(** What the library is taken to do: [Idle w] holds of the states with no
    output open in which the files of the archive can be opened, and
    [Open h w] of those in which [h] is open and takes writes in full. *)
Variable Idle : W -> Prop.
Variable Open : handle -> W -> Prop.

Hypothesis fwrite_full :
  forall h d w, Open h w ->
    fst (libc_fwrite h d w) = Z.of_nat (length d)
    /\ Open h (snd (libc_fwrite h d w)).
Hypothesis fclose_idle : forall h w, Open h w -> Idle (libc_fclose h w).

Lemma untar_loop_files path extra entries :
  Forall (extractable sgn Idle Open) entries ->
  forall fuel (w : W) l,
    Idle w ->
    (length (archive_of entries) < fuel)%nat ->
    exists m',
      untar_loop sgn fuel path None
                 (Machine (archive_of entries ++ extra) w l)
      = Ok Ret_end_of_archive m'
      /\ input m' = extra
      /\ Idle (world m')
      /\ exists tl,
           log m' = l ++ tl
           /\ forall more,
                files_of None (tl ++ more)
                = map (fun e => (cstr (fst e), snd e)) entries
                  ++ files_of None more.
Proof.
  induction 1 as [|[hdr payload] es (Hfh & Hsize & Hsgn & Hopen) _ IH];
    intros fuel w l Hidle Hfuel.
  - unfold archive_of in *. cbn [flat_map app] in *.
    unfold Ustar.zero_block in *. rewrite length_replicate in Hfuel.
    destruct fuel as [|fuel]; [lia|].
    rewrite untar_loop_end. eexists. split; [reflexivity|].
    cbn [input world log]. repeat split; [assumption|].
    eexists. split; [reflexivity|]. intros more. reflexivity.
  - cbn [fst snd] in *.
    assert (archive_of ((hdr, payload) :: es)
            = hdr ++ Ustar.padded payload ++ archive_of es) as Harch.
    { unfold archive_of. cbn [flat_map fst snd]. rewrite <- !app_assoc.
      reflexivity. }
    rewrite Harch in *. rewrite <- !app_assoc.
    rewrite !length_app in Hfuel.
    pose proof (length_padded payload) as Hpad.
    pose proof (payload_blocks_le (length payload)) as Hblocks.
    destruct fuel as [|fuel]; [lia|].
    destruct (Hopen w Hidle) as (h & Hh & Hopened).
    destruct (libc_fopen (cstr hdr) w) as [fo w1] eqn:Efopen.
    cbn [fst snd] in Hh, Hopened. subst fo.
    destruct (drain_full_writes (Open h) h fuel path payload
                (hdr ++ [x00; x00]) (archive_of es ++ extra) w1
                (l ++ [Fread 512; Say (Extracting_file (cstr hdr));
                       Fopen (cstr hdr) (Some h)])
                (fwrite_full h) Hopened Hsize ltac:(lia))
      as (w' & Hopen' & Hdrain).
    rewrite (file_entry_opened sgn h fuel path hdr _ _ w w1 l Hfh)
      by (lia || assumption).
    unfold payload_then, bind at 1. rewrite Hdrain.
    unfold close_output, bind at 1, bind at 1, fclose, ret.
    cbn [input world log]. rewrite <- !app_assoc.
    destruct (IH fuel (libc_fclose h w')
                (l ++ [Fread 512; Say (Extracting_file (cstr hdr));
                       Fopen (cstr hdr) (Some h)]
                   ++ payload_events h
                        (payload_blocks (Z.of_nat (length payload))) payload
                   ++ [Fclose h]))
      as (m' & Hrun & Hin & Hidle' & tl & Hlog & Hfiles).
    { apply fclose_idle, Hopen'. }
    { destruct Hfh as [Hlen _]. lia. }
    exists m'. split; [exact Hrun|]. repeat split; try assumption.
    eexists. rewrite Hlog, <- !app_assoc. split; [reflexivity|].
    intros more. rewrite <- !app_assoc.
    cbn [app files_of map fst snd].
    rewrite files_of_payload_events. cbn [app files_of].
    rewrite Nat.eqb_refl, Hfiles. do 2 f_equal.
    apply take_ge, payload_blocks_cover.
Qed.

(** The round trip for any number of files.  An archive of well-formed
    regular files, each below 2 GiB, and the end-of-archive block,
    extracted with a library that opens every one of them and takes every
    write in full: [untar] returns at the end-of-archive block, leaving
    unread what follows it; the files the run has opened, written and
    closed are those of the archive, each with its name and its payload
    byte for byte, in the order of the archive. *)
Theorem untar_extracts_files path (w : W) extra entries :
  Forall (extractable sgn Idle Open) entries ->
  Idle w ->
  exists m',
    untar sgn (archive_of entries ++ extra) path w = Ok Ret_end_of_archive m'
    /\ input m' = extra
    /\ files_of None (log m') = map (fun e => (cstr (fst e), snd e)) entries.
Proof.
  intros Hentries Hidle.
  destruct (untar_loop_files path extra entries Hentries
              (S (length (archive_of entries ++ extra))) w
              [Say (Extracting_from path)] Hidle)
    as (m' & Hrun & Hin & _ & tl & Hlog & Hfiles).
  { rewrite length_app. lia. }
  exists m'. split; [|split; [assumption|]].
  - unfold untar, bind. rewrite say_run. exact Hrun.
  - rewrite Hlog. cbn [app files_of].
    rewrite <- (app_nil_r tl), Hfiles. apply app_nil_r.
Qed.

End Archive.

(** *** With the file system in memory *)

Lemma ramfs_opens p :
  p <> [] ->
  strrchr (p ++ [x00]) x2f = None ->
  forall w, RamFS.dirs w = [] ->
    exists h,
      fst (RamFS.do_fopen p w) = Some h
      /\ RamFS.dirs (snd (RamFS.do_fopen p w)) = []
      /\ RamFS.path_of (RamFS.opened (snd (RamFS.do_fopen p w))) h <> None.
Proof.
  intros Hp Hflat w Hdirs. unfold RamFS.do_fopen, RamFS.parent_ok, RamFS.is_dir.
  rewrite (str_eqb_nil _ Hp), Hflat, Hdirs. cbn [existsb negb orb fst snd].
  eexists. split; [reflexivity|]. cbn [RamFS.dirs RamFS.opened RamFS.path_of].
  rewrite Nat.eqb_refl. split; [reflexivity|discriminate].
Qed.

Lemma ramfs_fwrite_full h (d : list byte) w :
  RamFS.dirs w = [] /\ RamFS.path_of (RamFS.opened w) h <> None ->
  fst (RamFS.do_fwrite None h d w) = Z.of_nat (length d)
  /\ RamFS.dirs (snd (RamFS.do_fwrite None h d w)) = []
  /\ RamFS.path_of (RamFS.opened (snd (RamFS.do_fwrite None h d w))) h <> None.
Proof.
  intros [Hdirs Hopen]. unfold RamFS.do_fwrite.
  destruct (RamFS.path_of (RamFS.opened w) h) as [p|] eqn:E; [|contradiction].
  cbn [fst snd RamFS.dirs RamFS.opened]. rewrite firstn_all, E. auto.
Qed.

Lemma ramfs_fclose_idle h w :
  RamFS.dirs w = [] /\ RamFS.path_of (RamFS.opened w) h <> None ->
  RamFS.dirs (RamFS.do_fclose h w) = [].
Proof. intros [Hdirs _]. exact Hdirs. Qed.

Lemma b_file_header : file_header Samples.b_header (Z.of_nat (length (@nil byte))).
Proof.
  apply file_header_check; try (vm_compute; reflexivity).
  apply regular_flag_0. vm_compute. reflexivity.
Qed.

Lemma untar_extracts_files_witness :
  exists m',
    @untar _ Examples.roomy true (archive_of Samples.two_files ++ [x01])
           Examples.tar RamFS.empty
    = Ok Ret_end_of_archive m'
    /\ input m' = [x01]
    /\ files_of None (log m')
       = map (fun e => (cstr (fst e), snd e)) Samples.two_files.
Proof.
  apply (@untar_extracts_files RamFS.fs Examples.roomy true
           (fun w => RamFS.dirs w = [])
           (fun h w => RamFS.dirs w = []
                       /\ RamFS.path_of (RamFS.opened w) h <> None)
           ramfs_fwrite_full ramfs_fclose_idle
           Examples.tar RamFS.empty [x01] Samples.two_files).
  - apply Forall_cons_2; [|apply Forall_cons_2; [|apply Forall_nil_2]].
    + split; [exact hello_file_header|].
      split; [vm_compute; reflexivity|].
      split; [right; apply seven_bitb_spec; vm_compute; reflexivity|].
      apply ramfs_opens; [discriminate|vm_compute; reflexivity].
    + split; [exact b_file_header|].
      split; [vm_compute; reflexivity|].
      split; [right; apply seven_bitb_spec; vm_compute; reflexivity|].
      apply ramfs_opens; [discriminate|vm_compute; reflexivity].
  - reflexivity.
Defined.

(** ** main *)

Lemma archives_tried_app l1 l2 :
  archives_tried (l1 ++ l2) = archives_tried l1 ++ archives_tried l2.
Proof.
  induction l1 as [|e l1 IH]; [reflexivity|].
  destruct e; cbn [app archives_tried]; rewrite ?IH; reflexivity.
Qed.

Lemma archives_tried_untar l : archives_tried (map In_untar l) = [].
Proof. induction l as [|e l IH]; [reflexivity|exact IH]. Qed.

Lemma complaints_app l1 l2 :
  complaints (l1 ++ l2) = complaints l1 ++ complaints l2.
Proof.
  induction l1 as [|e l1 IH]; [reflexivity|].
  destruct e; cbn [app complaints]; rewrite ?IH; reflexivity.
Qed.

Lemma complaints_untar l : complaints (map In_untar l) = [].
Proof. induction l as [|e l IH]; [reflexivity|exact IH]. Qed.

Lemma untar_events_app l1 l2 :
  untar_events (l1 ++ l2) = untar_events l1 ++ untar_events l2.
Proof.
  induction l1 as [|e l1 IH]; [reflexivity|].
  destruct e; cbn [app untar_events]; rewrite ?IH; reflexivity.
Qed.

Lemma untar_events_untar l : untar_events (map In_untar l) = l.
Proof.
  induction l as [|e l IH]; [reflexivity|].
  cbn [map untar_events]. rewrite IH. reflexivity.
Qed.

Section MainRuns.

Context {W : Type} `{Libc W} `{Libc_read W}.
Variable sgn : bool.

Lemma untar_fault_undefined (a : list byte) path (w : W) e :
  untar sgn a path w = Fault e -> e = Undefined.
Proof.
  unfold untar. intros Hrun.
  apply bind_fault_inv in Hrun as [Hrun|(u & m1 & Hsay & Hrun)];
    [discriminate|].
  rewrite say_run in Hsay. injection Hsay as _ <-.
  apply untar_loop_total in Hrun; [assumption|].
  cbn [input]. lia.
Qed.

Lemma main_loop_tries args (w : W) l :
  main_loop sgn args w l = Crash Undefined
  \/ exists w' l',
       main_loop sgn args w l = Exit 0 w' l'
       /\ archives_tried l' = archives_tried l ++ args.
Proof.
  revert w l. induction args as [|path args IH]; intros w l.
  - right. exists w, l. rewrite app_nil_r. split; reflexivity.
  - cbn [main_loop].
    destruct (fst (libc_fopen_read path w)) as [[a stream]|].
    + destruct (untar sgn stream path (snd (libc_fopen_read path w)))
        as [o m|e] eqn:Hrun.
      * destruct (IH (libc_fclose a (world m))
                     (l ++ Open_archive path (Some a)
                        :: map In_untar (log m) ++ [Close_archive a]))
          as [Hcrash|(w' & l' & Hexit & Htried)]; [now left|right].
        exists w', l'. split; [exact Hexit|]. rewrite Htried.
        rewrite archives_tried_app. cbn [archives_tried].
        rewrite archives_tried_app, archives_tried_untar.
        cbn [archives_tried app]. rewrite <- app_assoc. reflexivity.
      * left. apply untar_fault_undefined in Hrun. congruence.
    + destruct (IH (snd (libc_fopen_read path w))
                   (l ++ [Open_archive path None; Unable_to_open path]))
        as [Hcrash|(w' & l' & Hexit & Htried)]; [now left|right].
      exists w', l'. split; [exact Hexit|]. rewrite Htried.
      rewrite archives_tried_app. cbn [archives_tried].
      rewrite <- app_assoc. reflexivity.
Qed.

(** No archive stops the run.  Whatever the arguments, the archives and
    the library, [main] either stops on undefined behaviour inside
    [untar], or tries to open every argument after [argv[0]], in order,
    and returns 0: also after archives that could not be opened, were cut
    short or failed their checksum. *)
Theorem main_tries_every_argument argv (w : W) :
  main sgn argv w = Crash Undefined
  \/ exists w' l,
       main sgn argv w = Exit 0 w' l /\ archives_tried l = drop 1 argv.
Proof.
  unfold main.
  destruct (main_loop_tries (drop 1 argv) w [])
    as [Hcrash|(w' & l & Hexit & Htried)]; [now left|right].
  exists w', l. split; assumption.
Qed.

(** What the library is taken to do, as for [untar] on an archive of
    several files; closing the stream of an archive leaves the library
    ready for the next. *)
Variable Idle : W -> Prop.
Variable Open : handle -> W -> Prop.

Hypothesis fwrite_full :
  forall h d w, Open h w ->
    fst (libc_fwrite h d w) = Z.of_nat (length d)
    /\ Open h (snd (libc_fwrite h d w)).
Hypothesis fclose_idle : forall h w, Open h w -> Idle (libc_fclose h w).
Hypothesis fclose_archive : forall a w, Idle w -> Idle (libc_fclose a w).

Lemma main_loop_extracts args :
  Forall (readable sgn Idle Open) args ->
  forall (w : W) l,
    Idle w ->
    exists w' tl,
      main_loop sgn (map fst args) w l = Exit 0 w' (l ++ tl)
      /\ Idle w'
      /\ (forall more,
            files_of None (untar_events tl ++ more)
            = flat_map files_in args ++ files_of None more)
      /\ complaints tl
         = flat_map (fun arg => match snd arg with
                                | None => [fst arg]
                                | Some _ => []
                                end) args.
Proof.
  induction 1 as [|[path [[entries extra]|]] args Harg _ IH];
    intros w l Hidle.
  - exists w, []. rewrite app_nil_r. repeat split; assumption.
  - destruct Harg as [Hentries Hopen]. cbn [fst snd] in *.
    destruct (Hopen w Hidle) as (a & Ha & Hidle1).
    cbn [map fst main_loop]. rewrite Ha.
    destruct (untar_loop_files sgn Idle Open fwrite_full fclose_idle
                path extra entries Hentries
                (S (length (archive_of entries ++ extra)))
                (snd (libc_fopen_read path w))
                [Say (Extracting_from path)] Hidle1)
      as (m & Hrun & _ & Hidle2 & tl & Hlog & Hfiles).
    { rewrite length_app. lia. }
    assert (untar sgn (archive_of entries ++ extra) path
                  (snd (libc_fopen_read path w))
            = Ok Ret_end_of_archive m) as ->.
    { unfold untar, bind. rewrite say_run. exact Hrun. }
    destruct (IH (libc_fclose a (world m))
                 (l ++ Open_archive path (Some a)
                    :: map In_untar (log m) ++ [Close_archive a]))
      as (w' & tl' & Hexit & Hidle' & Hfiles' & Hcomplaints).
    { apply fclose_archive, Hidle2. }
    exists w', (Open_archive path (Some a)
                  :: map In_untar (log m) ++ [Close_archive a] ++ tl').
    split; [|split; [assumption|split]].
    + rewrite Hexit. f_equal. rewrite <- !app_assoc. cbn [app].
      rewrite <- ?app_assoc. reflexivity.
    + intros more. cbn [untar_events flat_map]. unfold files_in at 1.
      cbn [snd].
      rewrite !untar_events_app, untar_events_untar.
      cbn [untar_events app]. rewrite Hlog. cbn [app files_of].
      rewrite <- !app_assoc, Hfiles, Hfiles'. reflexivity.
    + cbn [complaints flat_map snd app].
      rewrite !complaints_app, complaints_untar. cbn [complaints app].
      exact Hcomplaints.
  - unfold readable in Harg. cbn [fst snd] in *.
    destruct (Harg w Hidle) as [Hnone Hidle1].
    cbn [map fst main_loop]. rewrite Hnone.
    destruct (IH (snd (libc_fopen_read path w))
                 (l ++ [Open_archive path None; Unable_to_open path]))
      as (w' & tl' & Hexit & Hidle' & Hfiles' & Hcomplaints);
      [assumption|].
    exists w', (Open_archive path None :: Unable_to_open path :: tl').
    split; [|split; [assumption|split]].
    + rewrite Hexit. f_equal. rewrite <- !app_assoc. cbn [app].
      rewrite <- ?app_assoc. reflexivity.
    + intros more. cbn [untar_events flat_map app]. exact (Hfiles' more).
    + cbn [complaints flat_map snd fst app]. rewrite Hcomplaints.
      reflexivity.
Qed.

(** A command line of archives.  Each argument either cannot be opened
    or is an archive of well-formed regular files (each below 2 GiB) the
    library can open and write in full: [main] returns 0; the files its
    calls of [untar] have opened, written and closed are the files of the
    archives, archive after archive, each under its name with its payload
    byte for byte; and it has complained about the arguments it could not
    open, and about no other. *)
Theorem main_extracts_archives prog args (w : W) :
  Forall (readable sgn Idle Open) args ->
  Idle w ->
  exists w' l,
    main sgn (prog :: map fst args) w = Exit 0 w' l
    /\ files_of None (untar_events l) = flat_map files_in args
    /\ complaints l
       = flat_map (fun arg => match snd arg with
                              | None => [fst arg]
                              | Some _ => []
                              end) args.
Proof.
  intros Hargs Hidle.
  destruct (main_loop_extracts args Hargs w [] Hidle)
    as (w' & tl & Hexit & _ & Hfiles & Hcomplaints).
  exists w', tl. split; [exact Hexit|]. split; [|exact Hcomplaints].
  rewrite <- (app_nil_r (untar_events tl)), Hfiles. apply app_nil_r.
Qed.

End MainRuns.

(** *** The command line on the file system in memory *)

Lemma str_eqb_neq p q : p <> q -> RamFS.str_eqb p q = false.
Proof.
  intros Hne. destruct (RamFS.str_eqb p q) eqn:E; [|reflexivity].
  apply str_eqb_eq in E. contradiction.
Qed.

(** Storing a file leaves the others as they are. *)
Lemma lookup_store_other l p c q :
  q <> p ->
  RamFS.lookup_file (RamFS.store_file l p c) q = RamFS.lookup_file l q.
Proof.
  intros Hne. induction l as [|[r d] l IH].
  - cbn [RamFS.store_file RamFS.lookup_file].
    rewrite (str_eqb_neq _ _ Hne). reflexivity.
  - cbn [RamFS.store_file]. destruct (RamFS.str_eqb p r) eqn:E.
    + apply str_eqb_eq in E. subst r. cbn [RamFS.lookup_file].
      rewrite (str_eqb_neq _ _ Hne). reflexivity.
    + cbn [RamFS.lookup_file]. rewrite IH. reflexivity.
Qed.

Lemma disk_idle_store w p c :
  DiskStates.idle w ->
  p = Examples.a_txt \/ p = bytes "b" ->
  forall o n,
    DiskStates.idle
      (RamFS.Fs (RamFS.dirs w) (RamFS.store_file (RamFS.files w) p c) o n).
Proof.
  intros (Hdirs & Htar & Hmissing) Hp o n.
  unfold DiskStates.idle, RamFS.contents in *. cbn [RamFS.dirs RamFS.files].
  rewrite !lookup_store_other by (destruct Hp as [->| ->]; discriminate).
  auto.
Qed.

Lemma disk_opens p :
  p = Examples.a_txt \/ p = bytes "b" ->
  forall w, DiskStates.idle w ->
    exists h,
      fst (RamFS.do_fopen p w) = Some h
      /\ DiskStates.open h (snd (RamFS.do_fopen p w)).
Proof.
  intros Hp w Hidle. pose proof Hidle as (Hdirs & _).
  unfold RamFS.do_fopen, RamFS.parent_ok, RamFS.is_dir. rewrite Hdirs.
  assert (RamFS.str_eqb p [] = false /\ strrchr (p ++ [x00]) x2f = None)
    as [-> ->] by (destruct Hp as [->| ->]; split; reflexivity).
  cbn [existsb negb orb fst snd]. eexists. split; [reflexivity|].
  split.
  - rewrite <- Hdirs. apply disk_idle_store; assumption.
  - exists p. cbn [RamFS.opened RamFS.path_of]. rewrite Nat.eqb_refl. auto.
Qed.

Lemma disk_fwrite_full h (d : list byte) w :
  DiskStates.open h w ->
  fst (RamFS.do_fwrite None h d w) = Z.of_nat (length d)
  /\ DiskStates.open h (snd (RamFS.do_fwrite None h d w)).
Proof.
  intros (Hidle & p & Hpath & Hp). unfold RamFS.do_fwrite. rewrite Hpath.
  cbn [fst snd]. rewrite firstn_all. split; [reflexivity|]. split.
  - apply disk_idle_store; assumption.
  - exists p. cbn [RamFS.opened]. auto.
Qed.

Lemma disk_fclose_idle h w :
  DiskStates.idle w -> DiskStates.idle (RamFS.do_fclose h w).
Proof. intros Hidle. exact Hidle. Qed.

Lemma disk_fclose_open h w :
  DiskStates.open h w -> DiskStates.idle (RamFS.do_fclose h w).
Proof. intros [Hidle _]. exact Hidle. Qed.

Lemma disk_extractable :
  Forall (@extractable _ Examples.roomy true DiskStates.idle DiskStates.open)
         Samples.two_files.
Proof.
  apply Forall_cons_2; [|apply Forall_cons_2; [|apply Forall_nil_2]].
  - split; [exact hello_file_header|].
    split; [vm_compute; reflexivity|].
    split; [right; apply seven_bitb_spec; vm_compute; reflexivity|].
    apply (disk_opens Examples.a_txt). now left.
  - split; [exact b_file_header|].
    split; [vm_compute; reflexivity|].
    split; [right; apply seven_bitb_spec; vm_compute; reflexivity|].
    apply (disk_opens (bytes "b")). now right.
Qed.

Lemma disk_readable :
  Forall (@readable _ Examples.roomy ramfs_read true
                    DiskStates.idle DiskStates.open)
         Disk.arguments.
Proof.
  apply Forall_cons_2; [|apply Forall_cons_2; [|apply Forall_nil_2]].
  - split; [exact disk_extractable|].
    intros w (Hdirs & Htar & Hmissing).
    cbn [fst libc_fopen_read ramfs_read]. unfold ramfs_fopen_read.
    rewrite Htar. eexists. split; [reflexivity|].
    repeat split; assumption.
  - intros w (Hdirs & Htar & Hmissing).
    cbn [fst libc_fopen_read ramfs_read]. unfold ramfs_fopen_read.
    rewrite Hmissing. repeat split; assumption.
Qed.

Lemma main_extracts_archives_witness :
  exists w' l,
    @main _ Examples.roomy ramfs_read true
          (bytes "untar" :: map fst Disk.arguments) Disk.holding_t_tar
    = Exit 0 w' l
    /\ files_of None (untar_events l) = flat_map files_in Disk.arguments
    /\ complaints l
       = flat_map (fun arg => match snd arg with
                              | None => [fst arg]
                              | Some _ => []
                              end) Disk.arguments.
Proof.
  apply (@main_extracts_archives RamFS.fs Examples.roomy ramfs_read true
           DiskStates.idle DiskStates.open
           disk_fwrite_full disk_fclose_open disk_fclose_idle
           (bytes "untar") Disk.arguments Disk.holding_t_tar).
  - exact disk_readable.
  - repeat split.
Defined.

(** What [untar t.tar missing.tar] leaves behind: the two files as they
    were archived, a complaint about the archive that is not there, and no
    stream open. *)
Example untar_t_tar_missing_tar :
  exists w' l,
    @main _ Examples.roomy ramfs_read true Disk.command_line
          Disk.holding_t_tar
    = Exit 0 w' l
    /\ RamFS.contents w' Examples.a_txt = Some Examples.hello
    /\ RamFS.contents w' (bytes "b") = Some []
    /\ complaints l = [Disk.missing]
    /\ RamFS.opened w' = [].
Proof. eexists _, _. split; [vm_compute; reflexivity|]. vm_compute. auto. Qed.

(** ** Headers at the edges *)

Lemma int_wrap_high z : 2 ^ 31 <= z < 2 ^ 32 -> int_wrap z = z - 2 ^ 32.
Proof.
  intros Hz. unfold int_wrap.
  replace (z + 2 ^ 31) with (z - 2 ^ 31 + 1 * 2 ^ 32) by lia.
  rewrite Z.mod_add, Z.mod_small by lia. lia.
Qed.

(** A string goes on through bytes that are not NUL. *)
Lemma cstr_app_full (a b : list byte) :
  Forall (fun c => c <> x00) a -> cstr (a ++ b) = a ++ cstr b.
Proof.
  induction 1 as [|c a Hc _ IH]; [reflexivity|].
  cbn [app]. rewrite cstr_cons, IH by assumption. reflexivity.
Qed.

Lemma strlen_empty (s : list byte) : idx s 0 = x00 -> strlen s = O.
Proof.
  destruct s as [|c s]; [reflexivity|]. cbn [idx nth strlen].
  intros ->. reflexivity.
Qed.

Section Edges.

Context {W : Type} `{Libc W}.
Variable sgn : bool.

(** A regular file whose size field holds a number from 2^31 up to
    2^32 - 1: the size read is that number less 2^32, below zero, so the
    payload loop is not entered; the file is opened and closed at once,
    left empty, and the blocks of its payload are taken for headers. *)
Theorem oversized_file_left_empty h fuel path (hdr rest : list byte) size
    (w w1 : W) l :
  file_header hdr size ->
  2 ^ 31 <= size < 2 ^ 32 ->
  sgn = false \/ seven_bit hdr ->
  libc_fopen (cstr hdr) w = (Some h, w1) ->
  parseoct sgn (drop 124 hdr) 12 = size - 2 ^ 32
  /\ untar_loop sgn (S fuel) path None (Machine (hdr ++ rest) w l)
     = untar_loop sgn fuel path None
         (Machine rest (libc_fclose h w1)
            (l ++ [Fread 512; Say (Extracting_file (cstr hdr));
                   Fopen (cstr hdr) (Some h); Fclose h])).
Proof.
  intros (Hlen & Hsum & Hflag & ds & Hfld & Hval) Hsize Hsgn Hopen.
  pose proof (checksum_valid_verifies sgn hdr Hlen Hsum Hsgn) as Hv.
  assert (parseoct sgn (drop 124 hdr) 12 = size - 2 ^ 32) as Hparsed.
  { rewrite (parseoct_header_field sgn 124 12 hdr ds) by (assumption || lia).
    rewrite Hval. apply int_wrap_high, Hsize. }
  split; [exact Hparsed|].
  rewrite untar_loop_step by assumption.
  rewrite (verify_checksum_not_end _ _ Hv), Hv. cbn [negb].
  unfold bind at 1. rewrite dispatch_file by assumption.
  unfold bind at 1. rewrite say_run. cbn [input world log].
  unfold bind at 1. rewrite (create_file_opens _ _ _ _ _ _ _ Hopen).
  unfold ret at 1. cbn [fst snd]. rewrite Hparsed.
  unfold payload_then, bind at 1. rewrite drain_done by lia.
  unfold close_output, bind, fclose, ret. cbn [input world log].
  rewrite <- !app_assoc. reflexivity.
Qed.

(** A regular file whose name fills the 100 bytes of its field: the
    name is not cut at the end of the field.  The path announced and
    opened is the field followed by the string that starts in the mode
    field, at offset 100. *)
Theorem full_name_field_runs_on f (hdr : list byte) (m : machine W) :
  length hdr = 512%nat ->
  regular_flag (idx hdr 156) ->
  Forall (fun c => c <> x00) (take 100 hdr) ->
  idx hdr 0 <> x2f ->
  let name := take 100 hdr ++ cstr (drop 100 hdr) in
  exists d m',
    dispatch sgn (hdr ++ [x00; x00]) f m = Ok d m'
    /\ exists tl,
         log m' = log m
                  ++ Say (Extracting_file name)
                  :: Fopen name (fst (libc_fopen name (world m))) :: tl.
Proof.
  intros Hlen Hflag Hfull Hrel name.
  assert (cstr hdr = name) as Hname.
  { rewrite <- (take_drop 100 hdr) at 1. apply cstr_app_full, Hfull. }
  destruct (dispatch_defined sgn f hdr m Hlen Hrel) as (d & m' & Hrun).
  { intros Hdir. exfalso. unfold regular_flag in Hflag. rewrite Hdir in Hflag.
    apply Hflag. vm_compute. split; discriminate. }
  exists d, m'. split; [exact Hrun|].
  rewrite dispatch_file in Hrun by assumption.
  apply bind_ok_inv in Hrun as (u & m1 & Hsay & Hrun).
  rewrite say_run in Hsay. injection Hsay as _ <-.
  apply bind_ok_inv in Hrun as (fb & m2 & Hfile & Hrun).
  apply ret_ok_inv in Hrun as [_ <-].
  apply create_file_first_fopen in Hfile as [_ [tl Hlog]].
  cbn [log world] in Hlog. rewrite cstr_app_nul, Hname in Hlog.
  exists tl. rewrite Hlog, <- app_assoc. reflexivity.
Qed.

(** A directory entry without a name: [create_dir] is called on the
    empty string and reads [pathname[-1]], the byte before the buffer. *)
Theorem empty_directory_name_undefined fuel path (hdr rest : list byte)
    (w : W) l :
  length hdr = 512%nat ->
  verify_checksum sgn hdr = true ->
  idx hdr 156 = x35 ->
  idx hdr 0 = x00 ->
  untar_loop sgn (S fuel) path None (Machine (hdr ++ rest) w l)
  = Fault Undefined.
Proof.
  intros Hlen Hv Hflag Hempty.
  rewrite untar_loop_step by assumption.
  rewrite (verify_checksum_not_end _ _ Hv), Hv. cbn [negb].
  unfold bind at 1. rewrite dispatch_dir by assumption.
  unfold bind at 1. rewrite say_run. unfold bind at 1.
  unfold create_dir. cbn [create_dir_rec].
  rewrite terminated_app_nul, strlen_app_nul, (strlen_empty _ Hempty).
  reflexivity.
Qed.

End Edges.

Lemma huge_header_declares : file_header Examples.huge_header Examples.huge_size.
Proof. rewrite <- huge_payload_length. exact huge_file_header. Qed.

Lemma oversized_file_left_empty_witness :
  parseoct true (drop 124 Examples.huge_header) 12
  = Examples.huge_size - 2 ^ 32
  /\ @untar_loop _ Examples.roomy true 2 Examples.tar None
       (Machine (Examples.huge_header ++ Ustar.zero_block) RamFS.empty [])
     = @untar_loop _ Examples.roomy true 1 Examples.tar None
         (Machine Ustar.zero_block
            (@libc_fclose _ Examples.roomy 3%nat
               (snd (RamFS.do_fopen (bytes "big") RamFS.empty)))
            ([] ++ [Fread 512;
                    Say (Extracting_file (cstr Examples.huge_header));
                    Fopen (cstr Examples.huge_header) (Some 3%nat);
                    Fclose 3%nat])).
Proof.
  apply (@oversized_file_left_empty RamFS.fs Examples.roomy true 3%nat 1
           Examples.tar Examples.huge_header Ustar.zero_block
           Examples.huge_size RamFS.empty
           (snd (RamFS.do_fopen (bytes "big") RamFS.empty)) []).
  - exact huge_header_declares.
  - unfold Examples.huge_size. lia.
  - right. apply seven_bitb_spec. vm_compute. reflexivity.
  - vm_compute. reflexivity.
Defined.

Lemma long_name_full :
  Forall (fun c => c <> x00) (take 100 Examples.long_name_header).
Proof.
  apply Forall_forall. intros c Hc.
  change (take 100 Examples.long_name_header) with (replicate 100 x61) in Hc.
  apply elem_of_replicate in Hc as [-> _]. discriminate.
Qed.

Lemma full_name_field_runs_on_witness :
  exists d m',
    @dispatch _ Examples.roomy true (Examples.long_name_header ++ [x00; x00])
              None (Machine [] RamFS.empty [])
    = Ok d m'
    /\ exists tl,
         log m'
         = [] ++ Say (Extracting_file
                        (take 100 Examples.long_name_header
                           ++ cstr (drop 100 Examples.long_name_header)))
              :: Fopen (take 100 Examples.long_name_header
                          ++ cstr (drop 100 Examples.long_name_header))
                   (fst (@libc_fopen _ Examples.roomy
                           (take 100 Examples.long_name_header
                              ++ cstr (drop 100 Examples.long_name_header))
                           RamFS.empty))
              :: tl.
Proof.
  apply (@full_name_field_runs_on RamFS.fs Examples.roomy true None
           Examples.long_name_header (Machine [] RamFS.empty [])).
  - vm_compute. reflexivity.
  - apply regular_flag_0. vm_compute. reflexivity.
  - exact long_name_full.
  - apply byte_neq_check. vm_compute. reflexivity.
Defined.

Lemma empty_directory_name_undefined_witness :
  @untar_loop _ Examples.roomy true 1 Examples.tar None
     (Machine (Samples.nameless_dir_header ++ Ustar.zero_block)
              RamFS.empty [])
  = Fault Undefined.
Proof.
  apply (@empty_directory_name_undefined RamFS.fs Examples.roomy true 0
           Examples.tar Samples.nameless_dir_header Ustar.zero_block
           RamFS.empty []).
  - vm_compute. reflexivity.
  - vm_compute. reflexivity.
  - vm_compute. reflexivity.
  - vm_compute. reflexivity.
Defined.

(** ** The paths of the creation calls *)

Lemma mkdir_calls_app l1 l2 :
  mkdir_calls (l1 ++ l2) = mkdir_calls l1 ++ mkdir_calls l2.
Proof.
  induction l1 as [|e l1 IH]; [reflexivity|].
  destruct e; cbn [app mkdir_calls]; rewrite ?IH; reflexivity.
Qed.

Lemma mkdir_attempts_up k p d mode :
  dirname p = Some d ->
  mkdir_attempts (S k) p mode
  = (p, mode) :: mkdir_attempts k d 493 ++ [(p, mode)].
Proof. intros Hd. cbn [mkdir_attempts]. rewrite Hd. reflexivity. Qed.

(** The buffer of a header block holds the string the block starts
    with. *)
Lemma no_double_slash_buffer (hdr : list byte) :
  no_double_slash hdr -> no_double_slash (hdr ++ [x00; x00]).
Proof.
  intros Hclean i Hi. rewrite strlen_app_nul in Hi.
  pose proof (strlen_le hdr). rewrite !idx_app_l by lia.
  apply Hclean. assumption.
Qed.

(** Cutting a name without empty components at its last '/' leaves a
    name that does not end in '/'. *)
Lemma strip_buffer_cut (s : list byte) q :
  no_double_slash s ->
  (q < strlen s)%nat -> q <> O -> idx s q = x2f ->
  strip_buffer (<[q := x00]> s) = <[q := x00]> s.
Proof.
  intros Hclean Hq Hq0 Hc. apply (strip_buffer_no_slash _ (q - 1)).
  - rewrite strlen_insert_nul by assumption. lia.
  - rewrite idx_insert_ne by lia. intros Hprev.
    apply (Hclean (q - 1)%nat); [lia|assumption|].
    replace (S (q - 1)) with q by lia. assumption.
Qed.

(** The string of the buffer once its trailing '/' is cut. *)
Lemma cstr_strip_buffer (s : list byte) :
  cstr (strip_buffer s) = strip_slash (cstr s).
Proof.
  unfold strip_buffer. destruct (strlen s) as [|last] eqn:Hs.
  - unfold strip_slash. rewrite length_cstr, Hs. reflexivity.
  - apply cstr_strip, Hs.
Qed.

(** A string that is [n] bytes or longer: its first [n] bytes, then the
    string that starts after them. *)
Lemma cstr_split (s : list byte) n :
  (n <= strlen s)%nat -> cstr s = take n s ++ cstr (drop n s).
Proof.
  revert n. induction s as [|c s IH]; intros n Hn.
  - rewrite take_nil, drop_nil. reflexivity.
  - destruct n as [|n]; [reflexivity|].
    cbn [strlen] in Hn. destruct (Byte.eqb c x00) eqn:E; [lia|].
    assert (c <> x00) as Hc by (intros ->; discriminate).
    rewrite cstr_cons by assumption. cbn [take drop app].
    change (firstn (S n) (c :: s)) with (c :: take n s).
    change (skipn (S n) (c :: s)) with (drop n s).
    cbn [app]. f_equal. apply IH. lia.
Qed.

Section Paths.

Context {W : Type} `{Libc W}.
Variable sgn : bool.

(** On a name without empty components, a defined call of the recursion
    gives the buffer back as it was, but for the trailing '/' of the
    name; and it goes up through the paths above the name and comes back
    the same way: each level is tried, then the levels above it, then
    tried again. *)
Lemma create_dir_rec_paths fuel pathname mode (m : machine W) buff' m' :
  no_double_slash pathname ->
  create_dir_rec fuel pathname mode m = Ok buff' m' ->
  buff' = strip_buffer pathname
  /\ exists tl k,
       log m' = log m ++ tl
       /\ mkdir_calls tl
          = mkdir_attempts k (cstr (strip_buffer pathname)) mode.
Proof.
  revert pathname mode m buff' m'.
  induction fuel as [|fuel IH];
    intros pathname mode m buff' m' Hclean Hrun; [discriminate|].
  cbn [create_dir_rec] in Hrun.
  destruct (terminated pathname) eqn:Hterm; [|discriminate].
  cbn [negb] in Hrun.
  destruct (strlen pathname) as [|last] eqn:Hs; [discriminate|].
  rewrite (strip_buffer_eq _ _ Hs).
  assert (no_double_slash
            (if Byte.eqb (idx pathname last) x2f
             then <[last := x00]> pathname else pathname)) as Hclean1.
  { destruct (Byte.eqb (idx pathname last) x2f); [|assumption].
    apply no_double_slash_cut; [lia|assumption]. }
  set (p1 := if Byte.eqb (idx pathname last) x2f then _ else _) in *.
  clearbody p1.
  apply bind_ok_inv in Hrun as (r & m1 & Hmk & Hrun).
  rewrite mkdir_run in Hmk. injection Hmk as <- <-.
  set (r := fst (libc_mkdir (cstr p1) mode (world m))) in *.
  set (w1 := snd (libc_mkdir (cstr p1) mode (world m))) in *.
  clearbody r w1.
  apply bind_ok_inv in Hrun as (rp & m2 & Hretry & Hrun).
  apply bind_ok_inv in Hrun as (u & m3 & Hsay & Hrun).
  apply ret_ok_inv in Hrun as [<- <-].
  assert (exists t, log m3 = log m2 ++ t /\ mkdir_calls t = [])
    as (t & Hlog3 & Hcalls3).
  { case_in Hsay.
    - rewrite say_run in Hsay. injection Hsay as _ <-.
      eexists. split; reflexivity.
    - apply ret_ok_inv in Hsay as [_ <-]. exists []. rewrite app_nil_r.
      split; reflexivity. }
  assert (snd rp = p1
          /\ exists mid k,
               log m2 = log m ++ Mkdir (cstr p1) mode r :: mid
               /\ (cstr p1, mode) :: mkdir_calls mid
                  = mkdir_attempts k (cstr p1) mode)
    as (Hbuf & mid & k & Hlog2 & Hcalls2).
  { case_in Hretry.
    2:{ apply ret_ok_inv in Hretry as [<- <-]. split; [reflexivity|].
        exists [], O. split; reflexivity. }
    case_in Hretry.
    2:{ apply ret_ok_inv in Hretry as [<- <-]. split; [reflexivity|].
        exists [], O. split; reflexivity. }
    cbn [log] in *.
    match goal with Hp : strrchr p1 x2f = Some ?p |- _ =>
      destruct (strrchr_spec _ _ _ Hp) as [Hplen Hpc];
      pose proof (dirname_cstr p1) as Hup; rewrite Hp in Hup;
      rename p into q end.
    apply bind_ok_inv in Hretry as (b & m4 & Hrec & Hretry).
    assert (q <> O) as Hq.
    { intros ->. destruct fuel as [|fuel']; [discriminate|].
      cbn [create_dir_rec] in Hrec.
      rewrite terminated_insert_nul, strlen_insert_nul in Hrec
        by assumption.
      discriminate. }
    assert (no_double_slash (<[q := x00]> p1)) as Hclean2
      by (apply no_double_slash_cut; assumption).
    destruct (IH _ _ _ _ _ Hclean2 Hrec) as (Hb & tl1 & k1 & Hlog1 & Hcalls1).
    rewrite strip_buffer_cut in Hb, Hcalls1 by assumption.
    rewrite cstr_insert_nul in Hcalls1 by assumption. subst b.
    rewrite insert_restore in Hretry
      by (try assumption; pose proof (strlen_le p1); lia).
    apply bind_ok_inv in Hretry as (r' & m5 & Hmk & Hretry).
    rewrite mkdir_run in Hmk. injection Hmk as <- <-.
    apply ret_ok_inv in Hretry as [<- <-]. cbn [log snd] in *.
    split; [reflexivity|].
    exists (tl1 ++ [Mkdir (cstr p1) mode
                      (fst (libc_mkdir (cstr p1) mode (world m4)))]), (S k1).
    rewrite Hlog1, <- !app_assoc. split; [reflexivity|].
    rewrite (mkdir_attempts_up _ _ _ _ Hup), mkdir_calls_app, Hcalls1.
    reflexivity. }
  split; [exact Hbuf|].
  exists (Mkdir (cstr p1) mode r :: mid ++ t), k.
  rewrite Hlog3, Hlog2, <- app_assoc. split; [reflexivity|].
  cbn [mkdir_calls]. rewrite mkdir_calls_app, Hcalls3, app_nil_r.
  exact Hcalls2.
Qed.

(** [create_dir] only ever calls [mkdir]: a defined call leaves the
    stream alone and adds to the log calls of [mkdir] and its complaints,
    nothing else.  The first call is on the name less its trailing '/',
    with the caller's mode; when parents are tried, the last call has the
    caller's mode again and those between have 0755; there are at most
    two calls per byte of the name.  On a name without empty components
    the paths are known too: the name, then the same for the path above
    it, then the name again, so that the name itself is tried first and
    last. *)
Theorem create_dir_calls pathname mode (m : machine W) buff' m' :
  create_dir pathname mode m = Ok buff' m' ->
  let name := strip_slash (cstr pathname) in
  input m' = input m
  /\ exists tl,
       log m' = log m ++ tl
       /\ Forall (fun e => mkdir_or_diag e = true) tl
       /\ (mkdir_modes tl = [mode]
           \/ exists k,
                mkdir_modes tl = mode :: replicate (S k) 493 ++ [mode])
       /\ (length (mkdir_modes tl) <= 2 * strlen pathname)%nat
       /\ (exists rest, mkdir_calls tl = (name, mode) :: rest)
       /\ (no_double_slash pathname ->
           exists k, mkdir_calls tl = mkdir_attempts k name mode).
Proof.
  intros Hrun name.
  destruct (create_dir_rec_calls _ _ _ _ _ _ Hrun)
    as (Hin & tl & Hlog & Hall & [k Hmodes] & Hcount).
  split; [assumption|]. exists tl.
  split; [assumption|]. split; [assumption|].
  split; [destruct Hmodes as [E|E]; [now left|right; now exists k]|].
  split; [assumption|]. split.
  - destruct (create_dir_first_mkdir _ _ _ _ _ Hrun) as [_ [rest Hfirst]].
    fold name in Hfirst. rewrite Hlog in Hfirst.
    apply app_inv_head in Hfirst. subst tl. eexists. reflexivity.
  - intros Hclean.
    destruct (create_dir_rec_paths _ _ _ _ _ _ Hclean Hrun)
      as (_ & tl' & k' & Hlog' & Hcalls).
    rewrite Hlog in Hlog'. apply app_inv_head in Hlog'. subst tl'.
    exists k'. rewrite Hcalls, cstr_strip_buffer. reflexivity.
Qed.

(** A defined call of [create_file] on a name without empty components:
    one [fopen] on the name; or a failed [fopen] on it, the calls of
    [create_dir] for the path above it, and a second [fopen] on the same
    name, whose result is the one returned. *)
Lemma create_file_paths buff mode (m : machine W) f buff' m' :
  no_double_slash buff ->
  create_file buff mode m = Ok (f, buff') m' ->
  exists tl,
    log m' = log m ++ tl
    /\ (tl = [Fopen (cstr buff) f]
        \/ exists mid k d,
             dirname (cstr buff) = Some d
             /\ tl = Fopen (cstr buff) None :: mid ++ [Fopen (cstr buff) f]
             /\ Forall (fun e => mkdir_or_diag e = true) mid
             /\ mkdir_calls mid = mkdir_attempts k d 493).
Proof.
  unfold create_file, c_str. intros Hclean Hrun.
  destruct (terminated buff); [|discriminate].
  apply bind_ok_inv in Hrun as (name & m0 & Hname & Hrun).
  apply ret_ok_inv in Hname as [<- <-].
  apply bind_ok_inv in Hrun as (fo & m1 & Hopen & Hrun).
  rewrite fopen_run in Hopen. injection Hopen as <- <-.
  set (fo := fst (libc_fopen (cstr buff) (world m))) in *.
  set (w1 := snd (libc_fopen (cstr buff) (world m))) in *.
  clearbody fo w1.
  destruct fo as [h|].
  { apply ret_ok_inv in Hrun as [E <-]. injection E as <- <-.
    eexists. split; [reflexivity|]. now left. }
  case_in Hrun.
  2:{ apply ret_ok_inv in Hrun as [E <-]. injection E as <- <-.
      eexists. split; [reflexivity|]. now left. }
  match goal with Hp : strrchr buff x2f = Some ?p |- _ =>
    destruct (strrchr_spec _ _ _ Hp) as [Hplen Hpc];
    pose proof (dirname_cstr buff) as Hup; rewrite Hp in Hup;
    rename p into q end.
  apply bind_ok_inv in Hrun as (b & m2 & Hdir & Hrun).
  assert (q <> O) as Hq.
  { intros ->. unfold create_dir in Hdir. cbn [create_dir_rec] in Hdir.
    rewrite terminated_insert_nul, strlen_insert_nul in Hdir by assumption.
    discriminate. }
  assert (no_double_slash (<[q := x00]> buff)) as Hclean2
    by (apply no_double_slash_cut; assumption).
  destruct (create_dir_rec_paths _ _ _ _ _ _ Hclean2 Hdir)
    as (Hb & mid & k & Hlog & Hcalls).
  destruct (create_dir_rec_calls _ _ _ _ _ _ Hdir)
    as (_ & mid' & Hlog' & Hall & _).
  rewrite Hlog in Hlog'. apply app_inv_head in Hlog'. subst mid'.
  rewrite strip_buffer_cut in Hb, Hcalls by assumption.
  rewrite cstr_insert_nul in Hcalls by assumption. subst b.
  rewrite insert_restore in Hrun
    by (try assumption; pose proof (strlen_le buff); lia).
  apply bind_ok_inv in Hrun as (f2 & m3 & Hopen & Hrun).
  rewrite fopen_run in Hopen. injection Hopen as <- <-.
  apply ret_ok_inv in Hrun as [E <-]. injection E as <- <-.
  cbn [log] in *. eexists. rewrite Hlog, <- !app_assoc.
  split; [reflexivity|]. right. exists mid, k, (take q (cstr buff)).
  auto.
Qed.

(** C5 (amended).  The path of an entry is the C string at the start of
    its header block: the string of the name field when the field holds a
    NUL, the field run on into what follows it when the name fills all
    100 bytes.  When that path has no two '/' in a row, every creation
    call of a defined dispatch is on it or on a path above it.  For a
    directory: [mkdir] calls only, going up from the path less its
    trailing '/', with the mode of the header, through the paths above
    it, with 0755, and back.  For a regular file: [fopen] on the path; or
    a failed [fopen] on it, [mkdir] calls going up from the path above it
    and back, and a second [fopen] on the same path; the result of the
    last [fopen] is the [f] the payload is written to.  The dispatch is
    defined for every path that does not start with '/' and, for a
    directory, is not empty. *)
Theorem creation_path f (hdr : list byte) (m : machine W) :
  length hdr = 512%nat ->
  no_double_slash hdr ->
  let path := cstr hdr in
  let mode := parseoct sgn (drop 100 hdr) 8 in
  ((strlen hdr < 100)%nat -> path = cstr (take 100 hdr))
  /\ ((100 <= strlen hdr)%nat -> path = take 100 hdr ++ cstr (drop 100 hdr))
  /\ (forall d m',
        dispatch sgn (hdr ++ [x00; x00]) f m = Ok d m' ->
        input m' = input m
        /\ (idx hdr 156 = x35 ->
            exists mid k,
              log m' = log m ++ Say (Extracting_dir path) :: mid
              /\ Forall (fun e => mkdir_or_diag e = true) mid
              /\ mkdir_calls mid = mkdir_attempts k (strip_slash path) mode)
        /\ (regular_flag (idx hdr 156) ->
            exists tl,
              log m' = log m ++ Say (Extracting_file path) :: tl
              /\ (tl = [Fopen path (snd d)]
                  \/ exists mid k parent,
                       dirname path = Some parent
                       /\ tl = Fopen path None
                                 :: mid ++ [Fopen path (snd d)]
                       /\ Forall (fun e => mkdir_or_diag e = true) mid
                       /\ mkdir_calls mid = mkdir_attempts k parent 493)))
  /\ (idx hdr 0 <> x2f ->
      (idx hdr 156 = x35 -> idx hdr 0 <> x00) ->
      exists d m', dispatch sgn (hdr ++ [x00; x00]) f m = Ok d m').
Proof.
  intros Hlen Hclean. cbv zeta.
  split; [intros Hn; symmetry; apply cstr_name_field, Hn|].
  split; [apply cstr_split|].
  split; [|apply dispatch_defined; assumption].
  pose proof (no_double_slash_buffer _ Hclean) as Hclean'.
  intros d m' Hrun.
  split; [exact (dispatch_input _ _ _ _ _ _ Hrun)|].
  split; intros Hflag.
  - rewrite (dispatch_dir sgn) in Hrun by assumption.
    apply bind_ok_inv in Hrun as (u & m1 & Hsay & Hrun).
    rewrite say_run in Hsay. injection Hsay as _ <-.
    apply bind_ok_inv in Hrun as (b & m2 & Hdir & Hrun).
    apply ret_ok_inv in Hrun as [_ <-].
    destruct (create_dir_rec_calls _ _ _ _ _ _ Hdir)
      as (_ & mid & Hlog & Hall & _).
    destruct (create_dir_rec_paths _ _ _ _ _ _ Hclean' Hdir)
      as (_ & mid' & k & Hlog' & Hcalls).
    rewrite Hlog in Hlog'. apply app_inv_head in Hlog'. subst mid'.
    rewrite cstr_strip_buffer, cstr_app_nul in Hcalls.
    exists mid, k. split; [|split; assumption].
    rewrite Hlog. cbn [log]. rewrite <- app_assoc. reflexivity.
  - rewrite (dispatch_file sgn) in Hrun by assumption.
    apply bind_ok_inv in Hrun as (u & m1 & Hsay & Hrun).
    rewrite say_run in Hsay. injection Hsay as _ <-.
    apply bind_ok_inv in Hrun as ([f' b] & m2 & Hfile & Hrun).
    apply ret_ok_inv in Hrun as [<- <-]. cbn [fst snd].
    destruct (create_file_paths _ _ _ _ _ _ Hclean' Hfile)
      as (tl & Hlog & Hcalls).
    rewrite cstr_app_nul in Hcalls.
    exists tl. split; [|exact Hcalls].
    rewrite Hlog. cbn [log]. rewrite <- app_assoc. reflexivity.
Qed.

(** *** The count of the payload loop *)

(** But for a directory, the count the payload loop starts from is the
    size field as [parseoct] reads it. *)
Lemma dispatch_counter f (hdr : list byte) (m : machine W) d m' :
  length hdr = 512%nat ->
  idx hdr 156 <> x35 ->
  dispatch sgn (hdr ++ [x00; x00]) f m = Ok d m' ->
  fst (fst d) = parseoct sgn (drop 124 hdr) 12.
Proof.
  intros Hlen Hflag Hrun. unfold dispatch in Hrun.
  apply bind_ok_inv in Hrun as (name & m0 & Hname & Hrun).
  rewrite c_str_buffer in Hname. injection Hname as <- <-.
  rewrite idx_buffer in Hrun by lia.
  rewrite !char_val_eqb in Hrun by lia.
  rewrite !parseoct_field_of_block in Hrun by lia.
  assert (forall (k : ignored) (x : Z * list byte * option handle),
            (say (Ignoring k (cstr hdr)) ;;; ret x) m = Ok d m' -> d = x)
    as Hskip.
  { intros k x E. injection E as <- _. reflexivity. }
  destruct (49 =? _); [apply Hskip in Hrun; subst d; reflexivity|].
  destruct (50 =? _); [apply Hskip in Hrun; subst d; reflexivity|].
  destruct (51 =? _); [apply Hskip in Hrun; subst d; reflexivity|].
  destruct (52 =? _); [apply Hskip in Hrun; subst d; reflexivity|].
  destruct (53 =? _) eqn:E5.
  { exfalso. apply Hflag, byte_val_inj. apply Z.eqb_eq in E5.
    rewrite <- E5. reflexivity. }
  destruct (54 =? _); [apply Hskip in Hrun; subst d; reflexivity|].
  apply bind_ok_inv in Hrun as (u & m1 & _ & Hrun).
  apply bind_ok_inv in Hrun as (fb & m2 & _ & Hrun).
  apply ret_ok_inv in Hrun as [<- _]. reflexivity.
Qed.

(** C6 (amended).  The count of the payload loop, for a header whose
    size field holds [size] in octal digits.  The count the program reads
    is [size] as a 32-bit [int], and for every entry but a directory that
    is what the payload loop starts from.  A turn of the loop on a full
    block takes the clipped count min(filesize, 512) off [filesize], the
    count it writes, not the 512 it has read.  For [size] below 2^31 the
    loop reads exactly ceil(size / 512) blocks off a stream that holds
    them, whatever happens to the output; for [size] from 2^31 up to
    2^32 - 1 the count starts below zero and the loop reads none. *)
Theorem payload_loop_accounting fuel path (hdr : list byte) size buff f
    (m : machine W) :
  length hdr = 512%nat ->
  declares_size hdr size ->
  let filesize := parseoct sgn (drop 124 hdr) 12 in
  filesize = int_wrap size
  /\ (forall g m0 d m',
        idx hdr 156 <> x35 ->
        dispatch sgn (hdr ++ [x00; x00]) g m0 = Ok d m' ->
        fst (fst d) = filesize /\ input m' = input m0)
  /\ (forall k,
        0 < k < 2 ^ 31 ->
        (512 <= length (input m))%nat ->
        remaining_after (payload_block path k buff f m)
        = Some (k - Z.min k 512))
  /\ (size < 2 ^ 31 ->
      (512 * payload_blocks size <= length (input m))%nat ->
      (payload_blocks size <= fuel)%nat ->
      filesize = size
      /\ exists f' m',
           drain fuel path filesize buff f m = Ok (Continue f') m'
           /\ input m' = drop (512 * payload_blocks size) (input m)
           /\ reads (log m') = (reads (log m) + payload_blocks size)%nat)
  /\ (2 ^ 31 <= size < 2 ^ 32 ->
      filesize = size - 2 ^ 32
      /\ drain fuel path filesize buff f m = Ok (Continue f) m).
Proof.
  intros Hlen (ds & Hfld & Hval). cbv zeta.
  assert (parseoct sgn (drop 124 hdr) 12 = int_wrap size) as Hcount.
  { rewrite (parseoct_header_field sgn 124 12 hdr ds) by (assumption || lia).
    rewrite Hval. reflexivity. }
  assert (0 <= size) as Hpos.
  { destruct Hfld as (lead & trail & _ & _ & Hds & _).
    pose proof (octal_value_bound ds Hds). lia. }
  split; [exact Hcount|]. split; [|split; [|split]].
  - intros g m0 d m' Hflag Hrun.
    split; [exact (dispatch_counter _ _ _ _ _ Hlen Hflag Hrun)|].
    exact (dispatch_input _ _ _ _ _ _ Hrun).
  - intros k Hk Hblock.
    destruct (payload_block_advances path k buff f m Hblock Hk)
      as (b' & g' & m1' & E & _).
    rewrite E. reflexivity.
  - intros Hsmall Hblocks Hfuel.
    rewrite Hcount, int_wrap_small by lia. split; [reflexivity|].
    apply drain_consumes; assumption.
  - intros Hhigh. rewrite Hcount, int_wrap_high by assumption.
    split; [reflexivity|]. apply drain_done. lia.
Qed.

End Paths.

(** ** Directory entries against a directory tree *)

Section Directories.

Context {W : Type} `{Libc W}.
Variable sgn : bool.

(** What the library is taken to do, as for [create_dir]: [is_dir w p]
    says that [p] is a directory in state [w], and [Inv] holds of the
    states in which nothing but a missing parent, or the directory being
    there already, makes [mkdir] fail. *)
Variable is_dir : W -> str -> Prop.
Variable Inv : W -> Prop.

Hypothesis mkdir_inv :
  forall p mode w, Inv w -> Inv (snd (libc_mkdir p mode w)).
Hypothesis mkdir_keeps :
  forall p mode w q, is_dir w q -> is_dir (snd (libc_mkdir p mode w)) q.
Hypothesis mkdir_makes :
  forall p mode w,
    fst (libc_mkdir p mode w) = 0 -> is_dir (snd (libc_mkdir p mode w)) p.
Hypothesis mkdir_fails :
  forall p mode w,
    Inv w -> p <> [] -> fst (libc_mkdir p mode w) <> 0 ->
    (forall d, dirname p = Some d -> is_dir w d) ->
    is_dir w p.


End Directories.

(** ** On concrete headers *)

Lemma nested_file_header_clean : no_double_slash Samples.nested_file_header.
Proof. apply no_double_slashb_spec. vm_compute. reflexivity. Qed.


Lemma create_dir_calls_witness :
  exists buff' m',
    @create_dir _ Examples.roomy MoreExamples.a_b_slash 448
                (Machine [] RamFS.empty [])
    = Ok buff' m'
    /\ input m' = []
    /\ exists tl,
         log m' = [] ++ tl
         /\ Forall (fun e => mkdir_or_diag e = true) tl
         /\ (mkdir_modes tl = [448]
             \/ exists k,
                  mkdir_modes tl = 448 :: replicate (S k) 493 ++ [448])
         /\ (length (mkdir_modes tl) <= 2 * strlen MoreExamples.a_b_slash)%nat
         /\ (exists rest, mkdir_calls tl = (bytes "a/b", 448) :: rest)
         /\ exists k, mkdir_calls tl = mkdir_attempts k (bytes "a/b") 448.
Proof.
  destruct (@create_dir _ Examples.roomy MoreExamples.a_b_slash 448
                        (Machine [] RamFS.empty []))
    as [buff' m'|e] eqn:Hrun; [|vm_compute in Hrun; discriminate].
  exists buff', m'. split; [reflexivity|].
  destruct (@create_dir_calls RamFS.fs Examples.roomy MoreExamples.a_b_slash
              448 (Machine [] RamFS.empty []) buff' m' Hrun)
    as (Hin & tl & Hlog & Hall & Hmodes & Hcount & Hfirst & Hpaths).
  split; [exact Hin|]. exists tl.
  repeat (split; [assumption|]). apply Hpaths, a_b_slash_clean.
Defined.

Lemma creation_path_witness :
  cstr Samples.nested_file_header = cstr (take 100 Samples.nested_file_header)
  /\ exists d m',
       @dispatch _ Examples.roomy true
                 (Samples.nested_file_header ++ [x00; x00]) None
                 (Machine [] RamFS.empty [])
       = Ok d m'
       /\ input m' = []
       /\ exists tl,
            log m'
            = [] ++ Say (Extracting_file (cstr Samples.nested_file_header))
                 :: tl
            /\ (tl = [Fopen (cstr Samples.nested_file_header) (snd d)]
                \/ exists mid k parent,
                     dirname (cstr Samples.nested_file_header) = Some parent
                     /\ tl = Fopen (cstr Samples.nested_file_header) None
                               :: mid
                               ++ [Fopen (cstr Samples.nested_file_header)
                                         (snd d)]
                     /\ Forall (fun e => mkdir_or_diag e = true) mid
                     /\ mkdir_calls mid = mkdir_attempts k parent 493).
Proof.
  destruct (@creation_path RamFS.fs Examples.roomy true None
              Samples.nested_file_header (Machine [] RamFS.empty []))
    as (Hname & _ & Hcalls & Hdefined).
  - vm_compute. reflexivity.
  - exact nested_file_header_clean.
  - split; [apply Hname, Nat.ltb_lt; vm_compute; reflexivity|].
    destruct Hdefined as (d & m' & Hrun).
    + apply byte_neq_check. vm_compute. reflexivity.
    + intros Hflag. vm_compute in Hflag. discriminate.
    + exists d, m'. split; [exact Hrun|].
      destruct (Hcalls d m' Hrun) as (Hin & _ & Hfile).
      split; [exact Hin|]. apply Hfile, regular_flag_0.
      vm_compute. reflexivity.
Defined.

(** What that dispatch does in an empty directory: the first [fopen]
    fails for want of "d", "d" is made, and the second [fopen], on the
    same path, opens the file. *)
Example nested_file_created_by_second_fopen :
  exists d m',
    @dispatch _ Examples.roomy true
              (Samples.nested_file_header ++ [x00; x00]) None
              (Machine [] RamFS.empty [])
    = Ok d m'
    /\ snd d = Some 3%nat
    /\ creations (log m')
       = [Fopen (bytes "d/a.txt") None; Mkdir (bytes "d") 493 0;
          Fopen (bytes "d/a.txt") (Some 3%nat)].
Proof. eexists _, _. split; [vm_compute; reflexivity|]. vm_compute. auto. Qed.

(** C5 as stated fails three times over.  The directory "sub/" is made as
    "sub".  A file whose name fills its 100-byte field is opened under
    that name run on into the mode field, "0000644".  And where "a" is a
    file, the regular file "a//b" is written to "a": the first [fopen]
    fails, [create_dir] on "a/" cuts the path for good, and the second
    [fopen] is on "a", whose contents are replaced by the payload. *)
Lemma creation_path_is_not_the_name_field :
  cstr (take 100 Examples.sub_header) = bytes "sub/"
  /\ creations (log_of (@untar _ Examples.roomy true Examples.sub_archive
                               Examples.tar RamFS.empty))
     = [Mkdir (bytes "sub") 493 0]
  /\ cstr (take 100 Examples.long_name_header) = Examples.long_name
  /\ creations (log_of (@untar _ Examples.roomy true
                               Examples.long_name_archive Examples.tar
                               RamFS.empty))
     = [Fopen (Examples.long_name ++ bytes "0000644") (Some 3%nat)]
  /\ (exists m',
        @untar _ Examples.roomy true Samples.double_slash_file_archive
               Examples.tar Samples.a_is_a_file
        = Ok Ret_end_of_archive m'
        /\ creations (log m')
           = [Fopen (bytes "a//b") None; Mkdir (bytes "a") 493 (-1);
              Fopen (bytes "a") (Some 3%nat)]
        /\ RamFS.contents (world m') (bytes "a") = Some Examples.hello
        /\ RamFS.contents (world m') (bytes "a//b") = None).
Proof.
  repeat split; try (vm_compute; reflexivity).
  eexists. split; [vm_compute; reflexivity|]. vm_compute. auto.
Qed.

Lemma payload_loop_accounting_witness :
  parseoct true (drop 124 Examples.hello_header) 12 = int_wrap 5
  /\ (exists d m',
        @dispatch _ Examples.roomy true (Examples.hello_header ++ [x00; x00])
                  None
                  (Machine (Ustar.padded Examples.hello ++ Ustar.zero_block)
                           RamFS.empty [])
        = Ok d m'
        /\ fst (fst d) = parseoct true (drop 124 Examples.hello_header) 12
        /\ input m' = Ustar.padded Examples.hello ++ Ustar.zero_block)
  /\ remaining_after
       (@payload_block _ Examples.roomy Examples.tar 5
          (Examples.hello_header ++ [x00; x00]) (Some 3%nat)
          (Machine (Ustar.padded Examples.hello ++ Ustar.zero_block)
                   Examples.a_txt_open []))
     = Some (5 - Z.min 5 512)
  /\ parseoct true (drop 124 Examples.hello_header) 12 = 5
  /\ exists f' m',
       @drain _ Examples.roomy 1 Examples.tar
              (parseoct true (drop 124 Examples.hello_header) 12)
              (Examples.hello_header ++ [x00; x00]) (Some 3%nat)
              (Machine (Ustar.padded Examples.hello ++ Ustar.zero_block)
                       Examples.a_txt_open [])
       = Ok (Continue f') m'
       /\ input m'
          = drop (512 * payload_blocks 5)
                 (Ustar.padded Examples.hello ++ Ustar.zero_block)
       /\ reads (log m') = (reads [] + payload_blocks 5)%nat.
Proof.
  destruct (@payload_loop_accounting RamFS.fs Examples.roomy true 1
              Examples.tar Examples.hello_header 5
              (Examples.hello_header ++ [x00; x00]) (Some 3%nat)
              (Machine (Ustar.padded Examples.hello ++ Ustar.zero_block)
                       Examples.a_txt_open []))
    as (Hcount & Hstart & Hturn & Hloop & _).
  - vm_compute. reflexivity.
  - destruct hello_file_header as (_ & _ & _ & Hsize). exact Hsize.
  - split; [exact Hcount|]. split; [|split].
    + destruct (@dispatch _ Examples.roomy true
                          (Examples.hello_header ++ [x00; x00]) None
                          (Machine (Ustar.padded Examples.hello
                                      ++ Ustar.zero_block) RamFS.empty []))
        as [d m'|e] eqn:Hrun; [|vm_compute in Hrun; discriminate].
      exists d, m'. split; [reflexivity|].
      apply (Hstart None
               (Machine (Ustar.padded Examples.hello ++ Ustar.zero_block)
                        RamFS.empty []) d m'); [|exact Hrun].
      apply byte_neq_check. vm_compute. reflexivity.
    + apply Hturn; [lia|]. apply Nat.leb_le. vm_compute. reflexivity.
    + apply Hloop.
      * lia.
      * apply Nat.leb_le. vm_compute. reflexivity.
      * apply Nat.leb_le. vm_compute. reflexivity.
Defined.

(** C6 as stated fails twice over.  With five bytes left, a turn of the
    payload loop leaves 0, not 5 - 512.  And for the file of 2 GiB, whose
    declared size of 2^31 asks for 4194304 blocks, the loop reads none:
    the run reads two blocks in all, the header and the block after it,
    which it takes for the end of the archive. *)
Lemma payload_block_takes_clipped_count :
  remaining_after
    (@payload_block _ Examples.roomy Examples.tar 5 (replicate 514 x00) None
                    (Machine (Ustar.padded Examples.hello) RamFS.empty []))
  = Some 0
  /\ 5 - 512 = -507
  /\ declares_size Examples.huge_header Examples.huge_size
  /\ (Examples.huge_size + 511) / 512 = 4194304
  /\ exists m',
       @untar _ Examples.roomy true Examples.huge_archive Examples.tar
              RamFS.empty
       = Ok Ret_end_of_archive m'
       /\ reads (log m') = 2%nat.
Proof.
  split; [vm_compute; reflexivity|]. split; [reflexivity|].
  split; [apply huge_header_declares|]. split; [reflexivity|].
  destruct (huge_run true) as (m' & Hrun & Hlog).
  exists m'. split; [exact Hrun|]. rewrite Hlog. reflexivity.
Qed.


(** What that entry does in an empty directory: "a/b" fails for want of
    "a", "a" is made with 0755, and the retry makes "a/b" with the mode
    of the header, 0700; the block after the header is the next one
    read, for all that the size field holds 7. *)
Example nested_directory_made :
  exists m',
    @untar _ Examples.roomy true
           (Samples.nested_dir_header ++ Ustar.zero_block ++ [x01])
           Examples.tar RamFS.empty
    = Ok Ret_end_of_archive m'
    /\ parseoct true (drop 124 Samples.nested_dir_header) 12 = 7
    /\ creations (log m')
       = [Mkdir (bytes "a/b") 448 (-1); Mkdir (bytes "a") 493 0;
          Mkdir (bytes "a/b") 448 0]
    /\ reads (log m') = 2%nat
    /\ input m' = [x01]
    /\ RamFS.dirs (world m') = [bytes "a"; bytes "a/b"].
Proof. eexists. split; [vm_compute; reflexivity|]. vm_compute. auto. Qed.

